(** * The chat session store (frontend/src/stores/session-store.ts)

    A shallow embedding of the zustand session store of the frontend and
    of the two presentation hooks that drive it, together with the
    properties of the store that the specification states.

    The store talks to three collaborators: the durable store (lib/db),
    the backend client (lib/api) and the browser's WebSocket objects.
    They are kept in an explicit [World] next to the store's own state,
    and every store action is a state transformer over that world. *)

From stdpp Require Import gmap strings list fin_maps pretty.

Local Open Scope string_scope.
Local Open Scope list_scope.

(** ** Data model (frontend/src/types/index.ts) *)

(** A [Date] is the number of milliseconds since the epoch. *)
Definition Date := nat.

Inductive Role := user | assistant.

Inductive ConnectionMode := rest | websocket.

Inductive FrameType := chunk | complete | error.

Module ChatMessage.
Record t := mk {
  id : string;
  role : Role;
  content : string;
  timestamp : Date;
  agent : option string
}.
End ChatMessage.

Module Session.
Record t := mk {
  id : string;
  name : string;
  agent : string;
  messages : list ChatMessage.t;
  createdAt : Date;
  updatedAt : Date
}.
End Session.

Module AgentInfo.
Record t := mk {
  name : string;
  description : string;
  capabilities : list string;
  status : string
}.
End AgentInfo.

Module ChatRequest.
Record t := mk {
  message : string;
  session_id : option string;
  agent : option string
}.
End ChatRequest.

Module ChatResponse.
Record t := mk {
  message : string;
  agent : string;
  session_id : string;
  timestamp : string
}.
End ChatResponse.

Module WSMessage.
Record t := mk {
  message : string;
  agent : option string
}.
End WSMessage.

Module WSChunk.
Record t := mk {
  type : FrameType;
  content : option string;
  agent : option string;
  error : option string
}.
End WSChunk.

Global Instance Role_eq_dec : EqDecision Role.
Proof. solve_decision. Defined.
Global Instance ConnectionMode_eq_dec : EqDecision ConnectionMode.
Proof. solve_decision. Defined.
Global Instance FrameType_eq_dec : EqDecision FrameType.
Proof. solve_decision. Defined.

(** ** Browser WebSocket objects

    A [WebSocket] handle is the index of the socket among all the
    sockets created so far.  A socket remembers the session id it was
    created for ([api.createWebSocket(currentSession.id)]), its
    [readyState] and the frames handed to [send] while it was open. *)

Inductive ReadyState := CONNECTING | OPEN | CLOSING | CLOSED.

Global Instance ReadyState_eq_dec : EqDecision ReadyState.
Proof. solve_decision. Defined.

Abbreviation WebSocket := nat (only parsing).

Module Socket.
Record t := mk {
  session : string;
  readyState : ReadyState;
  sent : list WSMessage.t
}.
End Socket.

(** ** The store's state ([interface SessionState], data fields) *)

Record SessionState := mkState {
  sessions : list Session.t;
  currentSession : option Session.t;
  agents : list AgentInfo.t;
  selectedAgent : string;
  isLoading : bool;
  isSending : bool;
  connectionMode : ConnectionMode;
  wsConnection : option WebSocket
}.

(** The initial state given to [create<SessionState>]. *)
Definition initialState : SessionState :=
  {| sessions := [];
     currentSession := None;
     agents := [];
     selectedAgent := "";
     isLoading := false;
     isSending := false;
     connectionMode := rest;
     wsConnection := None |}.

(** ** The world around the store *)

(** What the run time supplies and the store cannot control: the
    successive readings of the clock, the successive outputs of
    [Math.random().toString(36).substring(2, 9)], and the locale's
    rendering of a date. *)
Record Env := mkEnv {
  clock : nat → Date;
  entropy : nat → string;
  toLocaleString : Date → string
}.

Inductive Toast := toast_error (text : string) | toast_success (text : string).

Record World := mkWorld {
  env : Env;
  ticks : nat;                       (* clock readings taken so far *)
  draws : nat;                       (* random strings drawn so far *)
  store : SessionState;              (* the zustand container *)
  db : gmap string Session.t;        (* the durable store *)
  sockets : list Socket.t;           (* every WebSocket created so far *)
  requests : list ChatRequest.t;     (* api.chat calls issued so far *)
  settled : nat;                     (* how many of them have settled *)
  toasts : list Toast                (* notifications shown so far *)
}.

Definition initialWorld (e : Env) : World :=
  {| env := e; ticks := 0; draws := 0; store := initialState; db := ∅;
     sockets := []; requests := []; settled := 0; toasts := [] |}.

(** ** Store actions as state transformers *)

Definition M (A : Type) : Type := World → A * World.

Global Instance M_ret : MRet M := λ A a w, (a, w).
Global Instance M_bind : MBind M := λ A B f m w, let '(a, w') := m w in f a w'.

Definition exec {A} (m : M A) (w : World) : World := snd (m w).
Definition eval {A} (m : M A) (w : World) : A := fst (m w).

Definition skip : M unit := mret ().

Definition modify (f : World → World) : M unit := λ w, ((), f w).

Definition with_store (f : SessionState → SessionState) (w : World) : World :=
  {| env := env w; ticks := ticks w; draws := draws w; store := f (store w);
     db := db w; sockets := sockets w; requests := requests w;
     settled := settled w; toasts := toasts w |}.

Definition with_db (f : gmap string Session.t → gmap string Session.t) (w : World) : World :=
  {| env := env w; ticks := ticks w; draws := draws w; store := store w;
     db := f (db w); sockets := sockets w; requests := requests w;
     settled := settled w; toasts := toasts w |}.

Definition with_sockets (f : list Socket.t → list Socket.t) (w : World) : World :=
  {| env := env w; ticks := ticks w; draws := draws w; store := store w;
     db := db w; sockets := f (sockets w); requests := requests w;
     settled := settled w; toasts := toasts w |}.

(** zustand's [get()] and [set(partial)]. *)
Definition get : M SessionState := λ w, (store w, w).
Definition set (f : SessionState → SessionState) : M unit := modify (with_store f).

(** The partial states passed to [set]. *)
Definition set_sessions (v : list Session.t) (st : SessionState) : SessionState :=
  {| sessions := v; currentSession := currentSession st; agents := agents st;
     selectedAgent := selectedAgent st; isLoading := isLoading st;
     isSending := isSending st; connectionMode := connectionMode st;
     wsConnection := wsConnection st |}.

Definition set_currentSession (v : option Session.t) (st : SessionState) : SessionState :=
  {| sessions := sessions st; currentSession := v; agents := agents st;
     selectedAgent := selectedAgent st; isLoading := isLoading st;
     isSending := isSending st; connectionMode := connectionMode st;
     wsConnection := wsConnection st |}.

Definition set_agents (v : list AgentInfo.t) (st : SessionState) : SessionState :=
  {| sessions := sessions st; currentSession := currentSession st; agents := v;
     selectedAgent := selectedAgent st; isLoading := isLoading st;
     isSending := isSending st; connectionMode := connectionMode st;
     wsConnection := wsConnection st |}.

Definition set_selectedAgent (v : string) (st : SessionState) : SessionState :=
  {| sessions := sessions st; currentSession := currentSession st; agents := agents st;
     selectedAgent := v; isLoading := isLoading st;
     isSending := isSending st; connectionMode := connectionMode st;
     wsConnection := wsConnection st |}.

Definition set_isLoading (v : bool) (st : SessionState) : SessionState :=
  {| sessions := sessions st; currentSession := currentSession st; agents := agents st;
     selectedAgent := selectedAgent st; isLoading := v;
     isSending := isSending st; connectionMode := connectionMode st;
     wsConnection := wsConnection st |}.

Definition set_isSending (v : bool) (st : SessionState) : SessionState :=
  {| sessions := sessions st; currentSession := currentSession st; agents := agents st;
     selectedAgent := selectedAgent st; isLoading := isLoading st;
     isSending := v; connectionMode := connectionMode st;
     wsConnection := wsConnection st |}.

Definition set_connectionMode (v : ConnectionMode) (st : SessionState) : SessionState :=
  {| sessions := sessions st; currentSession := currentSession st; agents := agents st;
     selectedAgent := selectedAgent st; isLoading := isLoading st;
     isSending := isSending st; connectionMode := v;
     wsConnection := wsConnection st |}.

Definition set_wsConnection (v : option WebSocket) (st : SessionState) : SessionState :=
  {| sessions := sessions st; currentSession := currentSession st; agents := agents st;
     selectedAgent := selectedAgent st; isLoading := isLoading st;
     isSending := isSending st; connectionMode := connectionMode st;
     wsConnection := v |}.

(** ** The run time: clock and randomness *)

(** [new Date()] and [Date.now()]: the next reading of the clock. *)
Definition now : M Date := λ w,
  (clock (env w) (ticks w),
   {| env := env w; ticks := S (ticks w); draws := draws w; store := store w;
      db := db w; sockets := sockets w; requests := requests w;
      settled := settled w; toasts := toasts w |}).

(** [Math.random().toString(36).substring(2, 9)]. *)
Definition random36 : M string := λ w,
  (entropy (env w) (draws w),
   {| env := env w; ticks := ticks w; draws := S (draws w); store := store w;
      db := db w; sockets := sockets w; requests := requests w;
      settled := settled w; toasts := toasts w |}).

Definition generateId : M string :=
  t ← now; r ← random36; mret (pretty t +:+ "-" +:+ r).

Definition toast (t : Toast) : M unit := λ w,
  ((), {| env := env w; ticks := ticks w; draws := draws w; store := store w;
          db := db w; sockets := sockets w; requests := requests w;
          settled := settled w; toasts := toasts w ++ [t] |}).

(** ** The durable store (lib/db) *)

(** The module lib/db is not among the sources.  The specification
    describes it as a key-value layer that maps a session identifier to
    its whole record, written and deleted one record at a time and listed
    in whatever order the store returns. *)

(** Modelled from the spec: [getAllSessions] of lib/db, the list of all
    records in the order of the store. *)
Definition getAllSessions : M (list Session.t) := λ w,
  (snd <$> map_to_list (db w), w).

(** Modelled from the spec: [saveSession] of lib/db, a whole-record
    write under the session's id. *)
Definition saveSession (s : Session.t) : M unit :=
  modify (with_db (insert (Session.id s) s)).

(** Modelled from the spec: [deleteSession] of lib/db, removal by id. *)
Definition deleteSession (id : string) : M unit :=
  modify (with_db (delete id)).

(** Modelled from the spec: [getSession] of lib/db, one record by id,
    if there is one. *)
Definition getSession (id : string) : M (option Session.t) := λ w,
  (db w !! id, w).

(** ** The backend client (lib/api) *)

(** How an awaited backend call ends: it resolves with a value, or it
    rejects with an error payload whose [detail] may be missing. *)
Inductive Settled (A : Type) :=
| resolved (a : A)
| rejected (detail : option string).
Arguments resolved {A} a.
Arguments rejected {A} detail.

(** Modelled from the spec: [api.chat] of lib/api, which is not among
    the sources.  It is one call carrying [{message, session_id, agent}]
    that settles later; issuing it is recorded in [requests]. *)
Definition api_chat (r : ChatRequest.t) : M unit := λ w,
  ((), {| env := env w; ticks := ticks w; draws := draws w; store := store w;
          db := db w; sockets := sockets w; requests := requests w ++ [r];
          settled := settled w; toasts := toasts w |}).

(** Modelled from the spec: [api.createWebSocket] of lib/api, which
    opens a fresh channel addressed by the session id; the new socket
    starts in state [CONNECTING]. *)
Definition api_createWebSocket (sessionId : string) : M WebSocket := λ w,
  (length (sockets w),
   with_sockets (λ l, l ++ [Socket.mk sessionId CONNECTING []]) w).

(** ** WebSocket methods, as the browser implements them *)

Definition readyStateOf (ws : WebSocket) (w : World) : option ReadyState :=
  Socket.readyState <$> sockets w !! ws.

Definition Socket_with_readyState (rs : ReadyState) (s : Socket.t) : Socket.t :=
  Socket.mk (Socket.session s) rs (Socket.sent s).

Definition Socket_push (m : WSMessage.t) (s : Socket.t) : Socket.t :=
  Socket.mk (Socket.session s) (Socket.readyState s) (Socket.sent s ++ [m]).

(** [ws.close()]: starts the closing handshake unless the socket is
    already closing or closed. *)
Definition ws_close (ws : WebSocket) : M unit := λ w,
  match readyStateOf ws w with
  | Some CONNECTING | Some OPEN =>
      ((), with_sockets (alter (Socket_with_readyState CLOSING) ws) w)
  | _ => ((), w)
  end.

(** [ws.send(data)]: throws while the socket is still connecting (the
    result is then [false]); queues the frame on an open socket; drops
    it silently on a closing or closed one. *)
Definition ws_send (ws : WebSocket) (m : WSMessage.t) : M bool := λ w,
  match readyStateOf ws w with
  | Some CONNECTING => (false, w)
  | Some OPEN => (true, with_sockets (alter (Socket_push m) ws) w)
  | _ => (true, w)
  end.

(** ** JavaScript operators used by the store *)

(** [a || b] on an optional string: [undefined] and the empty string are
    falsy. *)
Definition js_or (a : option string) (b : string) : string :=
  match a with
  | Some s => if decide (s = "") then b else s
  | None => b
  end.

Definition js_truthy (a : option string) : bool :=
  match a with
  | Some s => if decide (s = "") then false else true
  | None => false
  end.

(** String conversion of an optional string in [+] and in a template. *)
Definition js_string (a : option string) : string :=
  match a with
  | Some s => s
  | None => "undefined"
  end.

(** ** The store's actions *)

Definition loadSessions (readable : bool) : M unit :=
  set (set_isLoading true);;
  if readable then
    sessions ← getAllSessions;
    set (λ st, set_isLoading false (set_sessions sessions st))
  else
    set (set_isLoading false).

Definition loadAgents (listAgents : Settled (list AgentInfo.t)) : M unit :=
  match listAgents with
  | resolved agents =>
      let selectedAgent :=
        match agents with
        | a :: _ => AgentInfo.name a
        | [] => ""
        end in
      set (λ st, set_selectedAgent selectedAgent (set_agents agents st))
  | rejected _ => skip
  end.

Definition createSession (agent : string) : M Session.t :=
  id ← generateId;
  named ← now;
  createdAt ← now;
  updatedAt ← now;
  e ← (λ w, (env w, w));
  let session :=
    {| Session.id := id;
       Session.name := "Chat " +:+ toLocaleString e named;
       Session.agent := agent;
       Session.messages := [];
       Session.createdAt := createdAt;
       Session.updatedAt := updatedAt |} in
  saveSession session;;
  sessions ← getAllSessions;
  set (λ st, set_currentSession (Some session) (set_sessions sessions st));;
  mret session.

Definition selectSession (id : string) : M unit :=
  session ← getSession id;
  match session with
  | Some session =>
      set (λ st, set_selectedAgent (Session.agent session)
                   (set_currentSession (Some session) st))
  | None => skip
  end.

Definition deleteSessionById (id : string) : M unit :=
  deleteSession id;;
  sessions ← getAllSessions;
  st ← get;
  set (λ st',
    set_currentSession
      (match currentSession st with
       | Some cs => if decide (Session.id cs = id) then None else Some cs
       | None => None
       end)
      (set_sessions sessions st')).

Definition setSelectedAgent (agent : string) : M unit :=
  set (set_selectedAgent agent).

Definition setConnectionMode (mode : ConnectionMode) : M unit :=
  set (set_connectionMode mode).

(** [{ ...currentSession, messages, updatedAt }] *)
Definition Session_updated (cs : Session.t) (messages : list ChatMessage.t)
    (updatedAt : Date) : Session.t :=
  {| Session.id := Session.id cs;
     Session.name := Session.name cs;
     Session.agent := Session.agent cs;
     Session.messages := messages;
     Session.createdAt := Session.createdAt cs;
     Session.updatedAt := updatedAt |}.

(** [sessions.map(s => (s.id === updated.id ? updated : s))] *)
Definition replace_by_id (updated : Session.t) (sessions : list Session.t) : list Session.t :=
  (λ s, if decide (Session.id s = Session.id updated) then updated else s) <$> sessions.

(** [saveSession(updated)] is not awaited; the write is taken to land
    at once. *)
Definition addMessage (message : ChatMessage.t) : M unit :=
  st ← get;
  match currentSession st with
  | None => skip
  | Some cs =>
      updatedAt ← now;
      let updated := Session_updated cs (Session.messages cs ++ [message]) updatedAt in
      saveSession updated;;
      set (λ st', set_sessions (replace_by_id updated (sessions st))
                    (set_currentSession (Some updated) st'))
  end.

(** [{ ...last, content: last.content + content }] *)
Definition ChatMessage_extended (last : ChatMessage.t) (content : option string) : ChatMessage.t :=
  {| ChatMessage.id := ChatMessage.id last;
     ChatMessage.role := ChatMessage.role last;
     ChatMessage.content := ChatMessage.content last +:+ js_string content;
     ChatMessage.timestamp := ChatMessage.timestamp last;
     ChatMessage.agent := ChatMessage.agent last |}.

(** The argument is optional because the frame handler passes
    [data.content], which a frame may omit. *)
Definition updateLastMessage (content : option string) : M unit :=
  st ← get;
  match currentSession st with
  | None => skip
  | Some cs =>
      if decide (length (Session.messages cs) = 0) then skip
      else
        let messages := Session.messages cs in
        match messages !! (length messages - 1) with
        | None => skip
        | Some last =>
            let messages :=
              <[length messages - 1 := ChatMessage_extended last content]> messages in
            updatedAt ← now;
            let updated := Session_updated cs messages updatedAt in
            saveSession updated;;
            set (λ st', set_sessions (replace_by_id updated (sessions st))
                          (set_currentSession (Some updated) st'))
        end
  end.

(** How the synchronous part of a [sendMessage] call ends. *)
Inductive Dispatch :=
| returned   (* the call ran to its end *)
| awaiting   (* suspended at [await api.chat(...)] *)
| threw.     (* [wsConnection.send] threw; the promise rejects *)

Global Instance Dispatch_eq_dec : EqDecision Dispatch.
Proof. solve_decision. Defined.

(** [sendMessage] up to its first suspension point. *)
Definition sendMessage (content : string) : M Dispatch :=
  st ← get;
  match currentSession st with
  | None => mret returned
  | Some cs =>
      id ← generateId;
      timestamp ← now;
      let userMessage :=
        {| ChatMessage.id := id;
           ChatMessage.role := user;
           ChatMessage.content := content;
           ChatMessage.timestamp := timestamp;
           ChatMessage.agent := None |} in
      addMessage userMessage;;
      set (set_isSending true);;
      match connectionMode st, wsConnection st with
      | websocket, Some ws =>
          sent ← ws_send ws {| WSMessage.message := content;
                               WSMessage.agent := Some (selectedAgent st) |};
          if sent : bool then set (set_isSending false);; mret returned
          else mret threw
      | _, _ =>
          api_chat {| ChatRequest.message := content;
                      ChatRequest.session_id := Some (Session.id cs);
                      ChatRequest.agent := Some (selectedAgent st) |};;
          mret awaiting
      end
  end.

(** The rest of [sendMessage], run when the awaited [api.chat] settles. *)
Definition sendMessage_resume (reply : Settled ChatResponse.t) : M unit :=
  match reply with
  | resolved response =>
      id ← generateId;
      timestamp ← now;
      addMessage {| ChatMessage.id := id;
                    ChatMessage.role := assistant;
                    ChatMessage.content := ChatResponse.message response;
                    ChatMessage.timestamp := timestamp;
                    ChatMessage.agent := Some (ChatResponse.agent response) |}
  | rejected detail =>
      let errMsg := js_or detail "Failed to send message" in
      id ← generateId;
      timestamp ← now;
      addMessage {| ChatMessage.id := id;
                    ChatMessage.role := assistant;
                    ChatMessage.content := "Error: " +:+ errMsg;
                    ChatMessage.timestamp := timestamp;
                    ChatMessage.agent := None |}
  end;;
  set (set_isSending false).

(** A whole [sendMessage] call with nothing else running in between. *)
Definition sendMessage_settled (content : string) (reply : Settled ChatResponse.t) : M Dispatch :=
  d ← sendMessage content;
  match d with
  | awaiting => sendMessage_resume reply;; mret returned
  | _ => mret d
  end.

(** The handlers installed on every socket by [connectWebSocket]; they
    refer to the store only, never to the socket they are installed on. *)
Definition onopen : M unit := skip.

Definition onmessage (data : WSChunk.t) : M unit :=
  match WSChunk.type data with
  | chunk => updateLastMessage (WSChunk.content data)
  | complete => set (set_isSending false)
  | error =>
      if js_truthy (WSChunk.error data) then
        id ← generateId;
        timestamp ← now;
        addMessage {| ChatMessage.id := id;
                      ChatMessage.role := assistant;
                      ChatMessage.content := "Error: " +:+ js_string (WSChunk.error data);
                      ChatMessage.timestamp := timestamp;
                      ChatMessage.agent := None |};;
        set (set_isSending false)
      else skip
  end.

Definition onerror : M unit := set (set_isSending false).

Definition onclose : M unit := set (set_wsConnection None).

Definition connectWebSocket : M unit :=
  st ← get;
  match wsConnection st with
  | Some ws => ws_close ws
  | None => skip
  end;;
  match currentSession st with
  | None => skip
  | Some cs =>
      ws ← api_createWebSocket (Session.id cs);
      set (set_wsConnection (Some ws))
  end.

Definition disconnectWebSocket : M unit :=
  st ← get;
  match wsConnection st with
  | Some ws => ws_close ws;; set (set_wsConnection None)
  | None => skip
  end.

(** ** Events the browser delivers to a socket *)

(** The connection is established. *)
Definition ws_opened (ws : WebSocket) : M unit := λ w,
  match readyStateOf ws w with
  | Some CONNECTING =>
      onopen (with_sockets (alter (Socket_with_readyState OPEN) ws) w)
  | _ => ((), w)
  end.

(** A frame arrives; the browser fires [message] on an open socket only. *)
Definition ws_message (ws : WebSocket) (data : WSChunk.t) : M unit := λ w,
  match readyStateOf ws w with
  | Some OPEN => onmessage data w
  | _ => ((), w)
  end.

(** The connection fails. *)
Definition ws_errored (ws : WebSocket) : M unit := λ w,
  match readyStateOf ws w with
  | Some CLOSED | None => ((), w)
  | Some _ => onerror w
  end.

(** The connection is gone. *)
Definition ws_closed (ws : WebSocket) : M unit := λ w,
  match readyStateOf ws w with
  | Some CLOSED | None => ((), w)
  | Some _ => onclose (with_sockets (alter (Socket_with_readyState CLOSED) ws) w)
  end.

(** A pending [api.chat] settles and its [sendMessage] resumes. *)
Definition chat_settles (reply : Settled ChatResponse.t) : M unit := λ w,
  if decide (settled w < length (requests w)) then
    sendMessage_resume reply
      {| env := env w; ticks := ticks w; draws := draws w; store := store w;
         db := db w; sockets := sockets w; requests := requests w;
         settled := S (settled w); toasts := toasts w |}
  else ((), w).

(** ** The presentation hooks that drive the store *)

(** components/chat/chat-input.tsx, the effect on
    [[connectionMode, currentSession?.id]]: its body, run with the values
    of the render that scheduled it. *)
Definition ChatInput_effect : M unit :=
  st ← get;
  match connectionMode st, currentSession st with
  | websocket, Some _ => connectWebSocket
  | _, _ => disconnectWebSocket
  end.

(** Its clean-up, run with the [connectionMode] of the previous render. *)
Definition ChatInput_cleanup (connectionMode : ConnectionMode) : M unit :=
  match connectionMode with
  | websocket => disconnectWebSocket
  | rest => skip
  end.

(** A render after the dependencies were [(mode, id)]: when either has
    changed, the previous clean-up runs and then the effect. *)
Definition ChatInput_rerender (mode : ConnectionMode) (id : option string) : M unit :=
  st ← get;
  if decide (connectionMode st = mode ∧ (Session.id <$> currentSession st) = id)
  then skip
  else ChatInput_cleanup mode;; ChatInput_effect.

(** The sidebar's "New Chat" button ([handleNewChat]). *)
Definition handleNewChat : M unit :=
  st ← get;
  if decide (selectedAgent st = "") then
    toast (toast_error "Please select an agent first")
  else
    createSession (selectedAgent st);;
    toast (toast_success "New chat created").

(** The dependencies of the ChatInput effect as a render of [w] sees them. *)
Definition ChatInput_deps (w : World) : ConnectionMode * option string :=
  (connectionMode (store w), Session.id <$> currentSession (store w)).

(** The render that follows a command issued in [w]: the effect compares
    the dependencies of [w] with those of the world after the command. *)
Definition rendered_after (w : World) (command : M unit) : World :=
  exec (ChatInput_rerender (ChatInput_deps w).1 (ChatInput_deps w).2) (exec command w).

(** ** Runs of the system *)

(** Each event is one turn of the event loop, except that the four
    actions that wait for lib/db ([loadSessions], [createSession],
    [selectSession], [deleteSessionById]) are events run in one piece,
    from the call to the end; module [Async] below has them [await] by
    [await]. *)
Inductive Event :=
| LoadSessions (readable : bool)
| LoadAgents (listAgents : Settled (list AgentInfo.t))
| CreateSession (agent : string)
| SelectSession (id : string)
| DeleteSessionById (id : string)
| SetSelectedAgent (agent : string)
| SetConnectionMode (mode : ConnectionMode)
| SendMessage (content : string)
| ChatSettles (reply : Settled ChatResponse.t)
| ConnectWebSocket
| DisconnectWebSocket
| WsOpened (ws : WebSocket)
| WsMessage (ws : WebSocket) (data : WSChunk.t)
| WsErrored (ws : WebSocket)
| WsClosed (ws : WebSocket).

Definition step (e : Event) : M unit :=
  match e with
  | LoadSessions readable => loadSessions readable
  | LoadAgents r => loadAgents r
  | CreateSession agent => createSession agent;; skip
  | SelectSession id => selectSession id
  | DeleteSessionById id => deleteSessionById id
  | SetSelectedAgent agent => setSelectedAgent agent
  | SetConnectionMode mode => setConnectionMode mode
  | SendMessage content => sendMessage content;; skip
  | ChatSettles reply => chat_settles reply
  | ConnectWebSocket => connectWebSocket
  | DisconnectWebSocket => disconnectWebSocket
  | WsOpened ws => ws_opened ws
  | WsMessage ws data => ws_message ws data
  | WsErrored ws => ws_errored ws
  | WsClosed ws => ws_closed ws
  end.

Fixpoint run (es : list Event) (w : World) : World :=
  match es with
  | [] => w
  | e :: es => run es (exec (step e) w)
  end.

(** The events of a conversation: [sendMessage] calls, their
    settlements, and what the channel's handlers receive. *)
Definition conversational (e : Event) : bool :=
  match e with
  | SendMessage _ | ChatSettles _
  | WsOpened _ | WsMessage _ _ | WsErrored _ | WsClosed _ => true
  | _ => false
  end.

(** ** Vocabulary of the properties *)

Definition currentMessages (w : World) : list ChatMessage.t :=
  match currentSession (store w) with
  | Some cs => Session.messages cs
  | None => []
  end.

(** Roles and contents of the selected session's messages. *)
Definition transcript (w : World) : list (Role * string) :=
  (λ m, (ChatMessage.role m, ChatMessage.content m)) <$> currentMessages w.

(** [m] with [suffix] appended to its content. *)
Definition grown (suffix : string) (m : ChatMessage.t) : ChatMessage.t :=
  ChatMessage_extended m (Some suffix).

(** The list with the content of its final element grown by [suffix]. *)
Fixpoint grow_last (suffix : string) (l : list ChatMessage.t) : list ChatMessage.t :=
  match l with
  | [] => []
  | [m] => [grown suffix m]
  | m :: l => m :: grow_last suffix l
  end.

(** [new] is [old] with the content of the final element of [old]
    possibly grown, followed by further elements. *)
Definition extends (old new : list ChatMessage.t) : Prop :=
  ∃ suffix more, new = grow_last suffix old ++ more.

(** From [w] to [w'] the selected session [cs] stayed selected and its
    message list was only extended; if its durable record agreed with it
    before, it agrees with it after. *)
Definition advances (cs : Session.t) (w w' : World) : Prop :=
  ∃ cs', currentSession (store w') = Some cs' ∧
    Session.id cs' = Session.id cs ∧
    extends (Session.messages cs) (Session.messages cs') ∧
    (db w !! Session.id cs = Some cs → db w' !! Session.id cs = Some cs').

(** The fields of a session that a message mutation must not touch. *)
Definition same_identity (cs cs' : Session.t) : Prop :=
  Session.id cs' = Session.id cs ∧
  Session.name cs' = Session.name cs ∧
  Session.agent cs' = Session.agent cs ∧
  Session.createdAt cs' = Session.createdAt cs.

(** The store's fields other than the session list and the selection. *)
Definition same_controls (st st' : SessionState) : Prop :=
  agents st' = agents st ∧
  selectedAgent st' = selectedAgent st ∧
  isLoading st' = isLoading st ∧
  isSending st' = isSending st ∧
  connectionMode st' = connectionMode st ∧
  wsConnection st' = wsConnection st.

(** What [addMessage] and [updateLastMessage] may change: the selected
    session [cs] becomes [cs'], the list entries carrying its id become
    [cs'] too, and so does its durable record. *)
Definition touches_only (cs cs' : Session.t) (w w' : World) : Prop :=
  currentSession (store w') = Some cs' ∧
  same_identity cs cs' ∧
  same_controls (store w) (store w') ∧
  length (sessions (store w')) = length (sessions (store w)) ∧
  (∀ i s, sessions (store w) !! i = Some s → Session.id s ≠ Session.id cs →
     sessions (store w') !! i = Some s) ∧
  (∀ i s, sessions (store w) !! i = Some s → Session.id s = Session.id cs →
     sessions (store w') !! i = Some cs') ∧
  db w' !! Session.id cs = Some cs' ∧
  (∀ id, id ≠ Session.id cs → db w' !! id = db w !! id) ∧
  sockets w' = sockets w ∧
  requests w' = requests w.

(** A socket on which frames can still arrive or be sent. *)
Definition alive (ws : WebSocket) (w : World) : bool :=
  match readyStateOf ws w with
  | Some CONNECTING | Some OPEN => true
  | _ => false
  end.

Definition boundTo (ws : WebSocket) (w : World) : option string :=
  Socket.session <$> sockets w !! ws.

(** The held handle names a socket that exists. *)
Definition handle_valid (w : World) : Prop :=
  ∀ ws, wsConnection (store w) = Some ws → ws < length (sockets w).

(** The held channel, while alive, belongs to the selected session. *)
Definition channel_follows_selection (w : World) : Prop :=
  ∀ ws, wsConnection (store w) = Some ws → alive ws w = true →
    boundTo ws w = Session.id <$> currentSession (store w).

(** The channel [ws] is down: frames can no longer arrive on it, and
    delivering one changes nothing. *)
Definition channel_torn_down (ws : WebSocket) (w : World) : Prop :=
  alive ws w = false ∧ ∀ data, exec (ws_message ws data) w = w.


(** A call of [createSession] that was turned down before any effect. *)
Definition create_rejected (agent : string) (w : World) : Prop :=
  db (exec (createSession agent) w) = db w ∧
  sessions (store (exec (createSession agent) w)) = sessions (store w) ∧
  currentSession (store (exec (createSession agent) w)) = currentSession (store w).

(** ** Concrete runs *)

Definition env0 : Env :=
  {| clock := λ n, 1000 + n;
     entropy := λ n, "r" +:+ pretty n;
     toLocaleString := pretty |}.

Definition agentX : AgentInfo.t :=
  {| AgentInfo.name := "agentX"; AgentInfo.description := "";
     AgentInfo.capabilities := []; AgentInfo.status := "active" |}.

Definition agentY : AgentInfo.t :=
  {| AgentInfo.name := "agentY"; AgentInfo.description := "";
     AgentInfo.capabilities := []; AgentInfo.status := "active" |}.

Definition frame_chunk (content : string) : WSChunk.t :=
  {| WSChunk.type := chunk; WSChunk.content := Some content;
     WSChunk.agent := None; WSChunk.error := None |}.

Definition frame_complete : WSChunk.t :=
  {| WSChunk.type := complete; WSChunk.content := None;
     WSChunk.agent := None; WSChunk.error := None |}.

Definition reply_hello : ChatResponse.t :=
  {| ChatResponse.message := "hello"; ChatResponse.agent := "agentX";
     ChatResponse.session_id := "s"; ChatResponse.timestamp := "t" |}.

(** A session created for agentX and selected, Request Mode. *)
Definition w_session : World :=
  run [LoadAgents (resolved [agentX; agentY]); CreateSession "agentX"]
      (initialWorld env0).

(** The same with Stream Mode switched on and its channel open: the
    toggle, the effect it schedules, and the browser's [open] event. *)
Definition w_streaming : World :=
  run [WsOpened 0] (rendered_after w_session (setConnectionMode websocket)).

(** Stream Mode selected but no channel held: the channel was closed by
    the peer. *)
Definition w_stream_no_channel : World :=
  run [WsClosed 0] w_streaming.

(** Request Mode with one send still awaiting its reply. *)
Definition w_pending : World :=
  run [SendMessage "first"] w_session.

(** One streamed turn: the user sends "hi", the reply arrives as two
    chunks and a completion frame. *)
Definition stream_turn : list Event :=
  [SendMessage "hi";
   WsMessage 0 (frame_chunk "He");
   WsMessage 0 (frame_chunk "llo");
   WsMessage 0 frame_complete].

(** Stream Mode, channel open, "hi" sent and no frame received yet. *)
Definition w_streamed : World :=
  run [SendMessage "hi"] w_streaming.

(** Two sessions, the second one selected, Stream Mode on and the
    channel of the second session open. *)
Definition w_two_sessions : World :=
  run [WsOpened 0]
    (rendered_after
       (run [LoadAgents (resolved [agentX; agentY]);
             CreateSession "agentX"; CreateSession "agentY"]
            (initialWorld env0))
       (setConnectionMode websocket)).

(** The first session selected again, its channel open, and then the
    [close] event of the channel that the switch had closed. *)
Definition w_switched_back : World :=
  run [WsOpened 1; WsClosed 0]
    (rendered_after w_two_sessions (selectSession "1000-r0")).

(** The session selected in a world of the runs above. *)
Definition selected (w : World) : Session.t :=
  default (Session.mk "" "" "" [] 0 0) (currentSession (store w)).

(** The proofs below unfold an action down to its state transformer. *)
Ltac run_action :=
  unfold exec, eval, skip, set, modify, get, mbind, M_bind, mret, M_ret; simpl.

(** ** More of the presentation layer *)

(** components/chat/chat-input.tsx, [toggleConnectionMode]: the switch
    flips the mode and announces the new one in upper case. *)
Definition toggleConnectionMode : M unit :=
  st ← get;
  let newMode :=
    match connectionMode st with
    | rest => websocket
    | websocket => rest
    end in
  setConnectionMode newMode;;
  toast (toast_success
           ("Switched to " +:+
            match newMode with rest => "REST" | websocket => "WEBSOCKET" end +:+
            " mode")).

(** components/chat/chat-input.tsx, [handleSubmit], for a send that
    settles with [reply] before anything else happens.  [trim] stands for
    [String.prototype.trim]; the result is the text left in the input
    box, which is cleared only when [sendMessage] has come back. *)
Definition handleSubmit (trim : string → string) (message : string)
    (reply : Settled ChatResponse.t) : M string :=
  st ← get;
  if decide (trim message = "") then mret message
  else
    go ← match currentSession st with
         | Some _ => mret true
         | None =>
             if decide (selectedAgent st = "") then
               toast (toast_error "Please select an agent first");; mret false
             else
               createSession (selectedAgent st);; mret true
         end;
    if go : bool then
      d ← sendMessage_settled (trim message) reply;
      match d with
      | threw => mret message
      | _ => mret ""
      end
    else mret message.

(** The sidebar's delete button ([handleDeleteSession]). *)
Definition handleDeleteSession (id : string) : M unit :=
  deleteSessionById id;;
  toast (toast_success "Chat deleted").

(** ** Vocabulary of the store's invariants *)

(** Every durable record is filed under its own id. *)
Definition db_keyed (w : World) : Prop :=
  ∀ k s, db w !! k = Some s → Session.id s = k.

(** The selected session is what the durable store holds for its id. *)
Definition selection_persisted (w : World) : Prop :=
  ∀ cs, currentSession (store w) = Some cs → db w !! Session.id cs = Some cs.

(** Every session of the in-memory list is what the durable store holds
    for its id. *)
Definition list_from_db (w : World) : Prop :=
  ∀ s, s ∈ sessions (store w) → db w !! Session.id s = Some s.

Definition store_consistent (w : World) : Prop :=
  db_keyed w ∧ selection_persisted w ∧ list_from_db w.

(** An action keeps a property of the world. *)
Definition preserves {A} (I : World → Prop) (m : M A) : Prop :=
  ∀ w, I w → I (exec m w).

(** A property that looks only at the environment, the sessions (listed,
    selected, stored) and at how far the clock has run, and that survives
    the clock running on. *)
Definition about_sessions (I : World → Prop) : Prop :=
  ∀ w w', env w' = env w → (ticks w ≤ ticks w')%nat → db w' = db w →
    sessions (store w') = sessions (store w) →
    currentSession (store w') = currentSession (store w) →
    I w → I w'.

(** With [idc] selected, nothing that belongs to another session has
    changed since [w0]: neither its durable record nor its list entry. *)
Definition others_kept (w0 : World) (idc : string) (w : World) : Prop :=
  Session.id <$> currentSession (store w) = Some idc ∧
  (∀ id, id ≠ idc → db w !! id = db w0 !! id) ∧
  (∀ i s, sessions (store w0) !! i = Some s → Session.id s ≠ idc →
     sessions (store w) !! i = Some s).

(** With nothing selected, no session has changed since [w0]. *)
Definition nothing_selected_as (w0 w : World) : Prop :=
  currentSession (store w) = None ∧ db w = db w0 ∧
  sessions (store w) = sessions (store w0).

(** The clock never runs backwards. *)
Definition clock_monotone (e : Env) : Prop :=
  ∀ n, (clock e n ≤ clock e (S n))%nat.

(** In environment [e] a session is selected that was created at [c0],
    was last updated no earlier than [u0] and no later than the clock's
    next reading. *)
Definition stamped_since (e : Env) (u0 c0 : Date) (w : World) : Prop :=
  env w = e ∧
  ∃ cs, currentSession (store w) = Some cs ∧
    (u0 ≤ Session.updatedAt cs)%nat ∧
    (Session.updatedAt cs ≤ clock e (ticks w))%nat ∧
    Session.createdAt cs = c0.

(** * The authentication store (frontend/src/stores/auth-store.ts)

    The store keeps the signed-in user and the access token, and mirrors
    the token in the browser's [localStorage] under the key
    "access_token".  The backend calls it awaits ([api.login], [api.getMe],
    [api.logout], [api.refreshToken], of lib/api, which is not among the
    sources) are recorded in a log, and the way each of them settles is
    an argument of the action that awaits it.  A call is taken to leave
    the store and the storage as they are: whatever is written is
    written by the store's own actions.  The actions of this module are
    calls run from start to end with nothing in between; module
    [AuthAsync] below cuts them at their [await]s. *)

Module AuthStore.

Module UserInfo.
Record t := mk {
  user_id : string;
  username : string;
  tenant_id : string;
  permissions : list string
}.
End UserInfo.

Module TokenResponse.
Record t := mk {
  access_token : string;
  token_type : string;
  expires_in : nat;
  tenant_id : string
}.
End TokenResponse.

(** [interface AuthState], data fields. *)
Record AuthState := mkAuthState {
  user : option UserInfo.t;
  token : option string;
  isAuthenticated : bool;
  isLoading : bool;
  error : option string
}.

Inductive ApiCall :=
| api_login (username password : string) (tenantId : option string)
| api_getMe
| api_logout
| api_refreshToken.

Record World := mkWorld {
  state : AuthState;
  localStorage : gmap string string;
  calls : list ApiCall
}.

(** The state given to [create<AuthState>] in a browser whose storage is
    [storage]. *)
Definition initialState (storage : gmap string string) : AuthState :=
  {| user := None;
     token := storage !! "access_token";
     isAuthenticated := false;
     isLoading := true;
     error := None |}.

Definition initialWorld (storage : gmap string string) : World :=
  {| state := initialState storage; localStorage := storage; calls := [] |}.

Definition M (A : Type) : Type := World → A * World.

#[export] Instance M_ret : MRet M := λ A a w, (a, w).
#[export] Instance M_bind : MBind M := λ A B f m w, let '(a, w') := m w in f a w'.

Definition exec {A} (m : M A) (w : World) : World := snd (m w).
Definition eval {A} (m : M A) (w : World) : A := fst (m w).

Definition set (f : AuthState → AuthState) : M unit := λ w,
  ((), {| state := f (state w); localStorage := localStorage w; calls := calls w |}).

Definition getItem (key : string) : M (option string) := λ w,
  (localStorage w !! key, w).

Definition setItem (key value : string) : M unit := λ w,
  ((), {| state := state w; localStorage := <[key := value]> (localStorage w);
          calls := calls w |}).

Definition removeItem (key : string) : M unit := λ w,
  ((), {| state := state w; localStorage := delete key (localStorage w);
          calls := calls w |}).

(** Modelled from the spec: a request of lib/api, which is not among
    the sources; issuing it is recorded in [calls]. *)
Definition call (c : ApiCall) : M unit := λ w,
  ((), {| state := state w; localStorage := localStorage w; calls := calls w ++ [c] |}).

(** The [catch] branch of [login]. *)
Definition login_failed (detail : option string) : M bool :=
  let message := js_or detail "Login failed" in
  set (λ st, {| user := user st; token := token st;
                isAuthenticated := isAuthenticated st;
                isLoading := false; error := Some message |});;
  mret false.

Definition login (username password : string) (tenantId : option string)
    (r_login : Settled TokenResponse.t) (r_getMe : Settled UserInfo.t) : M bool :=
  set (λ st, {| user := user st; token := token st;
                isAuthenticated := isAuthenticated st;
                isLoading := true; error := None |});;
  call (api_login username password tenantId);;
  match r_login with
  | resolved response =>
      setItem "access_token" (TokenResponse.access_token response);;
      set (λ st, {| user := user st;
                    token := Some (TokenResponse.access_token response);
                    isAuthenticated := isAuthenticated st;
                    isLoading := isLoading st; error := error st |});;
      call api_getMe;;
      match r_getMe with
      | resolved u =>
          set (λ st, {| user := Some u; token := token st;
                        isAuthenticated := true;
                        isLoading := false; error := error st |});;
          mret true
      | rejected detail => login_failed detail
      end
  | rejected detail => login_failed detail
  end.

Definition logout (r_logout : Settled unit) : M unit :=
  call api_logout;;
  removeItem "access_token";;
  set (λ st, {| user := None; token := None; isAuthenticated := false;
                isLoading := isLoading st; error := None |}).

Definition refreshToken (r_refresh : Settled TokenResponse.t)
    (r_logout : Settled unit) : M bool :=
  call api_refreshToken;;
  match r_refresh with
  | resolved response =>
      setItem "access_token" (TokenResponse.access_token response);;
      set (λ st, {| user := user st;
                    token := Some (TokenResponse.access_token response);
                    isAuthenticated := isAuthenticated st;
                    isLoading := isLoading st; error := error st |});;
      mret true
  | rejected _ =>
      logout r_logout;;
      mret false
  end.

Definition loadUser (r_getMe : Settled UserInfo.t) : M unit :=
  stored ← getItem "access_token";
  if js_truthy stored then
    call api_getMe;;
    match r_getMe with
    | resolved u =>
        set (λ st, {| user := Some u; token := stored;
                      isAuthenticated := true;
                      isLoading := false; error := error st |})
    | rejected _ =>
        removeItem "access_token";;
        set (λ st, {| user := None; token := None; isAuthenticated := false;
                      isLoading := false; error := error st |})
    end
  else
    set (λ st, {| user := user st; token := token st;
                  isAuthenticated := false;
                  isLoading := false; error := error st |}).

Definition clearError : M unit :=
  set (λ st, {| user := user st; token := token st;
                isAuthenticated := isAuthenticated st;
                isLoading := isLoading st; error := None |}).

Inductive Event :=
| Login (username password : string) (tenantId : option string)
    (r_login : Settled TokenResponse.t) (r_getMe : Settled UserInfo.t)
| Logout (r_logout : Settled unit)
| RefreshToken (r_refresh : Settled TokenResponse.t) (r_logout : Settled unit)
| LoadUser (r_getMe : Settled UserInfo.t)
| ClearError.

Definition step (e : Event) : M unit :=
  match e with
  | Login username password tenantId r_login r_getMe =>
      login username password tenantId r_login r_getMe;; mret ()
  | Logout r_logout => logout r_logout
  | RefreshToken r_refresh r_logout => refreshToken r_refresh r_logout;; mret ()
  | LoadUser r_getMe => loadUser r_getMe
  | ClearError => clearError
  end.

Fixpoint run (es : list Event) (w : World) : World :=
  match es with
  | [] => w
  | e :: es => run es (exec (step e) w)
  end.

(** The token the store holds, when it holds one, is the one in
    [localStorage]; and a signed-in store has a user and a token. *)
Definition coherent (w : World) : Prop :=
  (token (state w) ≠ None → token (state w) = localStorage w !! "access_token") ∧
  (isAuthenticated (state w) = true →
     is_Some (user (state w)) ∧ is_Some (token (state w))).

(** Signed out, with no token left anywhere. *)
Definition signed_out (w : World) : Prop :=
  user (state w) = None ∧ token (state w) = None ∧
  isAuthenticated (state w) = false ∧ error (state w) = None ∧
  localStorage w !! "access_token" = None.

Definition alice : UserInfo.t :=
  {| UserInfo.user_id := "u1"; UserInfo.username := "alice";
     UserInfo.tenant_id := "t1"; UserInfo.permissions := ["chat"] |}.

Definition token_of (access_token : string) : TokenResponse.t :=
  {| TokenResponse.access_token := access_token;
     TokenResponse.token_type := "bearer";
     TokenResponse.expires_in := 3600;
     TokenResponse.tenant_id := "t1" |}.

End AuthStore.

(** ** Vocabulary of the append-only property *)

(** The fragment that event [e] delivers in [w]: a [chunk] frame that
    arrives on an open socket carries one, and nothing else does. *)
Definition fragment_of (e : Event) (w : World) : option string :=
  match e with
  | WsMessage ws data =>
      match readyStateOf ws w, WSChunk.type data with
      | Some OPEN, chunk => Some (js_string (WSChunk.content data))
      | _, _ => None
      end
  | _ => None
  end.

(** What event [e] may do to the messages of the selected session on the
    way from [w] to [w']: a delivered fragment is concatenated onto the
    content of the final element, and anything else leaves the list as it
    is or appends to it. *)
Definition grows_on_a_fragment_only (e : Event) (w w' : World) : Prop :=
  match fragment_of e w with
  | Some fragment => currentMessages w' = grow_last fragment (currentMessages w)
  | None => currentMessages w `prefix_of` currentMessages w'
  end.

(** [P] holds of every step of the run of [es] from [w]. *)
Fixpoint at_each_step (P : Event → World → World → Prop) (es : list Event) (w : World)
    : Prop :=
  match es with
  | [] => True
  | e :: es => P e w (exec (step e) w) ∧ at_each_step P es (exec (step e) w)
  end.

(** The append-only property as the specification words it, from [w] to
    [w']: the list is a prefix-extension of its previous value, except
    that the content of the final element may have grown by
    concatenation while streaming, that is, with Stream Mode the
    transport in force. *)
Definition append_only_while_streaming (w w' : World) : Prop :=
  currentMessages w `prefix_of` currentMessages w' ∨
  (connectionMode (store w) = websocket ∧
   extends (currentMessages w) (currentMessages w')).

(** Stream Mode switched off at the store while the channel of
    [w_streamed] is open: the toggle has happened, the render that
    follows it has not. *)
Definition w_toggled : World :=
  run [SetConnectionMode rest] w_streamed.

(** * The session store, await by await

    [loadSessions], [createSession], [selectSession] and
    [deleteSessionById] wait for lib/db, and at each [await] the call is
    suspended and anything else may run before it resumes.  Here each of
    them is cut at its [await]s: the part that runs when it is called,
    and the continuations.  What a continuation uses of the locals of
    its call, and the outcome of the operation it awaited, is kept with
    the suspended call. *)

Module Async.

(** Modelled from the spec: an operation of lib/db takes effect when it
    is issued, or it fails and changes nothing ([ok] says which); the
    call that awaits it resumes in a later turn, with the result or with
    the rejection ([None]). *)
Definition attempt {A} (ok : bool) (operation : M A) : M (option A) :=
  if ok then a ← operation; mret (Some a) else mret None.

(** A suspended call: the [await] it stands at, its locals, and what the
    awaited operation has settled to. *)
Inductive Suspended :=
| loadSessions_awaits_getAllSessions (sessions : option (list Session.t))
| createSession_awaits_saveSession (session : Session.t) (saved : option unit)
| createSession_awaits_getAllSessions (session : Session.t)
    (sessions : option (list Session.t))
| selectSession_awaits_getSession (session : option (option Session.t))
| deleteSessionById_awaits_deleteSession (id : string) (deleted : option unit)
| deleteSessionById_awaits_getAllSessions (id : string)
    (sessions : option (list Session.t)).

Record State := mkState {
  world : World;
  suspended : list Suspended
}.

(** No call under way. *)
Definition idle (w : World) : State := {| world := w; suspended := [] |}.

(** [loadSessions], lines 46-48. *)
Definition loadSessions_called (ok : bool) : M (option Suspended) :=
  set (set_isLoading true);;
  sessions ← attempt ok getAllSessions;
  mret (Some (loadSessions_awaits_getAllSessions sessions)).

(** [loadSessions], line 49, or the [catch] of lines 50-53. *)
Definition loadSessions_resumed (sessions : option (list Session.t)) : M (option Suspended) :=
  match sessions with
  | Some sessions => set (λ st, set_isLoading false (set_sessions sessions st))
  | None => set (set_isLoading false)
  end;;
  mret None.

(** [createSession], lines 67-75. *)
Definition createSession_called (agent : string) (ok : bool) : M (option Suspended) :=
  id ← generateId;
  named ← now;
  createdAt ← now;
  updatedAt ← now;
  e ← (λ w, (env w, w));
  let session :=
    {| Session.id := id;
       Session.name := "Chat " +:+ toLocaleString e named;
       Session.agent := agent;
       Session.messages := [];
       Session.createdAt := createdAt;
       Session.updatedAt := updatedAt |} in
  saved ← attempt ok (saveSession session);
  mret (Some (createSession_awaits_saveSession session saved)).

(** [createSession], line 76; a rejected [saveSession] ends the call. *)
Definition createSession_saved (session : Session.t) (saved : option unit) (ok : bool)
    : M (option Suspended) :=
  match saved with
  | Some _ =>
      sessions ← attempt ok getAllSessions;
      mret (Some (createSession_awaits_getAllSessions session sessions))
  | None => mret None
  end.

(** [createSession], lines 77-78; a rejected [getAllSessions] ends the
    call. *)
Definition createSession_listed (session : Session.t) (sessions : option (list Session.t))
    : M (option Suspended) :=
  match sessions with
  | Some sessions =>
      set (λ st, set_currentSession (Some session) (set_sessions sessions st));;
      mret None
  | None => mret None
  end.

(** [selectSession], line 82. *)
Definition selectSession_called (id : string) (ok : bool) : M (option Suspended) :=
  session ← attempt ok (getSession id);
  mret (Some (selectSession_awaits_getSession session)).

(** [selectSession], lines 83-85. *)
Definition selectSession_resumed (session : option (option Session.t))
    : M (option Suspended) :=
  match session with
  | Some (Some session) =>
      set (λ st, set_selectedAgent (Session.agent session)
                   (set_currentSession (Some session) st))
  | _ => skip
  end;;
  mret None.

(** [deleteSessionById], line 89. *)
Definition deleteSessionById_called (id : string) (ok : bool) : M (option Suspended) :=
  deleted ← attempt ok (deleteSession id);
  mret (Some (deleteSessionById_awaits_deleteSession id deleted)).

(** [deleteSessionById], line 90. *)
Definition deleteSessionById_deleted (id : string) (deleted : option unit) (ok : bool)
    : M (option Suspended) :=
  match deleted with
  | Some _ =>
      sessions ← attempt ok getAllSessions;
      mret (Some (deleteSessionById_awaits_getAllSessions id sessions))
  | None => mret None
  end.

(** [deleteSessionById], lines 91-95: the selection is read after the
    [await]. *)
Definition deleteSessionById_listed (id : string) (sessions : option (list Session.t))
    : M (option Suspended) :=
  match sessions with
  | Some sessions =>
      st ← get;
      set (λ st',
        set_currentSession
          (match currentSession st with
           | Some cs => if decide (Session.id cs = id) then None else Some cs
           | None => None
           end)
          (set_sessions sessions st'));;
      mret None
  | None => mret None
  end.

(** The four actions that wait for lib/db. *)
Inductive Call :=
| call_loadSessions
| call_createSession (agent : string)
| call_selectSession (id : string)
| call_deleteSessionById (id : string).

(** What a call does when it is made; [ok] is the outcome of the
    operation it issues. *)
Definition called (c : Call) (ok : bool) : M (option Suspended) :=
  match c with
  | call_loadSessions => loadSessions_called ok
  | call_createSession agent => createSession_called agent ok
  | call_selectSession id => selectSession_called id ok
  | call_deleteSessionById id => deleteSessionById_called id ok
  end.

(** What a suspended call does when it resumes; [ok] is the outcome of
    the operation it issues next, if it issues one. *)
Definition resumed (k : Suspended) (ok : bool) : M (option Suspended) :=
  match k with
  | loadSessions_awaits_getAllSessions sessions => loadSessions_resumed sessions
  | createSession_awaits_saveSession session saved => createSession_saved session saved ok
  | createSession_awaits_getAllSessions session sessions =>
      createSession_listed session sessions
  | selectSession_awaits_getSession session => selectSession_resumed session
  | deleteSessionById_awaits_deleteSession id deleted =>
      deleteSessionById_deleted id deleted ok
  | deleteSessionById_awaits_getAllSessions id sessions =>
      deleteSessionById_listed id sessions
  end.

(** The events of [Event] that stand for one of the four actions run in
    one piece. *)
Definition waits_for_db (e : Event) : bool :=
  match e with
  | LoadSessions _ | CreateSession _ | SelectSession _ | DeleteSessionById _ => true
  | _ => false
  end.

(** [m] when the [saveSession] that it issues without awaiting is
    rejected: the record is not written, and nothing waits for the
    outcome. *)
Definition unsaved (m : M unit) : M unit := λ w,
  let '(a, w') := m w in (a, with_db (λ _, db w) w').

(** One turn of the event loop: one of the four actions is called, a
    suspended call resumes, or something happens that does not wait for
    lib/db (an event of [Event] other than the four actions; [saved]
    says whether the [saveSession] it may issue succeeds). *)
Inductive Turn :=
| Calls (c : Call) (ok : bool)
| Resumes (i : nat) (ok : bool)
| Happens (e : Event) (saved : bool).

Definition turn (t : Turn) (s : State) : State :=
  match t with
  | Calls c ok =>
      {| world := exec (called c ok) (world s);
         suspended := suspended s ++ option_list (eval (called c ok) (world s)) |}
  | Resumes i ok =>
      match suspended s !! i with
      | Some k =>
          {| world := exec (resumed k ok) (world s);
             suspended := delete i (suspended s)
                            ++ option_list (eval (resumed k ok) (world s)) |}
      | None => s
      end
  | Happens e saved =>
      if waits_for_db e then s
      else {| world := exec (if saved then step e else unsaved (step e)) (world s);
              suspended := suspended s |}
  end.

Fixpoint turns (ts : list Turn) (s : State) : State :=
  match ts with
  | [] => s
  | t :: ts => turns ts (turn t s)
  end.

(** Every operation of lib/db issued in this turn succeeds. *)
Definition succeeds (t : Turn) : bool :=
  match t with
  | Calls _ ok | Resumes _ ok => ok
  | Happens _ saved => saved
  end.

(** Events that read and write neither the durable store nor the list
    nor the selection. *)
Definition quiet (e : Event) : bool :=
  match e with
  | LoadAgents _ | SetSelectedAgent _ | SetConnectionMode _
  | ConnectWebSocket | DisconnectWebSocket
  | WsOpened _ | WsErrored _ | WsClosed _ => true
  | WsMessage _ data => bool_decide (WSChunk.type data = complete)
  | _ => false
  end.

(** What may run while a call is suspended without getting in its way:
    the call resumes, or a quiet event happens. *)
Definition leaves_call_alone (t : Turn) : bool :=
  match t with
  | Resumes _ _ => true
  | Happens e _ => quiet e
  | Calls _ _ => false
  end.

(** Each command completes before the next one starts: while a call is
    suspended, nothing runs but its own continuations and quiet events. *)
Fixpoint undisturbed (ts : list Turn) (s : State) : Prop :=
  match ts with
  | [] => True
  | t :: ts =>
      (suspended s = [] ∨ leaves_call_alone t = true) ∧ undisturbed ts (turn t s)
  end.

(** The turns of an action called from an idle store and run to its end
    with nothing in between, every operation succeeding. *)
Definition alone (c : Call) : list Turn :=
  match c with
  | call_loadSessions | call_selectSession _ => [Calls c true; Resumes 0 true]
  | call_createSession _ | call_deleteSessionById _ =>
      [Calls c true; Resumes 0 true; Resumes 0 true]
  end.

(** The same action as one event. *)
Definition in_one_piece (c : Call) : Event :=
  match c with
  | call_loadSessions => LoadSessions true
  | call_createSession agent => CreateSession agent
  | call_selectSession id => SelectSession id
  | call_deleteSessionById id => DeleteSessionById id
  end.

(** The durable store has lost [id], and the store's selection, unless it
    is the session [id], is still what the durable store holds. *)
Definition deleting (id : string) (w : World) : Prop :=
  db_keyed w ∧ db w !! id = None ∧
  ∀ cs, currentSession (store w) = Some cs → Session.id cs ≠ id →
    db w !! Session.id cs = Some cs.

(** What holds of the world while call [k] is suspended and undisturbed,
    its operations having succeeded. *)
Definition midway (k : Suspended) (w : World) : Prop :=
  match k with
  | loadSessions_awaits_getAllSessions sessions =>
      store_consistent w ∧ sessions = Some (snd <$> map_to_list (db w))
  | createSession_awaits_saveSession session saved =>
      db_keyed w ∧ db w !! Session.id session = Some session ∧ saved = Some ()
  | createSession_awaits_getAllSessions session sessions =>
      db_keyed w ∧ db w !! Session.id session = Some session ∧
      sessions = Some (snd <$> map_to_list (db w))
  | selectSession_awaits_getSession session =>
      store_consistent w ∧ ∃ id, session = Some (db w !! id)
  | deleteSessionById_awaits_deleteSession id deleted =>
      deleting id w ∧ deleted = Some ()
  | deleteSessionById_awaits_getAllSessions id sessions =>
      deleting id w ∧ sessions = Some (snd <$> map_to_list (db w))
  end.

(** With no call suspended the store is consistent; with one, it is
    midway through that call. *)
Definition in_step (s : State) : Prop :=
  match suspended s with
  | [] => store_consistent (world s)
  | [k] => midway k (world s)
  | _ => False
  end.

(** A run in which the commands complete one after the other, with
    quiet events in between the turns of the first. *)
Definition commands_in_turn : list Turn :=
  [Calls (call_createSession "agentX") true;
   Happens (SetConnectionMode websocket) true; Resumes 0 true;
   Happens (LoadAgents (resolved [agentX])) true; Resumes 0 true;
   Happens (SendMessage "hi") true;
   Happens (ChatSettles (resolved reply_hello)) true;
   Calls (call_selectSession "1000-r0") true; Resumes 0 true;
   Calls call_loadSessions true; Resumes 0 true].

End Async.

(** * The authentication store, await by await

    Every [await] of auth-store.ts is a point where the call is suspended
    and any other call or answer may run before it resumes.  Here each
    action is cut at its [await]s: the part that runs when it is called,
    and the continuations, which receive the backend's answer.  What a
    continuation uses of the locals of its call is kept with the
    suspended call. *)

Module AuthAsync.
Import AuthStore.

(** A suspended call: the [await] it stands at, with its locals. *)
Inductive Suspended :=
| login_awaits_login                          (* [await api.login(...)] *)
| login_awaits_getMe                          (* [await api.getMe()] in [login] *)
| logout_awaits_logout                        (* [await api.logout()] *)
| refreshToken_awaits_refreshToken            (* [await api.refreshToken()] *)
| loadUser_awaits_getMe (token : option string).
                                              (* [await api.getMe()] in [loadUser] *)

(** What the backend answers to a request. *)
Inductive Answer :=
| token_answer (r : Settled TokenResponse.t)
| user_answer (r : Settled UserInfo.t)
| unit_answer (r : Settled unit).

Record State := mkState {
  world : World;
  suspended : list Suspended
}.

(** The store just created, nothing called yet. *)
Definition idle (w : World) : State := {| world := w; suspended := [] |}.

(** [login], lines 28-30: up to [await api.login(...)]. *)
Definition login_called (username password : string) (tenantId : option string)
    : M (option Suspended) :=
  set (λ st, {| user := user st; token := token st;
                isAuthenticated := isAuthenticated st;
                isLoading := true; error := None |});;
  call (api_login username password tenantId);;
  mret (Some login_awaits_login).

(** [login], lines 30-35 and the [catch]: from the answer of
    [api.login] up to [await api.getMe()]. *)
Definition login_after_login (r : Settled TokenResponse.t) : M (option Suspended) :=
  match r with
  | resolved response =>
      setItem "access_token" (TokenResponse.access_token response);;
      set (λ st, {| user := user st;
                    token := Some (TokenResponse.access_token response);
                    isAuthenticated := isAuthenticated st;
                    isLoading := isLoading st; error := error st |});;
      call api_getMe;;
      mret (Some login_awaits_getMe)
  | rejected detail => login_failed detail;; mret None
  end.

(** [login], lines 35-37 and the [catch]: from the answer of
    [api.getMe] to the end. *)
Definition login_after_getMe (r : Settled UserInfo.t) : M (option Suspended) :=
  match r with
  | resolved u =>
      set (λ st, {| user := Some u; token := token st;
                    isAuthenticated := true;
                    isLoading := false; error := error st |});;
      mret None
  | rejected detail => login_failed detail;; mret None
  end.

(** [logout], line 47. *)
Definition logout_called : M (option Suspended) :=
  call api_logout;; mret (Some logout_awaits_logout).

(** [logout], lines 48-52: whatever [api.logout] answered. *)
Definition logout_after_logout (r : Settled unit) : M (option Suspended) :=
  removeItem "access_token";;
  set (λ st, {| user := None; token := None; isAuthenticated := false;
                isLoading := isLoading st; error := None |});;
  mret None.

(** [refreshToken], line 57. *)
Definition refreshToken_called : M (option Suspended) :=
  call api_refreshToken;; mret (Some refreshToken_awaits_refreshToken).

(** [refreshToken], lines 58-64: on rejection it calls [logout] and
    awaits it; nothing of [refreshToken] touches the store after that. *)
Definition refreshToken_after_refreshToken (r : Settled TokenResponse.t)
    : M (option Suspended) :=
  match r with
  | resolved response =>
      setItem "access_token" (TokenResponse.access_token response);;
      set (λ st, {| user := user st;
                    token := Some (TokenResponse.access_token response);
                    isAuthenticated := isAuthenticated st;
                    isLoading := isLoading st; error := error st |});;
      mret None
  | rejected _ => logout_called
  end.

(** [loadUser], lines 68-75: the token is read before the [await]. *)
Definition loadUser_called : M (option Suspended) :=
  stored ← getItem "access_token";
  if js_truthy stored then
    call api_getMe;;
    mret (Some (loadUser_awaits_getMe stored))
  else
    set (λ st, {| user := user st; token := token st;
                  isAuthenticated := false;
                  isLoading := false; error := error st |});;
    mret None.

(** [loadUser], lines 75-80: [stored] is the token read before the
    [await]. *)
Definition loadUser_after_getMe (stored : option string) (r : Settled UserInfo.t)
    : M (option Suspended) :=
  match r with
  | resolved u =>
      set (λ st, {| user := Some u; token := stored;
                    isAuthenticated := true;
                    isLoading := false; error := error st |});;
      mret None
  | rejected _ =>
      removeItem "access_token";;
      set (λ st, {| user := None; token := None; isAuthenticated := false;
                    isLoading := false; error := error st |});;
      mret None
  end.

(** The continuation of a suspended call on an answer; [None] when the
    answer is not one to the request the call awaits. *)
Definition continuation (k : Suspended) (a : Answer) : option (M (option Suspended)) :=
  match k, a with
  | login_awaits_login, token_answer r => Some (login_after_login r)
  | login_awaits_getMe, user_answer r => Some (login_after_getMe r)
  | logout_awaits_logout, unit_answer r => Some (logout_after_logout r)
  | refreshToken_awaits_refreshToken, token_answer r =>
      Some (refreshToken_after_refreshToken r)
  | loadUser_awaits_getMe stored, user_answer r => Some (loadUser_after_getMe stored r)
  | _, _ => None
  end.

Inductive Event :=
| Calls_login (username password : string) (tenantId : option string)
| Calls_logout
| Calls_refreshToken
| Calls_loadUser
| Calls_clearError
| Answers (i : nat) (a : Answer).   (* the request of suspended call [i] settles *)

(** What a call does when it is made. *)
Definition called (e : Event) : M (option Suspended) :=
  match e with
  | Calls_login username password tenantId => login_called username password tenantId
  | Calls_logout => logout_called
  | Calls_refreshToken => refreshToken_called
  | Calls_loadUser => loadUser_called
  | Calls_clearError => clearError;; mret None
  | Answers _ _ => mret None
  end.

(** One turn of the event loop.  A call runs up to its first [await]
    and joins the suspended calls; an answer resumes the call that awaits
    it, which runs to its next [await] or to its end. *)
Definition step (e : Event) (s : State) : State :=
  match e with
  | Answers i a =>
      match suspended s !! i with
      | Some k =>
          match continuation k a with
          | Some m =>
              {| world := exec m (world s);
                 suspended := delete i (suspended s) ++ option_list (eval m (world s)) |}
          | None => s
          end
      | None => s
      end
  | _ =>
      {| world := exec (called e) (world s);
         suspended := suspended s ++ option_list (eval (called e) (world s)) |}
  end.

Fixpoint run (es : list Event) (s : State) : State :=
  match es with
  | [] => s
  | e :: es => run es (step e s)
  end.

(** A call that has to wait for the backend. *)
Definition waits (e : Event) : bool :=
  match e with
  | Calls_login _ _ _ | Calls_logout | Calls_refreshToken | Calls_loadUser => true
  | _ => false
  end.

(** No call is made while another one is suspended. *)
Fixpoint one_at_a_time (es : list Event) (s : State) : Prop :=
  match es with
  | [] => True
  | e :: es => (waits e = true → suspended s = []) ∧ one_at_a_time es (step e s)
  end.

(** No [loadUser] is under way or called. *)
Definition no_loadUser (es : list Event) (s : State) : Prop :=
  (Calls_loadUser ∉ es) ∧ (∀ stored, loadUser_awaits_getMe stored ∉ suspended s).

(** The token the store holds, when it holds one, is the stored one. *)
Definition token_mirrors_storage (w : World) : Prop :=
  token (state w) ≠ None → token (state w) = localStorage w !! "access_token".

(** A store that says it is signed in has a user. *)
Definition signed_in_has_user (w : World) : Prop :=
  isAuthenticated (state w) = true → is_Some (user (state w)).

(** The calls and answers of an action run alone, from an idle store. *)
Definition alone (e : AuthStore.Event) : list Event :=
  match e with
  | Login username password tenantId r_login r_getMe =>
      [Calls_login username password tenantId;
       Answers 0 (token_answer r_login); Answers 0 (user_answer r_getMe)]
  | Logout r_logout => [Calls_logout; Answers 0 (unit_answer r_logout)]
  | RefreshToken r_refresh r_logout =>
      [Calls_refreshToken; Answers 0 (token_answer r_refresh);
       Answers 0 (unit_answer r_logout)]
  | LoadUser r_getMe => [Calls_loadUser; Answers 0 (user_answer r_getMe)]
  | ClearError => [Calls_clearError]
  end.

(** What holds while at most one call is suspended: the store is
    coherent, a [login] past its first answer has written its token, and
    a suspended [loadUser] holds the token that is stored now. *)
Definition settled_or_one (s : State) : Prop :=
  coherent (world s) ∧
  match suspended s with
  | [] => True
  | [login_awaits_getMe] => is_Some (token (state (world s)))
  | [loadUser_awaits_getMe stored] =>
      stored = localStorage (world s) !! "access_token" ∧ js_truthy stored = true
  | [_] => True
  | _ => False
  end.

(** A store created with a token in [localStorage], nothing called. *)
Definition idle_with_token : State :=
  idle (AuthStore.initialWorld {["access_token" := "t-0"]}).

(** [login], [refreshToken] and [logout] under way at the same time. *)
Definition overlapping_calls : list Event :=
  [Calls_login "alice" "pw" None; Calls_refreshToken;
   Answers 0 (token_answer (resolved (token_of "t-1")));
   Calls_logout; Answers 0 (token_answer (resolved (token_of "t-2")));
   Answers 1 (user_answer (resolved alice));
   Answers 0 (unit_answer (rejected None))].

(** Calls made one after the other, each answered before the next. *)
Definition calls_in_turn : list Event :=
  [Calls_loadUser; Answers 0 (user_answer (resolved alice)); Calls_clearError;
   Calls_refreshToken; Answers 0 (token_answer (rejected None));
   Answers 0 (unit_answer (resolved ()));
   Calls_login "alice" "pw" None;
   Answers 0 (token_answer (resolved (token_of "t-1")));
   Answers 0 (user_answer (resolved alice))].

End AuthAsync.

(** * Properties *)

(** ** Strings and message lists *)

Lemma append_empty_r (s : string) : s +:+ "" = s.
Proof.
  induction s as [|c s IH]; [done |].
  change (String c (s +:+ "") = String c s). by rewrite IH.
Qed.

Lemma append_assoc (a b c : string) : (a +:+ b) +:+ c = a +:+ (b +:+ c).
Proof.
  induction a as [|x a IH]; [done |].
  change (String x ((a +:+ b) +:+ c) = String x (a +:+ (b +:+ c))). by rewrite IH.
Qed.

Lemma grown_empty m : grown "" m = m.
Proof.
  destruct m. unfold grown, ChatMessage_extended, js_string.
  f_equal. apply append_empty_r.
Qed.

Lemma grown_grown a b m : grown b (grown a m) = grown (a +:+ b) m.
Proof.
  unfold grown, ChatMessage_extended, js_string.
  f_equal. apply append_assoc.
Qed.

Lemma grow_last_snoc suffix l m :
  grow_last suffix (l ++ [m]) = l ++ [grown suffix m].
Proof.
  induction l as [|x l IH]; [done |].
  simpl. rewrite IH. by destruct l.
Qed.

Lemma grow_last_app suffix l more :
  more ≠ [] → grow_last suffix (l ++ more) = l ++ grow_last suffix more.
Proof.
  intros Hne. destruct (decide (more = [])) as [|_]; [done |].
  induction l as [|x l IH]; [done |].
  simpl. rewrite IH. destruct (l ++ more) eqn:E; [|done].
  apply app_eq_nil in E as [_ ?]. done.
Qed.

Lemma grow_last_empty l : grow_last "" l = l.
Proof.
  induction l as [|x l IH]; [done |].
  simpl. rewrite IH. destruct l; [by rewrite grown_empty | done].
Qed.

Lemma grow_last_twice a b l : grow_last b (grow_last a l) = grow_last (a +:+ b) l.
Proof.
  induction l as [|x l IH]; [done |].
  destruct l as [|y l]; simpl in *; [by rewrite grown_grown |].
  rewrite <- IH. by destruct l.
Qed.

Lemma grow_last_insert (l : list ChatMessage.t) last content :
  l !! (length l - 1) = Some last →
  <[length l - 1 := ChatMessage_extended last content]> l = grow_last (js_string content) l.
Proof.
  destruct l as [|x l _] using rev_ind; [done |].
  rewrite length_app. simpl.
  replace (length l + 1 - 1) with (length l + 0) by lia.
  rewrite lookup_app_r, insert_app_r by lia.
  replace (length l + 0 - length l) with 0 by lia. simpl.
  intros [= ->]. by rewrite grow_last_snoc.
Qed.

Lemma extends_refl l : extends l l.
Proof. exists "", []. by rewrite grow_last_empty, app_nil_r. Qed.

Lemma extends_snoc l m : extends l (l ++ [m]).
Proof. exists "", [m]. by rewrite grow_last_empty. Qed.

Lemma extends_grow l suffix : extends l (grow_last suffix l).
Proof. exists suffix, []. by rewrite app_nil_r. Qed.

Lemma extends_trans l1 l2 l3 : extends l1 l2 → extends l2 l3 → extends l1 l3.
Proof.
  intros (a & m1 & ->) (b & m2 & ->).
  destruct (decide (m1 = [])) as [-> | Hne].
  - rewrite app_nil_r, grow_last_twice. by eexists _, _.
  - rewrite grow_last_app by done. rewrite <- app_assoc. by eexists _, _.
Qed.

(** An extension keeps every element of the old list in place, except
    that the content of the old final element may have grown. *)
Lemma extends_lookup old new i m :
  extends old new → old !! i = Some m →
  S i < length old → new !! i = Some m.
Proof.
  intros (suffix & more & ->) Hm Hi.
  rewrite lookup_app_l.
  - revert i Hm Hi. induction old as [|x old IH]; intros i Hm Hi; [done |].
    destruct old as [|y old]; [simpl in Hi; lia |].
    destruct i as [|i]; [done |].
    change (grow_last suffix (x :: y :: old)) with (x :: grow_last suffix (y :: old)).
    simpl in *. apply IH; [done | lia].
  - assert (length (grow_last suffix old) = length old) as ->; [| lia].
    clear. induction old as [|x old IH]; [done |].
    destruct old; [done |]. simpl in *. by rewrite IH.
Qed.

(** ** The two message mutations *)

Lemma replace_by_id_lookup updated (l : list Session.t) i s :
  l !! i = Some s →
  replace_by_id updated l !! i =
    Some (if decide (Session.id s = Session.id updated) then updated else s).
Proof. intros H. unfold replace_by_id. by rewrite list_lookup_fmap, H. Qed.

Lemma replace_by_id_length updated (l : list Session.t) :
  length (replace_by_id updated l) = length l.
Proof. unfold replace_by_id. by rewrite length_fmap. Qed.

Lemma addMessage_none w message :
  currentSession (store w) = None → addMessage message w = ((), w).
Proof. intros H. unfold addMessage. run_action. by rewrite H. Qed.

Lemma addMessage_some w cs message :
  currentSession (store w) = Some cs →
  ∃ cs', touches_only cs cs' w (exec (addMessage message) w) ∧
    Session.messages cs' = Session.messages cs ++ [message] ∧
    Session.updatedAt cs' = clock (env w) (ticks w).
Proof.
  intros H. unfold addMessage, now, saveSession. run_action. rewrite H. simpl.
  exists (Session_updated cs (Session.messages cs ++ [message]) (clock (env w) (ticks w))).
  split; [| done].
  unfold touches_only, same_identity, same_controls. simpl.
  split_and!; try done.
  - apply replace_by_id_length.
  - intros i s Hs Hid. rewrite (replace_by_id_lookup _ _ _ _ Hs). simpl. by rewrite decide_False.
  - intros i s Hs Hid. rewrite (replace_by_id_lookup _ _ _ _ Hs). simpl. by rewrite decide_True.
  - apply lookup_insert_eq.
  - intros id Hid. by apply lookup_insert_ne.
Qed.

Lemma updateLastMessage_none w content :
  currentSession (store w) = None → updateLastMessage content w = ((), w).
Proof. intros H. unfold updateLastMessage. run_action. by rewrite H. Qed.

Lemma updateLastMessage_empty w cs content :
  currentSession (store w) = Some cs → Session.messages cs = [] →
  updateLastMessage content w = ((), w).
Proof. intros H E. unfold updateLastMessage. run_action. by rewrite H, E. Qed.

Lemma updateLastMessage_some w cs content :
  currentSession (store w) = Some cs → Session.messages cs ≠ [] →
  ∃ cs', touches_only cs cs' w (exec (updateLastMessage content) w) ∧
    Session.messages cs' = grow_last (js_string content) (Session.messages cs) ∧
    Session.updatedAt cs' = clock (env w) (ticks w).
Proof.
  intros H Hne. unfold updateLastMessage, now, saveSession. run_action. rewrite H. simpl.
  rewrite decide_False by (by destruct (Session.messages cs)).
  destruct (Session.messages cs !! (length (Session.messages cs) - 1)) as [last|] eqn:E.
  - simpl.
    exists (Session_updated cs
              (<[length (Session.messages cs) - 1 := ChatMessage_extended last content]>
                 (Session.messages cs))
              (clock (env w) (ticks w))).
    split; [| split; [| done]].
    + unfold touches_only, same_identity, same_controls. simpl.
      split_and!; try done.
      * apply replace_by_id_length.
      * intros i s Hs Hid. rewrite (replace_by_id_lookup _ _ _ _ Hs). simpl.
        by rewrite decide_False.
      * intros i s Hs Hid. rewrite (replace_by_id_lookup _ _ _ _ Hs). simpl.
        by rewrite decide_True.
      * apply lookup_insert_eq.
      * intros id Hid. by apply lookup_insert_ne.
    + simpl. by apply grow_last_insert.
  - apply lookup_ge_None in E. destruct (Session.messages cs); [done | simpl in E; lia].
Qed.

(** C10. With a session selected, [addMessage] changes of it only the
    message list and [updatedAt]: [id], [name], [agent] and [createdAt]
    stay, the other fields of the store stay, and every session of the
    in-memory list with another id stays where and what it was; the same
    holds of [updateLastMessage] when the message list is not empty. *)
Theorem message_mutations_touch_only_the_current_session w cs :
  currentSession (store w) = Some cs →
  (∀ message, ∃ cs',
     touches_only cs cs' w (exec (addMessage message) w) ∧
     Session.messages cs' = Session.messages cs ++ [message]) ∧
  (∀ content, Session.messages cs ≠ [] → ∃ cs',
     touches_only cs cs' w (exec (updateLastMessage content) w) ∧
     Session.messages cs' = grow_last (js_string content) (Session.messages cs)).
Proof.
  intros H. split.
  - intros message. destruct (addMessage_some w cs message H) as (cs' & ? & ? & _). eauto.
  - intros content Hne.
    destruct (updateLastMessage_some w cs content H Hne) as (cs' & ? & ? & _). eauto.
Qed.

(** ** What a [sendMessage] call does *)


Lemma sendMessage_some w cs content :
  currentSession (store w) = Some cs →
  let d := eval (sendMessage content) w in
  let w' := exec (sendMessage content) w in
  ∃ cs' m,
    currentSession (store w') = Some cs' ∧
    Session.messages cs' = Session.messages cs ++ [m] ∧
    ChatMessage.role m = user ∧ ChatMessage.content m = content ∧
    same_identity cs cs' ∧
    db w' !! Session.id cs = Some cs' ∧
    (∀ id, id ≠ Session.id cs → db w' !! id = db w !! id) ∧
    connectionMode (store w') = connectionMode (store w) ∧
    wsConnection (store w') = wsConnection (store w) ∧
    match connectionMode (store w), wsConnection (store w) with
    | websocket, Some ws =>
        requests w' = requests w ∧
        match readyStateOf ws w with
        | Some CONNECTING =>
            d = threw ∧ isSending (store w') = true ∧ sockets w' = sockets w
        | Some OPEN =>
            d = returned ∧ isSending (store w') = false ∧
            sockets w' =
              alter (Socket_push {| WSMessage.message := content;
                                    WSMessage.agent := Some (selectedAgent (store w)) |})
                    ws (sockets w)
        | _ => d = returned ∧ isSending (store w') = false ∧ sockets w' = sockets w
        end
    | _, _ =>
        d = awaiting ∧ isSending (store w') = true ∧ sockets w' = sockets w ∧
        requests w' =
          requests w ++ [{| ChatRequest.message := content;
                            ChatRequest.session_id := Some (Session.id cs);
                            ChatRequest.agent := Some (selectedAgent (store w)) |}]
    end.
Proof.
  intros H.
  unfold sendMessage, addMessage, generateId, now, random36, saveSession, api_chat, ws_send.
  run_action. rewrite H. simpl. rewrite H. simpl.
  unfold readyStateOf. simpl.
  destruct (connectionMode (store w)) eqn:Em, (wsConnection (store w)) as [ws|] eqn:Ew; simpl;
    [| | destruct (sockets w !! ws) as [[? [] ?]|]; simpl |];
    eexists _, _; (split; [reflexivity|]); simpl; (split; [reflexivity|]); simpl;
    unfold same_identity; simpl; split_and!; try done;
    try apply lookup_insert_eq; try (intros; by apply lookup_insert_ne).
Qed.

(** The content of the assistant message that [sendMessage] appends when
    its request settles. *)
Lemma sendMessage_resume_some w cs reply :
  currentSession (store w) = Some cs →
  let w' := exec (sendMessage_resume reply) w in
  ∃ cs' m,
    currentSession (store w') = Some cs' ∧
    Session.messages cs' = Session.messages cs ++ [m] ∧
    ChatMessage.role m = assistant ∧
    ChatMessage.content m =
      match reply with
      | resolved response => ChatResponse.message response
      | rejected detail => "Error: " +:+ js_or detail "Failed to send message"
      end ∧
    same_identity cs cs' ∧
    db w' !! Session.id cs = Some cs' ∧
    isSending (store w') = false ∧
    sockets w' = sockets w ∧ requests w' = requests w.
Proof.
  intros H.
  unfold sendMessage_resume, addMessage, generateId, now, random36, saveSession.
  destruct reply as [response | detail]; run_action; rewrite H; simpl;
    eexists _, _; (split; [reflexivity|]); simpl; (split; [reflexivity|]); simpl;
    unfold same_identity; simpl; split_and!; try done; apply lookup_insert_eq.
Qed.

Lemma sendMessage_resume_none w reply :
  currentSession (store w) = None →
  currentSession (store (exec (sendMessage_resume reply) w)) = None ∧
  db (exec (sendMessage_resume reply) w) = db w.
Proof.
  intros H.
  unfold sendMessage_resume, addMessage, generateId, now, random36.
  destruct reply; run_action; by rewrite H.
Qed.

(** ** A conversation only extends the message list *)

Lemma advances_refl cs w w' :
  currentSession (store w') = Some cs → db w' = db w → advances cs w w'.
Proof.
  intros H E. exists cs. split_and!; [done | done | apply extends_refl |].
  by rewrite E.
Qed.

Lemma advances_trans cs cs1 w w1 w2 :
  currentSession (store w1) = Some cs1 →
  advances cs w w1 → advances cs1 w1 w2 → advances cs w w2.
Proof.
  intros H1 (cs1' & H1' & Hid1 & Hx1 & Hdb1) (cs2 & H2 & Hid2 & Hx2 & Hdb2).
  assert (cs1' = cs1) as -> by congruence.
  exists cs2. split_and!; [done | congruence | by eapply extends_trans |].
  intros Hdb. rewrite <- Hid1. apply Hdb2. rewrite Hid1. by apply Hdb1.
Qed.

Lemma addMessage_advances w cs message :
  currentSession (store w) = Some cs → advances cs w (exec (addMessage message) w).
Proof.
  intros H. destruct (addMessage_some w cs message H) as (cs' & Ht & Hm & _).
  destruct Ht as (Hc & (Hid & _) & _ & _ & _ & _ & Hdb & _).
  exists cs'. split_and!; [done | done | | done].
  rewrite Hm. apply extends_snoc.
Qed.

Lemma updateLastMessage_advances w cs content :
  currentSession (store w) = Some cs →
  advances cs w (exec (updateLastMessage content) w).
Proof.
  intros H. destruct (decide (Session.messages cs = [])) as [E | Hne].
  - unfold exec. rewrite (updateLastMessage_empty w cs content H E). by apply advances_refl.
  - destruct (updateLastMessage_some w cs content H Hne) as (cs' & Ht & Hm & _).
    destruct Ht as (Hc & (Hid & _) & _ & _ & _ & _ & Hdb & _).
    exists cs'. split_and!; [done | done | | done].
    rewrite Hm. apply extends_grow.
Qed.

Lemma onmessage_advances w cs data :
  currentSession (store w) = Some cs → advances cs w (exec (onmessage data) w).
Proof.
  intros H. unfold onmessage. destruct (WSChunk.type data).
  - by apply updateLastMessage_advances.
  - by apply advances_refl.
  - destruct (js_truthy (WSChunk.error data)); [| by apply advances_refl].
    unfold generateId, now, random36. run_action.
    match goal with
    | |- advances _ _ (snd (let '(_, w') := addMessage ?m ?w0 in _)) =>
        pose proof (addMessage_advances w0 cs m H) as Ha;
        unfold exec in Ha; destruct (addMessage m w0) as [[] w1]
    end.
    simpl in *. destruct Ha as (cs' & ? & ? & ? & ?). by exists cs'.
Qed.

Lemma step_advances e w cs :
  conversational e = true →
  currentSession (store w) = Some cs → advances cs w (exec (step e) w).
Proof.
  intros Hc H. destruct e; try discriminate; simpl.
  - (* sendMessage *)
    destruct (sendMessage_some w cs content H) as (cs' & m & H' & Hm & _ & _ & (Hid & _) & Hdb & _).
    unfold exec in *. run_action. destruct (sendMessage content w) as [d w']. simpl in *.
    exists cs'. split_and!; [done | done | | done].
    rewrite Hm. apply extends_snoc.
  - (* a request settles *)
    unfold exec, chat_settles. case_decide; [| by apply advances_refl].
    match goal with |- advances _ _ (snd (sendMessage_resume _ ?w0)) =>
      destruct (sendMessage_resume_some w0 cs reply H)
        as (cs' & m & H' & Hm & _ & _ & (Hid & _) & Hdb & _) end.
    exists cs'. split_and!; [done | done | | done].
    rewrite Hm. apply extends_snoc.
  - (* open *)
    unfold exec, ws_opened, onopen, skip. run_action.
    destruct (readyStateOf ws w) as [[]|]; by apply advances_refl.
  - (* message *)
    unfold exec, ws_message.
    destruct (readyStateOf ws w) as [[]|]; try by apply advances_refl.
    by apply onmessage_advances.
  - (* error *)
    unfold exec, ws_errored, onerror. run_action.
    destruct (readyStateOf ws w) as [[]|]; by apply advances_refl.
  - (* close *)
    unfold exec, ws_closed, onclose. run_action.
    destruct (readyStateOf ws w) as [[]|]; by apply advances_refl.
Qed.

Lemma currentMessages_some w cs :
  currentSession (store w) = Some cs → currentMessages w = Session.messages cs.
Proof. intros H. unfold currentMessages. by rewrite H. Qed.

Lemma currentMessages_same w w' :
  currentSession (store w') = currentSession (store w) →
  currentMessages w `prefix_of` currentMessages w'.
Proof. intros H. unfold currentMessages. by rewrite H. Qed.

Lemma onmessage_grows_on_a_fragment_only w cs ws data :
  currentSession (store w) = Some cs →
  readyStateOf ws w = Some OPEN →
  grows_on_a_fragment_only (WsMessage ws data) w (exec (onmessage data) w).
Proof.
  intros H Ho. unfold grows_on_a_fragment_only, fragment_of. rewrite Ho.
  unfold onmessage. destruct (WSChunk.type data).
  - rewrite (currentMessages_some w cs H).
    destruct (decide (Session.messages cs = [])) as [E | Hne].
    + unfold exec. rewrite (updateLastMessage_empty w cs _ H E). simpl.
      rewrite (currentMessages_some w cs H). by rewrite E.
    + destruct (updateLastMessage_some w cs (WSChunk.content data) H Hne)
        as (cs' & (Hc & _) & Hm & _).
      by rewrite (currentMessages_some _ cs' Hc).
  - by apply currentMessages_same.
  - destruct (js_truthy (WSChunk.error data)); [| by apply currentMessages_same].
    unfold generateId, now, random36. run_action.
    match goal with
    | |- _ `prefix_of` currentMessages (snd (let '(_, w') := addMessage ?m ?w0 in _)) =>
        destruct (addMessage_some w0 cs m H) as (cs' & (Hc & _) & Hm & _);
        unfold exec in Hc; destruct (addMessage m w0) as [[] w1]
    end.
    simpl in *. rewrite (currentMessages_some w cs H).
    unfold currentMessages. simpl. rewrite Hc, Hm. by apply prefix_app_r.
Qed.

Lemma step_grows_on_a_fragment_only e w cs :
  conversational e = true →
  currentSession (store w) = Some cs →
  grows_on_a_fragment_only e w (exec (step e) w).
Proof.
  intros Hc H. destruct e; try discriminate; simpl.
  - (* sendMessage *)
    destruct (sendMessage_some w cs content H) as (cs' & m & H' & Hm & _).
    unfold grows_on_a_fragment_only, fragment_of.
    rewrite (currentMessages_some w cs H).
    unfold exec in *. run_action. destruct (sendMessage content w) as [d w']. simpl in *.
    rewrite (currentMessages_some w' cs' H'), Hm. by apply prefix_app_r.
  - (* a request settles *)
    unfold grows_on_a_fragment_only, fragment_of, exec, chat_settles.
    case_decide; [| done].
    match goal with |- _ `prefix_of` currentMessages (snd (sendMessage_resume _ ?w0)) =>
      destruct (sendMessage_resume_some w0 cs reply H) as (cs' & m & H' & Hm & _) end.
    rewrite (currentMessages_some w cs H).
    unfold exec in H'. rewrite (currentMessages_some _ cs' H'), Hm. by apply prefix_app_r.
  - (* open *)
    unfold grows_on_a_fragment_only, fragment_of, exec, ws_opened, onopen, skip. run_action.
    destruct (readyStateOf ws w) as [[]|]; by apply currentMessages_same.
  - (* message *)
    destruct (readyStateOf ws w) as [rs|] eqn:Ers.
    2: { unfold grows_on_a_fragment_only, fragment_of, exec, ws_message. by rewrite Ers. }
    destruct (decide (rs = OPEN)) as [-> | Hno].
    + pose proof (onmessage_grows_on_a_fragment_only w cs ws data H Ers) as Hg.
      unfold exec, ws_message. by rewrite Ers.
    + unfold grows_on_a_fragment_only, fragment_of, exec, ws_message. rewrite Ers.
      by destruct rs.
  - (* error *)
    unfold grows_on_a_fragment_only, fragment_of, exec, ws_errored, onerror. run_action.
    destruct (readyStateOf ws w) as [[]|]; by apply currentMessages_same.
  - (* close *)
    unfold grows_on_a_fragment_only, fragment_of, exec, ws_closed, onclose. run_action.
    destruct (readyStateOf ws w) as [[]|]; by apply currentMessages_same.
Qed.

Lemma run_grows_on_a_fragment_only es w cs :
  forallb conversational es = true →
  currentSession (store w) = Some cs →
  at_each_step grows_on_a_fragment_only es w.
Proof.
  revert w cs. induction es as [|e es IH]; intros w cs Hes H; [done |].
  simpl in Hes. apply andb_prop in Hes as [He Hes]. simpl.
  split; [by eapply step_grows_on_a_fragment_only |].
  destruct (step_advances e w cs He H) as (cs1 & H1 & _). by eapply IH.
Qed.

(** C8, as the store has it.  Over any sequence of [sendMessage] calls,
    settlements and channel events, the selected session stays the same
    session and its message list is only extended: the old list, with the
    content of its final element possibly grown by concatenation, is a
    prefix of the new one, and its durable record follows.  The content
    of the final element grows at one kind of step only: when a [chunk]
    frame arrives on an open socket, and then by exactly the fragment of
    that frame; at every other step the list before is a prefix of the
    list after.  The transport mode plays no part in this. *)
Theorem conversation_only_extends_messages es w cs :
  forallb conversational es = true →
  currentSession (store w) = Some cs →
  (∃ cs', currentSession (store (run es w)) = Some cs' ∧
     Session.id cs' = Session.id cs ∧
     extends (Session.messages cs) (Session.messages cs') ∧
     (∀ i m, Session.messages cs !! i = Some m → S i < length (Session.messages cs) →
        Session.messages cs' !! i = Some m) ∧
     (db w !! Session.id cs = Some cs → db (run es w) !! Session.id cs = Some cs')) ∧
  at_each_step grows_on_a_fragment_only es w.
Proof.
  intros Hes H. split; [| by eapply run_grows_on_a_fragment_only].
  assert (advances cs w (run es w)) as (cs' & ? & ? & Hx & ?).
  { revert w cs Hes H. induction es as [|e es IH]; intros w cs Hes H.
    - by apply advances_refl.
    - simpl in Hes. apply andb_prop in Hes as [He Hes]. simpl.
      pose proof (step_advances e w cs He H) as Ha.
      destruct Ha as (cs1 & H1 & Hrest).
      eapply advances_trans; [exact H1 | by exists cs1 | by apply IH]. }
  exists cs'. split_and!; try done.
  intros i m Hm Hi. by eapply extends_lookup.
Qed.

Lemma conversation_only_extends_messages_witness :
  currentSession (store w_streamed) = Some (selected w_streamed) ∧
  transcript w_streamed = [(user, "hi")] ∧
  transcript (run [WsMessage 0 (frame_chunk "He"); WsMessage 0 frame_complete;
                   SendMessage "again"] w_streamed)
    = [(user, "hiHe"); (user, "again")] ∧
  (∃ cs', currentSession
            (store (run [WsMessage 0 (frame_chunk "He"); WsMessage 0 frame_complete;
                         SendMessage "again"] w_streamed))
          = Some cs' ∧
     Session.id cs' = Session.id (selected w_streamed) ∧
     extends (Session.messages (selected w_streamed)) (Session.messages cs') ∧
     (∀ i m, Session.messages (selected w_streamed) !! i = Some m →
        S i < length (Session.messages (selected w_streamed)) →
        Session.messages cs' !! i = Some m) ∧
     (db w_streamed !! Session.id (selected w_streamed) = Some (selected w_streamed) →
      db (run [WsMessage 0 (frame_chunk "He"); WsMessage 0 frame_complete;
               SendMessage "again"] w_streamed)
        !! Session.id (selected w_streamed) = Some cs')) ∧
  at_each_step grows_on_a_fragment_only
    [WsMessage 0 (frame_chunk "He"); WsMessage 0 frame_complete; SendMessage "again"]
    w_streamed.
Proof.
  split; [vm_compute; reflexivity |]. split; [vm_compute; reflexivity |].
  split; [vm_compute; reflexivity |].
  apply (conversation_only_extends_messages
           [WsMessage 0 (frame_chunk "He"); WsMessage 0 frame_complete; SendMessage "again"]
           w_streamed);
    vm_compute; reflexivity.
Defined.

(** C8, as stated, fails.  In [w_toggled] the transport in force is
    Request Mode, yet the channel opened in Stream Mode is still up; the
    chunk that arrives on it grows the content of the final element from
    "hi" to "hiHe". *)
Lemma final_content_grows_in_request_mode :
  connectionMode (store w_toggled) = rest ∧
  transcript w_toggled = [(user, "hi")] ∧
  transcript (run [WsMessage 0 (frame_chunk "He")] w_toggled) = [(user, "hiHe")] ∧
  ¬ append_only_while_streaming w_toggled (run [WsMessage 0 (frame_chunk "He")] w_toggled).
Proof.
  split; [vm_compute; reflexivity |]. split; [vm_compute; reflexivity |].
  split; [vm_compute; reflexivity |].
  intros [[more Hp] | [Hm _]].
  - vm_compute in Hp. discriminate Hp.
  - vm_compute in Hm. discriminate Hm.
Qed.

Lemma message_mutations_touch_only_the_current_session_witness :
  currentSession (store w_pending) = Some (selected w_pending) ∧
  Session.messages (selected w_pending) ≠ [] ∧
  (∀ message, ∃ cs',
     touches_only (selected w_pending) cs' w_pending (exec (addMessage message) w_pending) ∧
     Session.messages cs' = Session.messages (selected w_pending) ++ [message]) ∧
  (∀ content, Session.messages (selected w_pending) ≠ [] → ∃ cs',
     touches_only (selected w_pending) cs' w_pending
       (exec (updateLastMessage content) w_pending) ∧
     Session.messages cs' =
       grow_last (js_string content) (Session.messages (selected w_pending))).
Proof.
  split; [vm_compute; reflexivity |]. split; [vm_compute; discriminate |].
  apply (message_mutations_touch_only_the_current_session w_pending).
  vm_compute; reflexivity.
Defined.

(** ** Stream Mode turns *)

(** C1. In Stream Mode with the channel open, the user sends "hi" and
    the frames chunk("He"), chunk("llo"), complete arrive.  [sendMessage]
    appended no assistant message, so each chunk is concatenated onto the
    last message, which is the user's: the session ends with the single
    user message "hiHello" and no assistant message, the sending flag
    being false. *)
Theorem stream_turn_grows_the_user_message :
  transcript (run stream_turn w_streaming) = [(user, "hiHello")] ∧
  ((assistant, "Hello") ∉ transcript (run stream_turn w_streaming)) ∧
  isSending (store (run stream_turn w_streaming)) = false.
Proof.
  assert (transcript (run stream_turn w_streaming) = [(user, "hiHello")]) as E
    by (vm_compute; reflexivity).
  split_and!; [done | | vm_compute; reflexivity].
  rewrite E. intros Hin. apply elem_of_cons in Hin as [Hin | Hin]; [discriminate |].
  by apply elem_of_nil in Hin.
Qed.

(** C2. In Stream Mode with the channel open, [sendMessage] hands the
    frame to the channel and clears the sending flag before it returns:
    with no frame received at all the flag is already false, whereas a
    Request Mode send leaves it true until the call settles. *)
Theorem stream_send_clears_sending_without_reply :
  connectionMode (store w_streaming) = websocket ∧
  readyStateOf 0 w_streaming = Some OPEN ∧
  wsConnection (store w_streaming) = Some 0 ∧
  eval (sendMessage "hi") w_streaming = returned ∧
  Socket.sent <$> sockets w_streamed !! 0 =
    Some [{| WSMessage.message := "hi"; WSMessage.agent := Some "agentX" |}] ∧
  isSending (store w_streamed) = false ∧
  isSending (store w_pending) = true.
Proof. vm_compute. by split_and!. Qed.

(** The same for every world: a send over an open channel leaves the
    flag false. *)
Lemma stream_send_leaves_flag_false w cs ws content :
  currentSession (store w) = Some cs →
  connectionMode (store w) = websocket →
  wsConnection (store w) = Some ws →
  readyStateOf ws w = Some OPEN →
  isSending (store (exec (sendMessage content) w)) = false.
Proof.
  intros H Hm Hw Hr.
  destruct (sendMessage_some w cs content H) as (cs' & m & _ & _ & _ & _ & _ & _ & _ & _ & _ & Hcase).
  rewrite Hm, Hw, Hr in Hcase. by destruct Hcase as (_ & _ & ? & _).
Qed.

(** Which events can clear the flag at all: outside [sendMessage]
    itself, only a settlement, a frame and a channel error. *)
Lemma sending_flag_cleared_only_by e w :
  isSending (store w) = true →
  isSending (store (exec (step e) w)) = false →
  match e with
  | SendMessage _ | ChatSettles _ | WsMessage _ _ | WsErrored _ => True
  | _ => False
  end.
Proof.
  intros Ht Hf. destruct e; try done; revert Hf.
  - unfold exec; simpl. destruct readable; unfold loadSessions, getAllSessions;
      run_action; congruence.
  - destruct listAgents; unfold exec, loadAgents; run_action; congruence.
  - unfold exec; simpl.
    unfold createSession, generateId, now, random36, saveSession, getAllSessions.
    run_action. congruence.
  - unfold exec; simpl. unfold selectSession, getSession. run_action.
    destruct (db w !! id); run_action; congruence.
  - unfold exec; simpl. unfold deleteSessionById, deleteSession, getAllSessions.
    run_action. congruence.
  - unfold exec; simpl. unfold setSelectedAgent. run_action. congruence.
  - unfold exec; simpl. unfold setConnectionMode. run_action. congruence.
  - unfold exec; simpl. unfold connectWebSocket, ws_close, api_createWebSocket.
    run_action.
    destruct (wsConnection (store w)) as [ws|]; simpl.
    + destruct (readyStateOf ws w) as [[]|]; simpl;
        destruct (currentSession (store w)); simpl; congruence.
    + destruct (currentSession (store w)); simpl; congruence.
  - unfold exec; simpl. unfold disconnectWebSocket, ws_close. run_action.
    destruct (wsConnection (store w)) as [ws|]; simpl; [| congruence].
    destruct (readyStateOf ws w) as [[]|]; simpl; congruence.
  - unfold exec; simpl. unfold ws_opened, onopen. run_action.
    destruct (readyStateOf ws w) as [[]|]; simpl; congruence.
  - unfold exec; simpl. unfold ws_closed, onclose. run_action.
    destruct (readyStateOf ws w) as [[]|]; simpl; congruence.
Qed.

(** ** Sending without a channel, and sending twice *)

Lemma sendMessage_settled_awaiting w content reply :
  eval (sendMessage content) w = awaiting →
  exec (sendMessage_settled content reply) w =
    exec (sendMessage_resume reply) (exec (sendMessage content) w).
Proof.
  unfold exec, eval, sendMessage_settled, mbind, M_bind.
  destruct (sendMessage content w) as [d w1]. simpl. intros ->.
  by destruct (sendMessage_resume reply w1).
Qed.

(** C9. With Stream Mode selected but no channel handle stored, a
    [sendMessage] call takes the Request Mode path: it issues exactly one
    [api.chat] request and touches no socket, and when that request
    settles the user message is followed by one assistant message, the
    full reply or the error prefixed with "Error: ". *)
Theorem stream_mode_without_channel_uses_request_path w cs content reply :
  currentSession (store w) = Some cs →
  connectionMode (store w) = websocket →
  wsConnection (store w) = None →
  eval (sendMessage content) w = awaiting ∧
  requests (exec (sendMessage content) w) =
    requests w ++ [{| ChatRequest.message := content;
                      ChatRequest.session_id := Some (Session.id cs);
                      ChatRequest.agent := Some (selectedAgent (store w)) |}] ∧
  sockets (exec (sendMessage content) w) = sockets w ∧
  ∃ cs' u a,
    currentSession (store (exec (sendMessage_settled content reply) w)) = Some cs' ∧
    Session.messages cs' = Session.messages cs ++ [u; a] ∧
    ChatMessage.role u = user ∧ ChatMessage.content u = content ∧
    ChatMessage.role a = assistant ∧
    ChatMessage.content a =
      match reply with
      | resolved response => ChatResponse.message response
      | rejected detail => "Error: " +:+ js_or detail "Failed to send message"
      end ∧
    isSending (store (exec (sendMessage_settled content reply) w)) = false ∧
    requests (exec (sendMessage_settled content reply) w) =
      requests (exec (sendMessage content) w) ∧
    sockets (exec (sendMessage_settled content reply) w) = sockets w.
Proof.
  intros H Hm Hw.
  destruct (sendMessage_some w cs content H)
    as (cs1 & u & H1 & Hu & Hru & Hcu & _ & _ & _ & _ & _ & Hcase).
  rewrite Hm, Hw in Hcase. destruct Hcase as (Hd & _ & Hs & Hr).
  split_and!; [done | done | done |].
  rewrite (sendMessage_settled_awaiting w content reply Hd).
  destruct (sendMessage_resume_some (exec (sendMessage content) w) cs1 reply H1)
    as (cs2 & a & H2 & Ha & Hra & Hca & _ & _ & Hf & Hs2 & Hr2).
  exists cs2, u, a. split_and!; try done.
  - rewrite Ha, Hu. by rewrite <- app_assoc.
  - congruence.
Qed.

Lemma stream_mode_without_channel_uses_request_path_witness :
  currentSession (store w_stream_no_channel) = Some (selected w_stream_no_channel) ∧
  connectionMode (store w_stream_no_channel) = websocket ∧
  wsConnection (store w_stream_no_channel) = None ∧
  eval (sendMessage "hi") w_stream_no_channel = awaiting ∧
  ∃ cs' u a,
    currentSession
      (store (exec (sendMessage_settled "hi" (rejected (Some "backend unavailable")))
                w_stream_no_channel)) = Some cs' ∧
    Session.messages cs' = Session.messages (selected w_stream_no_channel) ++ [u; a] ∧
    ChatMessage.role a = assistant ∧
    ChatMessage.content a =
      "Error: " +:+ js_or (Some "backend unavailable") "Failed to send message".
Proof.
  split; [vm_compute; reflexivity |].
  split; [vm_compute; reflexivity |]. split; [vm_compute; reflexivity |].
  destruct (stream_mode_without_channel_uses_request_path
              w_stream_no_channel (selected w_stream_no_channel)
              "hi" (rejected (Some "backend unavailable")))
    as (Hd & _ & _ & cs' & u & a & Hc & Hm & _ & _ & Hr & Hca & _);
    [vm_compute; reflexivity ..|].
  split; [exact Hd |]. exists cs', u, a. split_and!; [exact Hc | exact Hm | exact Hr | exact Hca].
Defined.




(** ** Creating a session and loading the agent catalogue *)

Lemma createSession_unfold agent w :
  createSession agent w =
    (let session :=
       {| Session.id := pretty (clock (env w) (ticks w)) +:+ "-" +:+ entropy (env w) (draws w);
          Session.name := "Chat " +:+ toLocaleString (env w) (clock (env w) (S (ticks w)));
          Session.agent := agent;
          Session.messages := [];
          Session.createdAt := clock (env w) (S (S (ticks w)));
          Session.updatedAt := clock (env w) (S (S (S (ticks w)))) |} in
     (session,
      {| env := env w; ticks := S (S (S (S (ticks w)))); draws := S (draws w);
         store := set_currentSession (Some session)
                    (set_sessions
                       (snd <$> map_to_list (<[Session.id session := session]> (db w)))
                       (store w));
         db := <[Session.id session := session]> (db w);
         sockets := sockets w; requests := requests w; settled := settled w;
         toasts := toasts w |})).
Proof. reflexivity. Qed.

(** C6, as the store has it.  [createSession] accepts any agent string,
    the empty one included: it builds a session bound to that agent with
    no messages and with [createdAt] and [updatedAt] read from the clock
    during the call, writes it to the durable store, reloads the list
    from the store, selects the new session and returns it.  The check
    for a missing agent is made by the caller: the sidebar's New Chat
    handler shows an error and calls nothing when no agent is selected. *)
Theorem createSession_accepts_any_agent agent w :
  let session := eval (createSession agent) w in
  let w' := exec (createSession agent) w in
  (Session.agent session = agent ∧
   Session.messages session = [] ∧
   Session.createdAt session = clock (env w) (ticks w + 2) ∧
   Session.updatedAt session = clock (env w) (ticks w + 3) ∧
   db w' = <[Session.id session := session]> (db w) ∧
   db w' !! Session.id session = Some session ∧
   sessions (store w') = snd <$> map_to_list (db w') ∧
   currentSession (store w') = Some session) ∧
  (selectedAgent (store w) = "" →
   handleNewChat w = toast (toast_error "Please select an agent first") w) ∧
  (selectedAgent (store w) ≠ "" →
   currentSession (store (exec handleNewChat w)) =
     Some (eval (createSession (selectedAgent (store w))) w)).
Proof.
  unfold exec, eval. rewrite createSession_unfold. cbn [fst snd].
  split_and!.
  - reflexivity.
  - reflexivity.
  - cbn [Session.createdAt]. f_equal. lia.
  - cbn [Session.updatedAt]. f_equal. lia.
  - reflexivity.
  - cbn [db]. apply lookup_insert_eq.
  - reflexivity.
  - reflexivity.
  - intros E. unfold handleNewChat, mbind, M_bind, get. by rewrite decide_True.
  - intros E. unfold handleNewChat, mbind, M_bind, get. rewrite decide_False by done.
    rewrite createSession_unfold. reflexivity.
Qed.

Lemma createSession_accepts_any_agent_witness :
  selectedAgent (store (initialWorld env0)) = "" ∧
  handleNewChat (initialWorld env0) =
    toast (toast_error "Please select an agent first") (initialWorld env0) ∧
  selectedAgent (store w_session) ≠ "" ∧
  currentSession (store (exec handleNewChat w_session)) =
    Some (eval (createSession (selectedAgent (store w_session))) w_session).
Proof.
  split; [reflexivity |].
  split; [apply (createSession_accepts_any_agent "" (initialWorld env0)); reflexivity |].
  split; [vm_compute; discriminate |].
  apply (createSession_accepts_any_agent "" w_session). vm_compute; discriminate.
Defined.

(** C6, as stated, fails: called with the empty agent string on the
    initial world, [createSession] is not turned down. *)
Lemma createSession_with_empty_agent_is_not_rejected :
  ¬ create_rejected "" (initialWorld env0).
Proof.
  intros (_ & _ & Hc). vm_compute in Hc. discriminate.
Qed.

(** C7, as the store has it.  When the catalogue fetch succeeds,
    [loadAgents] stores the list and sets the selected agent to the name
    of the first agent returned, or to the empty string when the list is
    empty, whatever was selected before; nothing else changes.  When the
    fetch fails the world is left as it was. *)
Theorem loadAgents_selects_first_agent w :
  (∀ agents',
     let w' := exec (loadAgents (resolved agents')) w in
     agents (store w') = agents' ∧
     selectedAgent (store w') = default "" (AgentInfo.name <$> head agents') ∧
     sessions (store w') = sessions (store w) ∧
     currentSession (store w') = currentSession (store w) ∧
     isLoading (store w') = isLoading (store w) ∧
     isSending (store w') = isSending (store w) ∧
     connectionMode (store w') = connectionMode (store w) ∧
     wsConnection (store w') = wsConnection (store w) ∧
     db w' = db w ∧ sockets w' = sockets w ∧ requests w' = requests w) ∧
  (∀ detail, loadAgents (rejected detail) w = ((), w)).
Proof.
  split; [| done].
  intros agents'. unfold loadAgents. run_action. split_and!; try done.
  by destruct agents'.
Qed.

(** C7, as stated, fails: with agentX selected, a successful fetch whose
    first agent is agentY changes the selection. *)
Lemma loadAgents_overrides_selection :
  ¬ (selectedAgent (store w_session) ≠ "" →
     selectedAgent (store (exec (loadAgents (resolved [agentY; agentX])) w_session)) =
       selectedAgent (store w_session)).
Proof.
  intros Hclaim. assert (selectedAgent (store w_session) ≠ "") as Hne
    by (vm_compute; discriminate).
  specialize (Hclaim Hne). vm_compute in Hclaim. discriminate.
Qed.

(** ** The channel: closing, connecting, disconnecting *)

Lemma ws_close_store ws w : store (exec (ws_close ws) w) = store w.
Proof. unfold exec, ws_close. by destruct (readyStateOf ws w) as [[]|]. Qed.

Lemma ws_close_length ws w : length (sockets (exec (ws_close ws) w)) = length (sockets w).
Proof.
  unfold exec, ws_close.
  destruct (readyStateOf ws w) as [[]|]; simpl; by rewrite ?length_alter.
Qed.

Lemma readyStateOf_ws_close ws ws' w :
  readyStateOf ws' (exec (ws_close ws) w) =
    if decide (ws = ws') then
      match readyStateOf ws w with
      | Some CONNECTING | Some OPEN => Some CLOSING
      | r => r
      end
    else readyStateOf ws' w.
Proof.
  unfold exec, ws_close.
  destruct (readyStateOf ws w) as [[]|] eqn:E; simpl; case_decide; subst; try done;
    unfold readyStateOf in *; simpl;
    rewrite ?list_lookup_alter_eq, ?list_lookup_alter_ne by done; try done;
    destruct (sockets w !! ws'); simpl in *; done.
Qed.

Lemma ws_close_not_alive ws w : alive ws (exec (ws_close ws) w) = false.
Proof.
  unfold alive. rewrite readyStateOf_ws_close, decide_True by done.
  by destruct (readyStateOf ws w) as [[]|].
Qed.

(** Closing a socket revives none. *)
Lemma ws_close_stays_dead ws ws' w :
  alive ws' w = false → alive ws' (exec (ws_close ws) w) = false.
Proof.
  unfold alive. rewrite readyStateOf_ws_close. case_decide; subst; [| done].
  by destruct (readyStateOf ws' w) as [[]|].
Qed.

Lemma ws_close_boundTo ws ws' w : boundTo ws' (exec (ws_close ws) w) = boundTo ws' w.
Proof.
  unfold exec, ws_close, boundTo.
  destruct (readyStateOf ws w) as [[]|]; simpl; try done;
    (destruct (decide (ws = ws')) as [<- | Hne];
     [rewrite list_lookup_alter_eq; by destruct (sockets w !! ws)
     | by rewrite list_lookup_alter_ne]).
Qed.

Lemma ws_message_dropped ws w data :
  alive ws w = false → ws_message ws data w = ((), w).
Proof.
  unfold alive, ws_message. by destruct (readyStateOf ws w) as [[]|].
Qed.

Lemma disconnectWebSocket_unfold w :
  exec disconnectWebSocket w =
    match wsConnection (store w) with
    | Some ws => with_store (set_wsConnection None) (exec (ws_close ws) w)
    | None => w
    end.
Proof.
  unfold disconnectWebSocket. run_action.
  destruct (wsConnection (store w)) as [ws|]; [| done].
  simpl. by destruct (ws_close ws w) as [[] w1].
Qed.

Lemma connectWebSocket_unfold w :
  exec connectWebSocket w =
    let closed :=
      match wsConnection (store w) with
      | Some ws => exec (ws_close ws) w
      | None => w
      end in
    match currentSession (store w) with
    | None => closed
    | Some cs =>
        with_store (set_wsConnection (Some (length (sockets closed))))
          (with_sockets (λ l, l ++ [Socket.mk (Session.id cs) CONNECTING []]) closed)
    end.
Proof.
  unfold connectWebSocket, api_createWebSocket. run_action.
  destruct (wsConnection (store w)) as [ws|]; simpl.
  - destruct (ws_close ws w) as [[] w1]. simpl. by destruct (currentSession (store w)).
  - by destruct (currentSession (store w)).
Qed.

Lemma disconnectWebSocket_spec w :
  let w' := exec disconnectWebSocket w in
  wsConnection (store w') = None ∧
  currentSession (store w') = currentSession (store w) ∧
  connectionMode (store w') = connectionMode (store w) ∧
  length (sockets w') = length (sockets w) ∧
  (∀ ws, wsConnection (store w) = Some ws → alive ws w' = false) ∧
  (∀ ws, alive ws w = false → alive ws w' = false).
Proof.
  simpl. rewrite disconnectWebSocket_unfold.
  destruct (wsConnection (store w)) as [ws|] eqn:E.
  - simpl. rewrite ws_close_store, ws_close_length. split_and!; try done.
    + intros ws' [= <-]. apply (ws_close_not_alive ws w).
    + intros ws' Hd. by apply (ws_close_stays_dead ws ws' w).
  - by split_and!.
Qed.

Lemma alive_with_store f ws w : alive ws (with_store f w) = alive ws w.
Proof. reflexivity. Qed.

Lemma boundTo_with_store f ws w : boundTo ws (with_store f w) = boundTo ws w.
Proof. reflexivity. Qed.

Lemma readyStateOf_with_store f ws w :
  readyStateOf ws (with_store f w) = readyStateOf ws w.
Proof. reflexivity. Qed.

Lemma alive_after_append ws x w :
  ws < length (sockets w) →
  alive ws (with_sockets (λ l, l ++ [x]) w) = alive ws w.
Proof.
  intros Hlt. unfold alive, readyStateOf. simpl. by rewrite lookup_app_l.
Qed.

Lemma connectWebSocket_spec w :
  handle_valid w →
  let w' := exec connectWebSocket w in
  currentSession (store w') = currentSession (store w) ∧
  connectionMode (store w') = connectionMode (store w) ∧
  (∀ ws, wsConnection (store w) = Some ws → alive ws w' = false) ∧
  (∀ ws, ws < length (sockets w) → alive ws w = false → alive ws w' = false) ∧
  match currentSession (store w) with
  | Some cs =>
      wsConnection (store w') = Some (length (sockets w)) ∧
      boundTo (length (sockets w)) w' = Some (Session.id cs) ∧
      readyStateOf (length (sockets w)) w' = Some CONNECTING ∧
      length (sockets w') = S (length (sockets w))
  | None =>
      wsConnection (store w') = wsConnection (store w) ∧
      length (sockets w') = length (sockets w)
  end.
Proof.
  intros Hv. simpl. rewrite connectWebSocket_unfold.
  set (closed := match wsConnection (store w) with
                 | Some ws => exec (ws_close ws) w
                 | None => w
                 end).
  assert (store closed = store w) as Hs.
  { unfold closed. destruct (wsConnection (store w)); [apply ws_close_store | done]. }
  assert (length (sockets closed) = length (sockets w)) as Hl.
  { unfold closed. destruct (wsConnection (store w)); [apply ws_close_length | done]. }
  assert (∀ ws, wsConnection (store w) = Some ws → alive ws closed = false) as Hc.
  { intros ws E. unfold closed. rewrite E. apply ws_close_not_alive. }
  assert (∀ ws, alive ws w = false → alive ws closed = false) as Hd.
  { intros ws E. unfold closed.
    destruct (wsConnection (store w)); [by apply ws_close_stays_dead | done]. }
  destruct (currentSession (store w)) as [cs|] eqn:E.
  - cbn [store with_store set_wsConnection currentSession connectionMode wsConnection
         sockets with_sockets].
    rewrite Hs, Hl, boundTo_with_store, readyStateOf_with_store.
    split_and!; try done.
    + intros ws Hw. rewrite alive_with_store, alive_after_append; [by apply Hc | rewrite Hl; by apply Hv].
    + intros ws Hlt Hdead.
      rewrite alive_with_store, alive_after_append; [by apply Hd | by rewrite Hl].
    + unfold boundTo. cbn [sockets with_sockets]. rewrite lookup_app_r by lia.
      by replace (length (sockets w) - length (sockets closed)) with 0 by lia.
    + unfold readyStateOf. cbn [sockets with_sockets]. rewrite lookup_app_r by lia.
      by replace (length (sockets w) - length (sockets closed)) with 0 by lia.
    + rewrite length_app, Hl. simpl. lia.
  - cbv zeta. rewrite Hs. split_and!; try done.
    intros ws _ Hdead. by apply Hd.
Qed.

(** ** The ChatInput effect *)

Lemma ChatInput_cleanup_unfold mode w :
  exec (ChatInput_cleanup mode) w =
    match mode with
    | websocket => exec disconnectWebSocket w
    | rest => w
    end.
Proof. by destruct mode. Qed.

Lemma ChatInput_effect_unfold w :
  exec ChatInput_effect w =
    match connectionMode (store w), currentSession (store w) with
    | websocket, Some _ => exec connectWebSocket w
    | _, _ => exec disconnectWebSocket w
    end.
Proof.
  unfold ChatInput_effect. run_action.
  by destruct (connectionMode (store w)), (currentSession (store w)).
Qed.

Lemma ChatInput_rerender_unfold mode id w :
  exec (ChatInput_rerender mode id) w =
    if decide (connectionMode (store w) = mode ∧
               (Session.id <$> currentSession (store w)) = id)
    then w
    else exec ChatInput_effect (exec (ChatInput_cleanup mode) w).
Proof.
  unfold ChatInput_rerender, exec, mbind, M_bind, get.
  case_decide; [done |].
  by destruct (ChatInput_cleanup mode w) as [[] w1].
Qed.

(** What the clean-up leaves behind: the held channel either was closed
    and dropped, or is still the one held before. *)
Lemma ChatInput_cleanup_spec mode w :
  let w' := exec (ChatInput_cleanup mode) w in
  currentSession (store w') = currentSession (store w) ∧
  connectionMode (store w') = connectionMode (store w) ∧
  length (sockets w') = length (sockets w) ∧
  (∀ ws, alive ws w = false → alive ws w' = false) ∧
  (∀ ws, wsConnection (store w) = Some ws →
     alive ws w' = false ∨ wsConnection (store w') = Some ws) ∧
  (∀ ws, wsConnection (store w') = Some ws → wsConnection (store w) = Some ws).
Proof.
  simpl. rewrite ChatInput_cleanup_unfold. destruct mode.
  - split_and!; try done. intros ws Hw. by right.
  - destruct (disconnectWebSocket_spec w) as (Hn & Hc & Hm & Hl & Hdead & Hstay).
    split_and!; try done.
    + intros ws Hw. left. by apply Hdead.
    + intros ws Hw. congruence.
Qed.

Lemma ChatInput_effect_spec w :
  handle_valid w →
  let w' := exec ChatInput_effect w in
  handle_valid w' ∧ channel_follows_selection w' ∧
  currentSession (store w') = currentSession (store w) ∧
  connectionMode (store w') = connectionMode (store w) ∧
  (∀ ws, wsConnection (store w) = Some ws → alive ws w' = false) ∧
  (∀ ws, ws < length (sockets w) → alive ws w = false → alive ws w' = false).
Proof.
  intros Hv. simpl. rewrite ChatInput_effect_unfold.
  assert (let w' := exec disconnectWebSocket w in
          handle_valid w' ∧ channel_follows_selection w' ∧
          currentSession (store w') = currentSession (store w) ∧
          connectionMode (store w') = connectionMode (store w) ∧
          (∀ ws, wsConnection (store w) = Some ws → alive ws w' = false) ∧
          (∀ ws, ws < length (sockets w) → alive ws w = false → alive ws w' = false))
    as Hdis.
  { simpl. destruct (disconnectWebSocket_spec w) as (Hn & Hc & Hm & Hl & Hdead & Hstay).
    split_and!; try done.
    - intros ws Hw. congruence.
    - intros ws Hw. congruence.
    - intros ws _. apply Hstay. }
  destruct (connectionMode (store w)) eqn:Em; [exact Hdis |].
  destruct (currentSession (store w)) as [cs|] eqn:Ec; [| exact Hdis].
  destruct (connectWebSocket_spec w Hv) as (Hc & Hm & Hdead & Hstay & Hnew).
  rewrite Ec in Hnew. destruct Hnew as (Hh & Hb & Hr & Hl).
  split_and!; try done.
  - intros ws Hw. rewrite Hh in Hw. injection Hw as <-. lia.
  - intros ws Hw _. rewrite Hh in Hw. injection Hw as <-. by rewrite Hb, Hc, Ec.
  - congruence.
  - congruence.
Qed.

(** After a command that leaves the sockets and the handle alone, the
    next render puts the channel back in step with the selection. *)
Lemma rerender_restores w w1 :
  sockets w1 = sockets w →
  wsConnection (store w1) = wsConnection (store w) →
  handle_valid w → channel_follows_selection w →
  let w2 := exec (ChatInput_rerender (ChatInput_deps w).1 (ChatInput_deps w).2) w1 in
  handle_valid w2 ∧ channel_follows_selection w2 ∧
  (ChatInput_deps w1 ≠ ChatInput_deps w →
   ∀ ws, wsConnection (store w) = Some ws → alive ws w2 = false).
Proof.
  intros Hsock Hws Hv Hf. simpl. rewrite ChatInput_rerender_unfold.
  assert (∀ ws, alive ws w1 = alive ws w) as Halive.
  { intros ws. unfold alive, readyStateOf. by rewrite Hsock. }
  assert (handle_valid w1) as Hv1.
  { intros ws Hw. rewrite Hsock. apply Hv. congruence. }
  case_decide as Hdeps.
  - destruct Hdeps as [Hm Hid]. split_and!; [done | |].
    + intros ws Hw Ha. unfold boundTo. rewrite Hsock, Hid.
      apply Hf; [congruence | by rewrite <- Halive].
    + intros Hne. exfalso. apply Hne. unfold ChatInput_deps. by rewrite Hm, Hid.
  - destruct (ChatInput_cleanup_spec (connectionMode (store w)) w1)
      as (Hc & Hm & Hl & Hstay & Hheld & Hsub).
    set (w1' := exec (ChatInput_cleanup (connectionMode (store w))) w1) in *.
    assert (handle_valid w1') as Hv1'.
    { intros ws Hw. rewrite Hl. apply Hv1. by apply Hsub. }
    destruct (ChatInput_effect_spec w1' Hv1') as (Hv2 & Hf2 & _ & _ & Hdead & Hstay2).
    split_and!; [done | done |].
    intros _ ws Hw.
    destruct (Hheld ws) as [Hd | Hh]; [congruence | | by apply Hdead].
    apply Hstay2; [| done]. rewrite Hl, Hsock. by apply Hv.
Qed.

Lemma selectSession_leaves_channel id w :
  sockets (exec (selectSession id) w) = sockets w ∧
  wsConnection (store (exec (selectSession id) w)) = wsConnection (store w) ∧
  connectionMode (store (exec (selectSession id) w)) = connectionMode (store w).
Proof.
  unfold selectSession, getSession. run_action. by destruct (db w !! id).
Qed.

Lemma setConnectionMode_leaves_channel mode w :
  sockets (exec (setConnectionMode mode) w) = sockets w ∧
  wsConnection (store (exec (setConnectionMode mode) w)) = wsConnection (store w) ∧
  currentSession (store (exec (setConnectionMode mode) w)) = currentSession (store w) ∧
  connectionMode (store (exec (setConnectionMode mode) w)) = mode.
Proof. done. Qed.

(** C3, as the store has it.  [setConnectionMode] only records the
    mode: the sockets, the held handle and the state of the channel are
    what they were.  The teardown belongs to the ChatInput effect: on the
    render that follows a toggle from Stream Mode to Request Mode with a
    channel held, its clean-up calls [disconnectWebSocket], which closes
    that channel and drops the handle, and from then on a frame
    delivered on that channel changes nothing. *)
Theorem mode_toggle_tears_down_through_the_effect w ws :
  connectionMode (store w) = websocket →
  wsConnection (store w) = Some ws →
  (sockets (exec (setConnectionMode rest) w) = sockets w ∧
   wsConnection (store (exec (setConnectionMode rest) w)) = Some ws ∧
   alive ws (exec (setConnectionMode rest) w) = alive ws w) ∧
  (connectionMode (store (rendered_after w (setConnectionMode rest))) = rest ∧
   wsConnection (store (rendered_after w (setConnectionMode rest))) = None ∧
   channel_torn_down ws (rendered_after w (setConnectionMode rest))).
Proof.
  intros Hm Hw. split; [by split_and! |].
  unfold rendered_after, ChatInput_deps. cbn [fst snd].
  set (w1 := exec (setConnectionMode rest) w).
  assert (connectionMode (store w1) = rest) as Hm1 by done.
  assert (wsConnection (store w1) = Some ws) as Hw1 by done.
  rewrite ChatInput_rerender_unfold, decide_False
    by (rewrite Hm, Hm1; intros [? _]; discriminate).
  rewrite Hm, ChatInput_cleanup_unfold.
  destruct (disconnectWebSocket_spec w1) as (Hn & Hc & Hmode & Hl & Hdead & Hstay).
  set (w1' := exec disconnectWebSocket w1) in *.
  rewrite ChatInput_effect_unfold.
  assert (exec disconnectWebSocket w1' = w1') as Hidem.
  { rewrite disconnectWebSocket_unfold. by rewrite Hn. }
  assert (match connectionMode (store w1'), currentSession (store w1') with
          | websocket, Some _ => exec connectWebSocket w1'
          | _, _ => exec disconnectWebSocket w1'
          end = w1') as ->.
  { rewrite Hmode, Hm1. by destruct (currentSession (store w1')). }
  split_and!; [congruence | done |].
  split; [by apply Hdead |].
  intros data. unfold exec. rewrite ws_message_dropped; [done | by apply Hdead].
Qed.

Lemma mode_toggle_tears_down_through_the_effect_witness :
  connectionMode (store w_streamed) = websocket ∧
  wsConnection (store w_streamed) = Some 0 ∧
  alive 0 w_streamed = true ∧
  wsConnection (store (rendered_after w_streamed (setConnectionMode rest))) = None ∧
  channel_torn_down 0 (rendered_after w_streamed (setConnectionMode rest)).
Proof.
  split; [vm_compute; reflexivity |]. split; [vm_compute; reflexivity |].
  split; [vm_compute; reflexivity |].
  apply (mode_toggle_tears_down_through_the_effect w_streamed 0); vm_compute; reflexivity.
Defined.

(** C3, as stated, fails: after [setConnectionMode] alone the channel
    is still up, and a chunk delivered on it is still processed. *)
Lemma mode_toggle_alone_leaves_channel_up :
  ¬ channel_torn_down 0 (exec (setConnectionMode rest) w_streamed).
Proof.
  intros [Ha _]. vm_compute in Ha. discriminate.
Qed.

(** The chunk that arrives after the toggle alone is appended. *)
Lemma chunk_after_mode_toggle_is_processed :
  transcript (run [SetConnectionMode rest; WsMessage 0 (frame_chunk "He")] w_streamed)
    = [(user, "hiHe")].
Proof. vm_compute. reflexivity. Qed.

(** C4, as the store has it.  The store holds at most one channel
    handle.  [connectWebSocket] closes the channel held before and binds
    the one it opens to the id of the session selected at that moment.
    [selectSession] and [setConnectionMode] leave the sockets and the
    handle alone; it is the render that follows them that brings the
    channel back in step: after it the held channel, while alive, is
    bound to the selected session, and when the session id or the mode
    has changed the channel held before is closed. *)
Theorem channel_follows_selection_after_render w :
  handle_valid w → channel_follows_selection w →
  (∀ ws ws', wsConnection (store w) = Some ws → wsConnection (store w) = Some ws' →
     ws = ws') ∧
  (∀ cs, currentSession (store w) = Some cs →
     (∀ ws, wsConnection (store w) = Some ws → alive ws (exec connectWebSocket w) = false) ∧
     ∃ ws', wsConnection (store (exec connectWebSocket w)) = Some ws' ∧
       boundTo ws' (exec connectWebSocket w) = Some (Session.id cs) ∧
       readyStateOf ws' (exec connectWebSocket w) = Some CONNECTING) ∧
  (∀ id,
     sockets (exec (selectSession id) w) = sockets w ∧
     wsConnection (store (exec (selectSession id) w)) = wsConnection (store w) ∧
     handle_valid (rendered_after w (selectSession id)) ∧
     channel_follows_selection (rendered_after w (selectSession id)) ∧
     (ChatInput_deps (exec (selectSession id) w) ≠ ChatInput_deps w →
      ∀ ws, wsConnection (store w) = Some ws →
        alive ws (rendered_after w (selectSession id)) = false)) ∧
  (∀ mode,
     sockets (exec (setConnectionMode mode) w) = sockets w ∧
     wsConnection (store (exec (setConnectionMode mode) w)) = wsConnection (store w) ∧
     handle_valid (rendered_after w (setConnectionMode mode)) ∧
     channel_follows_selection (rendered_after w (setConnectionMode mode)) ∧
     (ChatInput_deps (exec (setConnectionMode mode) w) ≠ ChatInput_deps w →
      ∀ ws, wsConnection (store w) = Some ws →
        alive ws (rendered_after w (setConnectionMode mode)) = false)).
Proof.
  intros Hv Hf. split_and!.
  - congruence.
  - intros cs Hc. destruct (connectWebSocket_spec w Hv) as (_ & _ & Hdead & _ & Hnew).
    rewrite Hc in Hnew. destruct Hnew as (Hh & Hb & Hr & _).
    split; [done |]. by exists (length (sockets w)).
  - intros id. destruct (selectSession_leaves_channel id w) as (Hs & Hw & _).
    destruct (rerender_restores w (exec (selectSession id) w) Hs Hw Hv Hf) as (? & ? & ?).
    by split_and!.
  - intros mode. destruct (setConnectionMode_leaves_channel mode w) as (Hs & Hw & _).
    destruct (rerender_restores w (exec (setConnectionMode mode) w) Hs Hw Hv Hf)
      as (? & ? & ?).
    by split_and!.
Qed.

Lemma channel_follows_selection_after_render_witness :
  handle_valid w_two_sessions ∧
  channel_follows_selection w_two_sessions ∧
  wsConnection (store w_two_sessions) = Some 0 ∧
  alive 0 w_two_sessions = true ∧
  channel_follows_selection (rendered_after w_two_sessions (selectSession "1000-r0")) ∧
  alive 0 (rendered_after w_two_sessions (selectSession "1000-r0")) = false.
Proof.
  assert (handle_valid w_two_sessions) as Hv.
  { intros ws Hw. vm_compute in Hw. injection Hw as <-. vm_compute. lia. }
  assert (channel_follows_selection w_two_sessions) as Hf.
  { intros ws Hw _. vm_compute in Hw. injection Hw as <-. vm_compute. reflexivity. }
  split; [exact Hv |]. split; [exact Hf |].
  split; [vm_compute; reflexivity |]. split; [vm_compute; reflexivity |].
  destruct (channel_follows_selection_after_render w_two_sessions Hv Hf)
    as (_ & _ & Hsel & _).
  destruct (Hsel "1000-r0") as (_ & _ & _ & Hfollows & Hclosed).
  split; [exact Hfollows |].
  apply Hclosed; [vm_compute; discriminate | vm_compute; reflexivity].
Defined.

(** C4, as stated, fails: right after [selectSession] switches to the
    first session, the channel still held and open is the one bound to
    the second session. *)
Lemma selectSession_alone_leaves_channel_on_old_session :
  ¬ channel_follows_selection (exec (selectSession "1000-r0") w_two_sessions).
Proof.
  intros Hf. specialize (Hf 0). vm_compute in Hf.
  specialize (Hf eq_refl eq_refl). discriminate.
Qed.

(** The [close] handler does not look at which socket closed: when the
    channel closed by a session switch reports its closure, the handle of
    the channel opened since is dropped although that channel is open. *)
Remark late_close_event_drops_the_new_handle :
  wsConnection (store w_switched_back) = None ∧
  alive 1 w_switched_back = true ∧
  boundTo 1 w_switched_back = Session.id <$> currentSession (store w_switched_back).
Proof. vm_compute. by split_and!. Qed.

(** * Further properties of the store *)

(** ** Actions that keep a property *)

Lemma exec_bind {A B} (m : M A) (k : A → M B) w :
  exec (m ≫= k) w = exec (k (eval m w)) (exec m w).
Proof. unfold exec, eval, mbind, M_bind. by destruct (m w). Qed.

Lemma eval_bind {A B} (m : M A) (k : A → M B) w :
  eval (m ≫= k) w = eval (k (eval m w)) (exec m w).
Proof. unfold exec, eval, mbind, M_bind. by destruct (m w). Qed.

Lemma preserves_ret {A} I (a : A) : preserves I (mret a).
Proof. by intros w. Qed.

Lemma preserves_bind {A B} I (m : M A) (k : A → M B) :
  preserves I m → (∀ a, preserves I (k a)) → preserves I (m ≫= k).
Proof. intros Hm Hk w HI. rewrite exec_bind. by apply Hk, Hm. Qed.

Section AboutSessions.
Variable I : World → Prop.
Hypothesis HI : about_sessions I.

(** An action that leaves the sessions alone keeps [I]. *)
Lemma preserves_untouched {A} (m : M A) :
  (∀ w, env (exec m w) = env w ∧ (ticks w ≤ ticks (exec m w))%nat ∧
        db (exec m w) = db w ∧
        sessions (store (exec m w)) = sessions (store w) ∧
        currentSession (store (exec m w)) = currentSession (store w)) →
  preserves I m.
Proof. intros H w Hw. destruct (H w) as (? & ? & ? & ? & ?). by eapply HI. Qed.

Lemma preserves_get : preserves I get.
Proof. by intros w. Qed.

Lemma preserves_now : preserves I now.
Proof. apply preserves_untouched. intros w. unfold exec, now. simpl. split_and!; try done. lia. Qed.

Lemma preserves_random36 : preserves I random36.
Proof. by apply preserves_untouched. Qed.

Lemma preserves_generateId : preserves I generateId.
Proof.
  unfold generateId. apply preserves_bind; [apply preserves_now |]. intros t.
  apply preserves_bind; [apply preserves_random36 |]. intros r. apply preserves_ret.
Qed.

Lemma preserves_toast t : preserves I (toast t).
Proof. by apply preserves_untouched. Qed.

Lemma preserves_api_chat r : preserves I (api_chat r).
Proof. by apply preserves_untouched. Qed.

Lemma preserves_api_createWebSocket id : preserves I (api_createWebSocket id).
Proof. by apply preserves_untouched. Qed.

Lemma preserves_ws_send ws m : preserves I (ws_send ws m).
Proof.
  apply preserves_untouched. intros w. unfold exec, ws_send.
  by destruct (readyStateOf ws w) as [[]|].
Qed.

Lemma preserves_ws_close ws : preserves I (ws_close ws).
Proof.
  apply preserves_untouched. intros w. unfold exec, ws_close.
  by destruct (readyStateOf ws w) as [[]|].
Qed.

(** A [set] that writes neither [sessions] nor [currentSession]. *)
Lemma preserves_set f :
  (∀ st, sessions (f st) = sessions st ∧ currentSession (f st) = currentSession st) →
  preserves I (set f).
Proof.
  intros Hf. apply preserves_untouched. intros w. destruct (Hf (store w)).
  by split_and!.
Qed.

Lemma preserves_skip : preserves I skip.
Proof. by intros w. Qed.

Hypothesis Hadd : ∀ message, preserves I (addMessage message).
Hypothesis Hupdate : ∀ content, preserves I (updateLastMessage content).

Lemma preserves_sendMessage content : preserves I (sendMessage content).
Proof.
  unfold sendMessage. apply preserves_bind; [apply preserves_get |]. intros st.
  destruct (currentSession st) as [cs|]; [| apply preserves_ret].
  apply preserves_bind; [apply preserves_generateId |]. intros id.
  apply preserves_bind; [apply preserves_now |]. intros ts.
  apply preserves_bind; [apply Hadd |]. intros _.
  apply preserves_bind; [by apply preserves_set |]. intros _.
  destruct (connectionMode st), (wsConnection st) as [ws|];
    try (apply preserves_bind; [apply preserves_api_chat | intros _; apply preserves_ret]).
  apply preserves_bind; [apply preserves_ws_send |]. intros [].
  - apply preserves_bind; [by apply preserves_set | intros _; apply preserves_ret].
  - apply preserves_ret.
Qed.

Lemma preserves_sendMessage_resume reply : preserves I (sendMessage_resume reply).
Proof.
  unfold sendMessage_resume.
  apply preserves_bind; [| intros _; by apply preserves_set].
  destruct reply.
  - apply preserves_bind; [apply preserves_generateId |]. intros id.
    apply preserves_bind; [apply preserves_now |]. intros ts. apply Hadd.
  - apply preserves_bind; [apply preserves_generateId |]. intros id.
    apply preserves_bind; [apply preserves_now |]. intros ts. apply Hadd.
Qed.

Lemma preserves_onmessage data : preserves I (onmessage data).
Proof.
  unfold onmessage. destruct (WSChunk.type data).
  - apply Hupdate.
  - by apply preserves_set.
  - destruct (js_truthy (WSChunk.error data)); [| apply preserves_skip].
    apply preserves_bind; [apply preserves_generateId |]. intros id.
    apply preserves_bind; [apply preserves_now |]. intros ts.
    apply preserves_bind; [apply Hadd |]. intros _. by apply preserves_set.
Qed.

Lemma preserves_conversational e :
  conversational e = true → preserves I (step e).
Proof.
  destruct e; try discriminate; intros _; simpl.
  - apply preserves_bind; [apply preserves_sendMessage | intros _; apply preserves_skip].
  - intros w Hw. unfold exec, chat_settles. case_decide; [| done].
    apply (preserves_sendMessage_resume reply).
  eapply (HI w); [reflexivity | simpl; lia | reflexivity | reflexivity | reflexivity | exact Hw].
  - intros w Hw. unfold exec, ws_opened, onopen, skip.
    destruct (readyStateOf ws w) as [[]|]; try done.
  eapply (HI w); [reflexivity | simpl; lia | reflexivity | reflexivity | reflexivity | exact Hw].
  - intros w Hw. unfold exec, ws_message.
    destruct (readyStateOf ws w) as [[]|]; try done. by apply (preserves_onmessage data).
  - intros w Hw. unfold exec, ws_errored, onerror.
    destruct (readyStateOf ws w) as [[]|]; try done;
    (eapply (HI w); [reflexivity | simpl; lia | reflexivity | reflexivity | reflexivity | exact Hw]).
  - intros w Hw. unfold exec, ws_closed, onclose.
    destruct (readyStateOf ws w) as [[]|]; try done;
    (eapply (HI w); [reflexivity | simpl; lia | reflexivity | reflexivity | reflexivity | exact Hw]).
Qed.
End AboutSessions.

(** ** The durable store, the list and the selection agree *)

Lemma elem_of_values (m : gmap string Session.t) s :
  s ∈ (snd <$> map_to_list m) ↔ ∃ k, m !! k = Some s.
Proof.
  rewrite list_elem_of_fmap. split.
  - intros ([k s'] & -> & Hin). exists k. by apply elem_of_map_to_list.
  - intros (k & Hk). exists (k, s). split; [done |]. by apply elem_of_map_to_list.
Qed.

Lemma store_consistent_about_sessions : about_sessions store_consistent.
Proof.
  intros w w' _ _ Hdb Hs Hc (Hk & Hp & Hl).
  unfold store_consistent, db_keyed, selection_persisted, list_from_db.
  rewrite Hdb, Hs, Hc. done.
Qed.

Lemma touches_only_consistent cs cs' w w' :
  touches_only cs cs' w w' → store_consistent w → store_consistent w'.
Proof.
  intros (Hc & (Hid & _) & _ & Hlen & Hother & Hsame & Hdb & Hdbo & _) (Hk & Hp & Hl).
  split_and!.
  - intros k s Hs. destruct (decide (k = Session.id cs)) as [-> | Hne].
    + rewrite Hdb in Hs. by injection Hs as <-.
    + rewrite Hdbo in Hs by done. by apply Hk.
  - intros cs'' Hc'. rewrite Hc in Hc'. injection Hc' as <-. by rewrite Hid.
  - intros s' Hin. apply list_elem_of_lookup_1 in Hin as [i Hi].
    assert (is_Some (sessions (store w) !! i)) as [s Hs].
    { apply lookup_lt_is_Some. rewrite <- Hlen. by eapply lookup_lt_Some. }
    destruct (decide (Session.id s = Session.id cs)) as [E | Hne].
    + rewrite (Hsame i s Hs E) in Hi. injection Hi as <-. by rewrite Hid.
    + rewrite (Hother i s Hs Hne) in Hi. injection Hi as <-.
      rewrite Hdbo by done. apply Hl. by eapply list_elem_of_lookup_2.
Qed.

Lemma addMessage_consistent message : preserves store_consistent (addMessage message).
Proof.
  intros w Hw. destruct (currentSession (store w)) as [cs|] eqn:E.
  - destruct (addMessage_some w cs message E) as (cs' & Ht & _). by eapply touches_only_consistent.
  - unfold exec. by rewrite addMessage_none.
Qed.

Lemma updateLastMessage_consistent content :
  preserves store_consistent (updateLastMessage content).
Proof.
  intros w Hw. destruct (currentSession (store w)) as [cs|] eqn:E.
  - destruct (decide (Session.messages cs = [])) as [Em | Hne].
    + unfold exec. by rewrite (updateLastMessage_empty w cs).
    + destruct (updateLastMessage_some w cs content E Hne) as (cs' & Ht & _).
      by eapply touches_only_consistent.
  - unfold exec. by rewrite updateLastMessage_none.
Qed.

Lemma loadSessions_unfold readable w :
  exec (loadSessions readable) w =
    with_store (λ st,
      set_isLoading false
        (if readable then set_sessions (snd <$> map_to_list (db w)) st else st)) w.
Proof. by destruct readable. Qed.

Lemma selectSession_unfold id w :
  exec (selectSession id) w =
    match db w !! id with
    | Some session =>
        with_store (λ st, set_selectedAgent (Session.agent session)
                            (set_currentSession (Some session) st)) w
    | None => w
    end.
Proof. unfold selectSession, getSession. run_action. by destruct (db w !! id). Qed.

Lemma deleteSessionById_unfold id w :
  exec (deleteSessionById id) w =
    with_store (λ st,
      set_currentSession
        (match currentSession (store w) with
         | Some cs => if decide (Session.id cs = id) then None else Some cs
         | None => None
         end)
        (set_sessions (snd <$> map_to_list (delete id (db w))) st))
      (with_db (delete id) w).
Proof. reflexivity. Qed.

Lemma loadSessions_consistent readable : preserves store_consistent (loadSessions readable).
Proof.
  intros w (Hk & Hp & Hl). rewrite loadSessions_unfold.
  destruct readable; [| by split_and!].
  split_and!; [exact Hk | exact Hp |].
  intros s [k Hs]%elem_of_values. cbn [db with_store]. by rewrite (Hk k s Hs).
Qed.

Lemma createSession_consistent agent : preserves store_consistent (createSession agent).
Proof.
  intros w (Hk & Hp & Hl). unfold exec. rewrite createSession_unfold. cbn [snd].
  set (session := Session.mk _ _ _ _ _ _).
  assert (db_keyed (with_db (insert (Session.id session) session) w)) as Hk'.
  { intros k s Hs. cbn [db with_db] in Hs.
    apply lookup_insert_Some in Hs as [[<- <-] | [_ Hs]]; [done | by apply Hk]. }
  split_and!.
  - exact Hk'.
  - intros cs [= <-]. apply lookup_insert_eq.
  - intros s [k Hs]%elem_of_values. cbn [db]. by rewrite (Hk' k s Hs).
Qed.

Lemma selectSession_consistent id : preserves store_consistent (selectSession id).
Proof.
  intros w (Hk & Hp & Hl). rewrite selectSession_unfold.
  destruct (db w !! id) as [s|] eqn:E; [| done].
  split_and!; [exact Hk | | exact Hl].
  intros cs [= <-]. cbn [db with_store]. by rewrite (Hk id s E).
Qed.

Lemma deleteSessionById_consistent id : preserves store_consistent (deleteSessionById id).
Proof.
  intros w (Hk & Hp & Hl). rewrite deleteSessionById_unfold.
  assert (∀ k s, delete id (db w) !! k = Some s → Session.id s = k) as Hk'.
  { intros k s [_ Hs]%lookup_delete_Some. by apply Hk. }
  split_and!.
  - exact Hk'.
  - intros cs. cbn [store with_store set_currentSession currentSession db with_db].
    destruct (currentSession (store w)) as [cs0|] eqn:E; [| done].
    case_decide as Hid; [done |]. intros [= <-].
    rewrite lookup_delete_ne by done. by apply Hp.
  - intros s [k Hs]%elem_of_values. cbn [db with_store with_db]. by rewrite (Hk' k s Hs).
Qed.

Lemma connectWebSocket_about I : about_sessions I → preserves I connectWebSocket.
Proof.
  intros HI. unfold connectWebSocket.
  apply preserves_bind; [by apply preserves_get |]. intros st.
  apply preserves_bind.
  { destruct (wsConnection st); [by apply preserves_ws_close | by apply preserves_skip]. }
  intros _. destruct (currentSession st); [| by apply preserves_skip].
  apply preserves_bind; [by apply preserves_api_createWebSocket |]. intros ws.
  by apply preserves_set.
Qed.

Lemma disconnectWebSocket_about I : about_sessions I → preserves I disconnectWebSocket.
Proof.
  intros HI. unfold disconnectWebSocket.
  apply preserves_bind; [by apply preserves_get |]. intros st.
  destruct (wsConnection st); [| by apply preserves_skip].
  apply preserves_bind; [by apply preserves_ws_close |]. intros _.
  by apply preserves_set.
Qed.

Lemma loadAgents_about I r : about_sessions I → preserves I (loadAgents r).
Proof.
  intros HI. destruct r; [by apply preserves_set | by apply preserves_skip].
Qed.

Lemma step_consistent e : preserves store_consistent (step e).
Proof.
  pose proof store_consistent_about_sessions as HI.
  destruct (conversational e) eqn:Hc.
  { apply preserves_conversational;
      [done | apply addMessage_consistent | apply updateLastMessage_consistent | done]. }
  destruct e; try discriminate; simpl.
  - apply loadSessions_consistent.
  - by apply loadAgents_about.
  - apply preserves_bind; [apply createSession_consistent | intros _; by apply preserves_skip].
  - apply selectSession_consistent.
  - apply deleteSessionById_consistent.
  - by apply preserves_set.
  - by apply preserves_set.
  - by apply connectWebSocket_about.
  - by apply disconnectWebSocket_about.
Qed.

Lemma store_consistent_run es w :
  store_consistent w → store_consistent (run es w).
Proof.
  revert w. induction es as [|e es IH]; intros w Hw; [done |].
  simpl. apply IH. by apply step_consistent.
Qed.

Lemma initialWorld_consistent e : store_consistent (initialWorld e).
Proof.
  split_and!.
  - intros k s Hs. change (db (initialWorld e)) with (∅ : gmap string Session.t) in Hs.
    by rewrite lookup_empty in Hs.
  - intros cs Hs. discriminate Hs.
  - intros s Hs. by apply elem_of_nil in Hs.
Qed.

(** ** Sessions do not leak into one another *)

Lemma others_kept_about_sessions w0 idc : about_sessions (others_kept w0 idc).
Proof.
  intros w w' _ _ Hdb Hs Hc (H1 & H2 & H3). unfold others_kept.
  rewrite Hdb, Hs, Hc. done.
Qed.

Lemma nothing_selected_as_about_sessions w0 : about_sessions (nothing_selected_as w0).
Proof.
  intros w w' _ _ Hdb Hs Hc (H1 & H2 & H3). unfold nothing_selected_as.
  rewrite Hdb, Hs, Hc. done.
Qed.

Lemma touches_only_others_kept w0 idc cs cs' w w' :
  currentSession (store w) = Some cs →
  touches_only cs cs' w w' → others_kept w0 idc w → others_kept w0 idc w'.
Proof.
  intros Hcs (Hc & (Hid & _) & _ & _ & Hother & _ & _ & Hdbo & _) (H1 & H2 & H3).
  rewrite Hcs in H1. injection H1 as <-.
  split_and!.
  - rewrite Hc. simpl. by rewrite Hid.
  - intros id Hne. rewrite Hdbo by done. by apply H2.
  - intros i s Hs Hne. apply (Hother i s); [by apply H3 | done].
Qed.

Lemma addMessage_others_kept w0 idc message :
  preserves (others_kept w0 idc) (addMessage message).
Proof.
  intros w Hw. destruct (currentSession (store w)) as [cs|] eqn:E.
  - destruct (addMessage_some w cs message E) as (cs' & Ht & _).
    by eapply touches_only_others_kept.
  - unfold exec. by rewrite addMessage_none.
Qed.

Lemma updateLastMessage_others_kept w0 idc content :
  preserves (others_kept w0 idc) (updateLastMessage content).
Proof.
  intros w Hw. destruct (currentSession (store w)) as [cs|] eqn:E.
  - destruct (decide (Session.messages cs = [])) as [Em | Hne].
    + unfold exec. by rewrite (updateLastMessage_empty w cs).
    + destruct (updateLastMessage_some w cs content E Hne) as (cs' & Ht & _).
      by eapply touches_only_others_kept.
  - unfold exec. by rewrite updateLastMessage_none.
Qed.

Lemma addMessage_nothing_selected w0 message :
  preserves (nothing_selected_as w0) (addMessage message).
Proof. intros w Hw. unfold exec. rewrite addMessage_none; [done | apply Hw]. Qed.

Lemma updateLastMessage_nothing_selected w0 content :
  preserves (nothing_selected_as w0) (updateLastMessage content).
Proof. intros w Hw. unfold exec. rewrite updateLastMessage_none; [done | apply Hw]. Qed.

Lemma run_preserves I es :
  (∀ e, conversational e = true → preserves I (step e)) →
  forallb conversational es = true → ∀ w, I w → I (run es w).
Proof.
  intros Hstep. induction es as [|e es IH]; intros Hes w Hw; [done |].
  simpl in *. apply andb_prop in Hes as [He Hes]. apply IH; [done |]. by apply Hstep.
Qed.

(** X2. While one session is selected, no sequence of sends, settlements
    and channel events touches another session: the durable record filed
    under any other id and every list entry with another id stay as they
    were.  While no session is selected, such a sequence changes no
    session at all. *)
Theorem conversation_leaves_other_sessions_alone es w :
  forallb conversational es = true →
  match currentSession (store w) with
  | Some cs =>
      (∀ id, id ≠ Session.id cs → db (run es w) !! id = db w !! id) ∧
      (∀ i s, sessions (store w) !! i = Some s → Session.id s ≠ Session.id cs →
         sessions (store (run es w)) !! i = Some s)
  | None =>
      currentSession (store (run es w)) = None ∧
      db (run es w) = db w ∧
      sessions (store (run es w)) = sessions (store w)
  end.
Proof.
  intros Hes. destruct (currentSession (store w)) as [cs|] eqn:E.
  - assert (others_kept w (Session.id cs) (run es w)) as (_ & ? & ?); [| done].
    apply run_preserves; [| done | split_and!; [by rewrite E | done | done]].
    intros e He. apply preserves_conversational;
      [apply others_kept_about_sessions | apply addMessage_others_kept
      | apply updateLastMessage_others_kept | done].
  - apply (run_preserves (nothing_selected_as w)); [| done | done].
    intros e He. apply preserves_conversational;
      [apply nothing_selected_as_about_sessions | apply addMessage_nothing_selected
      | apply updateLastMessage_nothing_selected | done].
Qed.

Lemma conversation_leaves_other_sessions_alone_witness :
  Session.id <$> currentSession (store w_two_sessions) = Some "1004-r1" ∧
  is_Some (db w_two_sessions !! "1000-r0") ∧
  currentMessages (run stream_turn w_two_sessions) ≠ currentMessages w_two_sessions ∧
  db (run stream_turn w_two_sessions) !! "1000-r0" = db w_two_sessions !! "1000-r0".
Proof.
  split; [vm_compute; reflexivity |]. split; [vm_compute; eauto |].
  split; [vm_compute; discriminate |].
  pose proof (conversation_leaves_other_sessions_alone stream_turn w_two_sessions eq_refl)
    as H.
  replace (currentSession (store w_two_sessions)) with (Some (selected w_two_sessions)) in H
    by (vm_compute; reflexivity).
  destruct H as [H _]. apply H. vm_compute. discriminate.
Defined.

(** ** Selecting and deleting *)

(** X3. Switching away and back loses nothing.  When the store is
    consistent and a session is selected, selecting any id whatever and
    then the first session's id again leaves that very session selected,
    with the agent selector on its agent; and selecting an id the durable
    store does not know changes nothing at all. *)
Theorem selecting_away_and_back_restores_the_session w cs other :
  store_consistent w →
  currentSession (store w) = Some cs →
  currentSession (store (run [SelectSession other; SelectSession (Session.id cs)] w))
    = Some cs ∧
  selectedAgent (store (run [SelectSession other; SelectSession (Session.id cs)] w))
    = Session.agent cs ∧
  db (run [SelectSession other; SelectSession (Session.id cs)] w) = db w ∧
  (db w !! other = None → exec (selectSession other) w = w).
Proof.
  intros (Hk & Hp & Hl) Hc. simpl.
  assert (db (exec (selectSession other) w) = db w) as Hdb.
  { rewrite selectSession_unfold. by destruct (db w !! other). }
  rewrite (selectSession_unfold (Session.id cs)), Hdb, (Hp cs Hc).
  split_and!; [done | done | done |].
  intros Hn. by rewrite selectSession_unfold, Hn.
Qed.

Lemma selecting_away_and_back_restores_the_session_witness :
  store_consistent w_two_sessions ∧
  currentSession (store w_two_sessions) = Some (selected w_two_sessions) ∧
  Session.id (selected w_two_sessions) = "1004-r1" ∧
  Session.id <$> currentSession (store (run [SelectSession "1000-r0"] w_two_sessions))
    = Some "1000-r0" ∧
  currentSession
    (store (run [SelectSession "1000-r0";
                 SelectSession (Session.id (selected w_two_sessions))] w_two_sessions))
    = Some (selected w_two_sessions).
Proof.
  assert (store_consistent w_two_sessions) as Hw.
  { assert (w_two_sessions =
            run [LoadAgents (resolved [agentX; agentY]);
                 CreateSession "agentX"; CreateSession "agentY";
                 SetConnectionMode websocket; ConnectWebSocket; WsOpened 0]
                (initialWorld env0)) as -> by (vm_compute; reflexivity).
    apply store_consistent_run, initialWorld_consistent. }
  split; [exact Hw |]. split; [vm_compute; reflexivity |].
  split; [vm_compute; reflexivity |]. split; [vm_compute; reflexivity |].
  apply (selecting_away_and_back_restores_the_session w_two_sessions _ "1000-r0" Hw).
  vm_compute; reflexivity.
Defined.

(** X4. Deleting a session, in a consistent store: its durable record is
    gone; the list is reloaded and shows exactly the records filed under
    the other ids; the selection is dropped if it was the deleted session
    and kept otherwise; the session cannot be selected again, and a later
    reload of the list does not bring it back.  The channel handle is not
    touched. *)
Theorem deleteSessionById_removes_the_session id w :
  store_consistent w →
  let w' := exec (deleteSessionById id) w in
  db w' !! id = None ∧
  (∀ s, s ∈ sessions (store w') ↔ ∃ k, k ≠ id ∧ db w !! k = Some s) ∧
  (∀ s, s ∈ sessions (store w') → Session.id s ≠ id) ∧
  currentSession (store w') =
    match currentSession (store w) with
    | Some cs => if decide (Session.id cs = id) then None else Some cs
    | None => None
    end ∧
  exec (selectSession id) w' = w' ∧
  (∀ s, s ∈ sessions (store (exec (loadSessions true) w')) → Session.id s ≠ id) ∧
  wsConnection (store w') = wsConnection (store w) ∧
  sockets w' = sockets w.
Proof.
  intros (Hk & Hp & Hl). simpl. rewrite deleteSessionById_unfold.
  set (w' := with_store _ (with_db (delete id) w)).
  assert (db w' = delete id (db w)) as Hdb by done.
  assert (∀ s, s ∈ (snd <$> map_to_list (delete id (db w))) ↔
               ∃ k, k ≠ id ∧ db w !! k = Some s) as Hlist.
  { intros s. rewrite elem_of_values. split.
    - intros (k & [Hne Hs]%lookup_delete_Some). by exists k.
    - intros (k & Hne & Hs). exists k. by apply lookup_delete_Some. }
  assert (∀ s, s ∈ (snd <$> map_to_list (delete id (db w))) → Session.id s ≠ id) as Hno.
  { intros s (k & Hne & Hs)%Hlist. by rewrite (Hk k s Hs). }
  split_and!; try done.
  - apply lookup_delete_eq.
  - rewrite selectSession_unfold, Hdb, lookup_delete_eq. done.
Qed.

Lemma deleteSessionById_removes_the_session_witness :
  store_consistent w_two_sessions ∧
  Session.id <$> currentSession (store w_two_sessions) = Some "1004-r1" ∧
  currentSession (store (exec (deleteSessionById "1004-r1") w_two_sessions)) = None ∧
  db (exec (deleteSessionById "1004-r1") w_two_sessions) !! "1004-r1" = None ∧
  (∀ s, s ∈ sessions (store (exec (deleteSessionById "1004-r1") w_two_sessions)) →
     Session.id s ≠ "1004-r1").
Proof.
  assert (store_consistent w_two_sessions) as Hw.
  { assert (w_two_sessions =
            run [LoadAgents (resolved [agentX; agentY]);
                 CreateSession "agentX"; CreateSession "agentY";
                 SetConnectionMode websocket; ConnectWebSocket; WsOpened 0]
                (initialWorld env0)) as -> by (vm_compute; reflexivity).
    apply store_consistent_run, initialWorld_consistent. }
  split; [exact Hw |]. split; [vm_compute; reflexivity |].
  destruct (deleteSessionById_removes_the_session "1004-r1" w_two_sessions Hw)
    as (Hdb & _ & Hno & Hc & _).
  split; [rewrite Hc; vm_compute; reflexivity |]. split; [exact Hdb | exact Hno].
Defined.

(** ** Turns *)

Lemma sendMessage_settled_in_request_mode w cs content reply :
  currentSession (store w) = Some cs →
  connectionMode (store w) = rest →
  let w' := exec (sendMessage_settled content reply) w in
  eval (sendMessage_settled content reply) w = returned ∧
  ∃ cs' u a,
    currentSession (store w') = Some cs' ∧
    same_identity cs cs' ∧
    Session.messages cs' = Session.messages cs ++ [u; a] ∧
    ChatMessage.role u = user ∧ ChatMessage.content u = content ∧
    ChatMessage.agent u = None ∧
    ChatMessage.role a = assistant ∧
    (ChatMessage.content a, ChatMessage.agent a) =
      match reply with
      | resolved response =>
          (ChatResponse.message response, Some (ChatResponse.agent response))
      | rejected (Some detail) =>
          (if decide (detail = "") then "Error: Failed to send message"
           else "Error: " +:+ detail, None)
      | rejected None => ("Error: Failed to send message", None)
      end ∧
    isSending (store w') = false ∧
    requests w' =
      requests w ++ [{| ChatRequest.message := content;
                        ChatRequest.session_id := Some (Session.id cs);
                        ChatRequest.agent := Some (selectedAgent (store w)) |}] ∧
    sockets w' = sockets w ∧
    db w' !! Session.id cs = Some cs'.
Proof.
  intros H Hm.
  unfold sendMessage_settled, sendMessage, sendMessage_resume, addMessage, generateId,
    now, random36, saveSession, api_chat.
  run_action. rewrite H. simpl. rewrite H. simpl. rewrite Hm. simpl.
  destruct reply as [response | [detail|]]; simpl; (split; [reflexivity |]);
    eexists _, _, _; (split; [reflexivity |]); (split; [by unfold same_identity |]);
    simpl;
    (split; [rewrite <- app_assoc; reflexivity |]); simpl;
    split_and!; try done; try apply lookup_insert_eq.
  unfold js_or. by case_decide.
Qed.

(** X5. A Request Mode turn.  With a session selected and Request Mode
    on, one [sendMessage] call that settles appends exactly two messages:
    the user's, and then either the assistant's reply tagged with the
    replying agent or, on rejection, an untagged assistant message made
    of "Error: " and the error's detail (or a fixed text when the detail
    is missing or empty).  One request is issued, carrying the session's
    id and the selected agent; no socket is touched, even if a channel is
    held; the flag ends false and the session is persisted. *)
Theorem request_mode_turn w cs content reply :
  currentSession (store w) = Some cs →
  connectionMode (store w) = rest →
  let w' := exec (sendMessage_settled content reply) w in
  ∃ cs' u a,
    currentSession (store w') = Some cs' ∧
    Session.messages cs' = Session.messages cs ++ [u; a] ∧
    ChatMessage.role u = user ∧ ChatMessage.content u = content ∧
    ChatMessage.agent u = None ∧
    ChatMessage.role a = assistant ∧
    (ChatMessage.content a, ChatMessage.agent a) =
      match reply with
      | resolved response =>
          (ChatResponse.message response, Some (ChatResponse.agent response))
      | rejected (Some detail) =>
          (if decide (detail = "") then "Error: Failed to send message"
           else "Error: " +:+ detail, None)
      | rejected None => ("Error: Failed to send message", None)
      end ∧
    isSending (store w') = false ∧
    requests w' =
      requests w ++ [{| ChatRequest.message := content;
                        ChatRequest.session_id := Some (Session.id cs);
                        ChatRequest.agent := Some (selectedAgent (store w)) |}] ∧
    sockets w' = sockets w ∧
    db w' !! Session.id cs = Some cs'.
Proof.
  intros H Hm.
  destruct (sendMessage_settled_in_request_mode w cs content reply H Hm)
    as (_ & cs' & u & a & Hc & _ & Hrest).
  by exists cs', u, a.
Qed.

Lemma request_mode_turn_witness :
  currentSession (store w_session) = Some (selected w_session) ∧
  connectionMode (store w_session) = rest ∧
  transcript (exec (sendMessage_settled "hi" (resolved reply_hello)) w_session)
    = [(user, "hi"); (assistant, "hello")].
Proof.
  split; [vm_compute; reflexivity |]. split; [vm_compute; reflexivity |].
  destruct (request_mode_turn w_session (selected w_session) "hi" (resolved reply_hello))
    as (cs' & u & a & Hc & Hmsg & Hru & Hcu & _ & Hra & Hca & _);
    [vm_compute; reflexivity | vm_compute; reflexivity |].
  unfold transcript, currentMessages. rewrite Hc, Hmsg.
  replace (Session.messages (selected w_session)) with (@nil ChatMessage.t)
    by (vm_compute; reflexivity).
  simpl. rewrite Hru, Hcu, Hra. injection Hca as -> _. reflexivity.
Defined.

(** X6. A Stream Mode send over a held channel that is not open.  The
    user's message is appended in every case.  While the channel is still
    connecting, [send] throws: the call fails and the flag stays true.
    Once the channel is closing or closed, [send] drops the frame
    silently: the call returns and the flag is false.  In neither case
    is a frame sent or a request issued. *)
Theorem stream_send_on_a_channel_not_open w cs ws content :
  currentSession (store w) = Some cs →
  connectionMode (store w) = websocket →
  wsConnection (store w) = Some ws →
  readyStateOf ws w ≠ Some OPEN →
  let w' := exec (sendMessage content) w in
  (∃ u, currentMessages w' = Session.messages cs ++ [u] ∧
        ChatMessage.role u = user ∧ ChatMessage.content u = content) ∧
  sockets w' = sockets w ∧ requests w' = requests w ∧
  (readyStateOf ws w = Some CONNECTING →
     eval (sendMessage content) w = threw ∧ isSending (store w') = true) ∧
  (readyStateOf ws w ≠ Some CONNECTING →
     eval (sendMessage content) w = returned ∧ isSending (store w') = false).
Proof.
  intros H Hm Hw Hr. simpl.
  destruct (sendMessage_some w cs content H)
    as (cs' & u & Hc & Hmsg & Hru & Hcu & _ & _ & _ & _ & _ & Hcase).
  rewrite Hm, Hw in Hcase. destruct Hcase as (Hreq & Hcase).
  split. { exists u. unfold currentMessages. by rewrite Hc. }
  destruct (readyStateOf ws w) as [[]|]; try done;
    destruct Hcase as (? & ? & ?); by split_and!.
Qed.

Lemma stream_send_on_a_channel_not_open_witness :
  currentSession (store (rendered_after w_session (setConnectionMode websocket)))
    = Some (selected w_session) ∧
  readyStateOf 0 (rendered_after w_session (setConnectionMode websocket))
    = Some CONNECTING ∧
  eval (sendMessage "hi") (rendered_after w_session (setConnectionMode websocket)) = threw ∧
  isSending
    (store (exec (sendMessage "hi") (rendered_after w_session (setConnectionMode websocket))))
    = true.
Proof.
  split; [vm_compute; reflexivity |]. split; [vm_compute; reflexivity |].
  apply (stream_send_on_a_channel_not_open
           (rendered_after w_session (setConnectionMode websocket))
           (selected w_session) 0 "hi");
    try (vm_compute; reflexivity).
  vm_compute. discriminate.
Defined.

(** ** Frames *)

(** X7. An [error] frame.  When it carries a non-empty error text, the
    handler appends one untagged assistant message "Error: " followed by
    that text to the selected session and clears the flag; with no
    session selected it only clears the flag.  When the error text is
    missing or empty the frame is ignored altogether: nothing changes,
    and the flag is not cleared. *)
Theorem error_frame_is_reported_or_ignored w content agent err :
  let data := {| WSChunk.type := error; WSChunk.content := content;
                 WSChunk.agent := agent; WSChunk.error := err |} in
  let w' := exec (onmessage data) w in
  (js_truthy err = false → w' = w) ∧
  (js_truthy err = true →
     isSending (store w') = false ∧
     match currentSession (store w) with
     | Some cs =>
         ∃ cs' a, currentSession (store w') = Some cs' ∧
           Session.messages cs' = Session.messages cs ++ [a] ∧
           ChatMessage.role a = assistant ∧
           Some (ChatMessage.content a) = (λ e, "Error: " +:+ e) <$> err ∧
           ChatMessage.agent a = None
     | None =>
         currentSession (store w') = None ∧ db w' = db w ∧
         sessions (store w') = sessions (store w)
     end).
Proof.
  simpl. unfold onmessage. simpl. split.
  - by intros ->.
  - intros Ht. rewrite Ht.
    unfold addMessage, generateId, now, random36, saveSession. run_action.
    destruct (currentSession (store w)) as [cs|] eqn:E; simpl; [| done].
    split; [done |]. eexists _, _. split; [reflexivity |]. simpl.
    split; [reflexivity |]. simpl. split_and!; try done.
    by destruct err.
Qed.

Lemma error_frame_is_reported_or_ignored_witness :
  js_truthy (Some "boom") = true ∧
  isSending (store (exec (onmessage (WSChunk.mk error None None (Some "boom"))) w_pending))
    = false ∧
  js_truthy (Some "") = false ∧
  exec (onmessage (WSChunk.mk error None None (Some ""))) w_pending = w_pending.
Proof.
  destruct (error_frame_is_reported_or_ignored w_pending None None (Some "boom"))
    as [_ Hrep].
  destruct (error_frame_is_reported_or_ignored w_pending None None (Some ""))
    as [Hign _].
  destruct (Hrep eq_refl) as [Hflag _].
  split; [reflexivity |]. split; [exact Hflag |]. split; [reflexivity |].
  exact (Hign eq_refl).
Defined.

(** X8. A [chunk] frame.  With no session selected, or a selected
    session that has no message yet, the fragment is lost and nothing
    changes.  Otherwise the fragment (the text "undefined" when the frame
    has no content) is concatenated onto the last message, whichever role
    it has; no message is added, the other messages stay, and the flag is
    left as it is. *)
Theorem chunk_frame_grows_the_last_message w content agent err :
  let data := {| WSChunk.type := chunk; WSChunk.content := content;
                 WSChunk.agent := agent; WSChunk.error := err |} in
  let w' := exec (onmessage data) w in
  match currentSession (store w) with
  | None => w' = w
  | Some cs =>
      (Session.messages cs = [] → w' = w) ∧
      (∀ init last, Session.messages cs = init ++ [last] →
         ∃ cs', currentSession (store w') = Some cs' ∧
           Session.messages cs' =
             init ++ [{| ChatMessage.id := ChatMessage.id last;
                         ChatMessage.role := ChatMessage.role last;
                         ChatMessage.content :=
                           ChatMessage.content last +:+ default "undefined" content;
                         ChatMessage.timestamp := ChatMessage.timestamp last;
                         ChatMessage.agent := ChatMessage.agent last |}] ∧
           isSending (store w') = isSending (store w) ∧
           db w' !! Session.id cs = Some cs')
  end.
Proof.
  simpl. unfold onmessage. simpl.
  destruct (currentSession (store w)) as [cs|] eqn:E.
  - split.
    + intros Hm. unfold exec. by rewrite (updateLastMessage_empty w cs).
    + intros init last Hm.
      destruct (updateLastMessage_some w cs content E) as (cs' & Ht & Hg & _).
      { rewrite Hm. by destruct init. }
      destruct Ht as (Hc & _ & (_ & _ & _ & Hs & _) & _ & _ & _ & Hdb & _).
      exists cs'. split_and!; [done | | done | done].
      rewrite Hg, Hm, grow_last_snoc. by destruct content.
  - unfold exec. by rewrite updateLastMessage_none.
Qed.

(** ** The channel *)

(** X9. Disconnecting is idempotent: with no channel held it changes
    nothing, and a second [disconnectWebSocket] right after a first one
    changes nothing more.  After it no handle is held and the channel
    that was held is no longer alive. *)
Theorem disconnectWebSocket_is_idempotent w :
  (wsConnection (store w) = None → exec disconnectWebSocket w = w) ∧
  exec disconnectWebSocket (exec disconnectWebSocket w) = exec disconnectWebSocket w ∧
  wsConnection (store (exec disconnectWebSocket w)) = None ∧
  (∀ ws, wsConnection (store w) = Some ws → alive ws (exec disconnectWebSocket w) = false).
Proof.
  destruct (disconnectWebSocket_spec w) as (Hn & _ & _ & _ & Hdead & _).
  split_and!; try done.
  - intros H. by rewrite disconnectWebSocket_unfold, H.
  - by rewrite (disconnectWebSocket_unfold (exec disconnectWebSocket w)), Hn.
Qed.

(** X10. Connecting twice in a row, with a session selected and a valid
    handle: two sockets are created, the first of them is closed again by
    the second call, and the handle ends on the second, which is bound to
    the selected session and still connecting.  No socket that was dead
    before is alive after, and the channel held before is closed. *)
Theorem connecting_twice_keeps_one_channel w cs :
  handle_valid w →
  currentSession (store w) = Some cs →
  let n := length (sockets w) in
  let w' := run [ConnectWebSocket; ConnectWebSocket] w in
  length (sockets w') = S (S n) ∧
  wsConnection (store w') = Some (S n) ∧
  boundTo (S n) w' = Some (Session.id cs) ∧
  readyStateOf (S n) w' = Some CONNECTING ∧
  alive n w' = false ∧
  (∀ ws, wsConnection (store w) = Some ws → alive ws w' = false) ∧
  (∀ ws, alive ws w' = true → ws = S n ∨ alive ws w = true).
Proof.
  intros Hv Hc. simpl.
  destruct (connectWebSocket_spec w Hv) as (Hc1 & _ & Hdead1 & Hstay1 & Hnew1).
  rewrite Hc in Hnew1. destruct Hnew1 as (Hh1 & Hb1 & Hr1 & Hl1).
  set (w1 := exec connectWebSocket w) in *.
  assert (handle_valid w1) as Hv1.
  { intros ws Hw. rewrite Hh1 in Hw. injection Hw as <-. lia. }
  destruct (connectWebSocket_spec w1 Hv1) as (Hc2 & _ & Hdead2 & Hstay2 & Hnew2).
  rewrite Hc1, Hc in Hnew2. destruct Hnew2 as (Hh2 & Hb2 & Hr2 & Hl2).
  set (w2 := exec connectWebSocket w1) in *.
  rewrite Hl1 in Hh2, Hb2, Hr2, Hl2.
  split_and!; try done.
  - by apply Hdead2.
  - intros ws Hw. apply Hstay2; [| by apply Hdead1].
    rewrite Hl1. specialize (Hv ws Hw). lia.
  - intros ws Ha.
    destruct (decide (ws = S (length (sockets w)))) as [-> | Hne]; [by left | right].
    destruct (alive ws w) eqn:Ea; [done |].
    assert (ws < S (S (length (sockets w)))) as Hlt.
    { rewrite <- Hl2. unfold alive, readyStateOf in Ha.
      destruct (sockets w2 !! ws) eqn:El; [by eapply lookup_lt_Some | done]. }
    destruct (decide (ws = length (sockets w))) as [-> | Hne'].
    + rewrite (Hdead2 _ Hh1) in Ha. done.
    + rewrite Hstay2 in Ha; [done | rewrite Hl1; lia |].
      apply Hstay1; [lia | done].
Qed.

Lemma connecting_twice_keeps_one_channel_witness :
  handle_valid w_streaming ∧
  currentSession (store w_streaming) = Some (selected w_streaming) ∧
  alive 0 w_streaming = true ∧
  alive 0 (run [ConnectWebSocket; ConnectWebSocket] w_streaming) = false ∧
  alive 1 (run [ConnectWebSocket; ConnectWebSocket] w_streaming) = false ∧
  wsConnection (store (run [ConnectWebSocket; ConnectWebSocket] w_streaming)) = Some 2.
Proof.
  assert (handle_valid w_streaming) as Hv.
  { intros ws Hw. vm_compute in Hw. injection Hw as <-. vm_compute. lia. }
  split; [exact Hv |]. split; [vm_compute; reflexivity |].
  split; [vm_compute; reflexivity |].
  destruct (connecting_twice_keeps_one_channel w_streaming (selected w_streaming) Hv)
    as (_ & Hh & _ & _ & Hfirst & Hold & _); [vm_compute; reflexivity |].
  split; [apply Hold; vm_compute; reflexivity |].
  split; [exact Hfirst | exact Hh].
Defined.

Lemma ws_closed_unfold ws w :
  readyStateOf ws w ≠ None → readyStateOf ws w ≠ Some CLOSED →
  exec (ws_closed ws) w =
    with_store (set_wsConnection None)
      (with_sockets (alter (Socket_with_readyState CLOSED) ws) w).
Proof.
  intros Hn Hc. unfold exec, ws_closed, onclose. run_action.
  by destruct (readyStateOf ws w) as [[]|].
Qed.

(** X11. The [close] handler drops the handle whichever socket closed.
    When a socket other than the held one reports its closure while the
    held channel is alive, the store ends with no handle although that
    channel is still alive and still bound as before; the next send in
    Stream Mode then goes out as a request. *)
Theorem close_event_of_another_socket_drops_the_handle w ws held :
  wsConnection (store w) = Some held →
  held ≠ ws →
  alive held w = true →
  readyStateOf ws w ≠ None → readyStateOf ws w ≠ Some CLOSED →
  let w' := exec (ws_closed ws) w in
  wsConnection (store w') = None ∧
  readyStateOf ws w' = Some CLOSED ∧
  alive held w' = true ∧
  boundTo held w' = boundTo held w ∧
  (∀ cs content, currentSession (store w') = Some cs →
     eval (sendMessage content) w' = awaiting).
Proof.
  intros Hh Hne Ha Hn Hcl. simpl. rewrite ws_closed_unfold by done.
  split_and!.
  - done.
  - unfold readyStateOf in *. simpl. rewrite list_lookup_alter_eq.
    by destruct (sockets w !! ws).
  - revert Ha. unfold alive, readyStateOf. simpl. by rewrite list_lookup_alter_ne.
  - unfold boundTo. simpl. by rewrite list_lookup_alter_ne.
  - intros cs content Hc.
    destruct (sendMessage_some _ cs content Hc)
      as (_ & _ & _ & _ & _ & _ & _ & _ & _ & _ & _ & Hcase).
    simpl in Hcase. destruct (connectionMode (store w)); by destruct Hcase.
Qed.

Lemma close_event_of_another_socket_drops_the_handle_witness :
  wsConnection (store (run [WsOpened 1] (rendered_after w_two_sessions (selectSession "1000-r0"))))
    = Some 1 ∧
  alive 1 (run [WsOpened 1] (rendered_after w_two_sessions (selectSession "1000-r0")))
    = true ∧
  readyStateOf 0 (run [WsOpened 1] (rendered_after w_two_sessions (selectSession "1000-r0")))
    = Some CLOSING ∧
  wsConnection
    (store (exec (ws_closed 0)
              (run [WsOpened 1] (rendered_after w_two_sessions (selectSession "1000-r0")))))
    = None ∧
  alive 1
    (exec (ws_closed 0)
       (run [WsOpened 1] (rendered_after w_two_sessions (selectSession "1000-r0"))))
    = true.
Proof.
  split; [vm_compute; reflexivity |]. split; [vm_compute; reflexivity |].
  split; [vm_compute; reflexivity |].
  destruct (close_event_of_another_socket_drops_the_handle
              (run [WsOpened 1] (rendered_after w_two_sessions (selectSession "1000-r0")))
              0 1) as (Hn & _ & Ha & _);
    [vm_compute; reflexivity | discriminate | vm_compute; reflexivity
    | vm_compute; discriminate | vm_compute; discriminate |].
  split; [exact Hn | exact Ha].
Defined.

Lemma chunk_frame_grows_the_last_message_witness :
  currentSession (store w_streamed) = Some (selected w_streamed) ∧
  Session.messages (selected w_streamed) ≠ [] ∧
  ∃ cs', currentSession
           (store (exec (onmessage (WSChunk.mk chunk (Some "He") None None)) w_streamed))
         = Some cs' ∧
    length (Session.messages cs') = 1 ∧
    db (exec (onmessage (WSChunk.mk chunk (Some "He") None None)) w_streamed)
      !! Session.id (selected w_streamed) = Some cs'.
Proof.
  split; [vm_compute; reflexivity |]. split; [vm_compute; discriminate |].
  pose proof (chunk_frame_grows_the_last_message w_streamed (Some "He") None None) as H.
  replace (currentSession (store w_streamed)) with (Some (selected w_streamed)) in H
    by (vm_compute; reflexivity).
  destruct H as [_ H].
  destruct (H [] (ChatMessage.mk "1004-r1" user "hi" 1005 None)) as (cs' & Hc & Hm & _ & Hdb);
    [vm_compute; reflexivity |].
  exists cs'. split; [exact Hc |]. split; [by rewrite Hm | exact Hdb].
Defined.

Lemma disconnectWebSocket_is_idempotent_witness :
  wsConnection (store w_session) = None ∧
  exec disconnectWebSocket w_session = w_session ∧
  wsConnection (store w_streaming) = Some 0 ∧
  alive 0 w_streaming = true ∧
  alive 0 (exec disconnectWebSocket w_streaming) = false.
Proof.
  destruct (disconnectWebSocket_is_idempotent w_session) as (Hnone & _).
  destruct (disconnectWebSocket_is_idempotent w_streaming) as (_ & _ & _ & Hdead).
  split; [vm_compute; reflexivity |].
  split; [apply Hnone; vm_compute; reflexivity |].
  split; [vm_compute; reflexivity |]. split; [vm_compute; reflexivity |].
  apply Hdead. vm_compute; reflexivity.
Defined.

(** ** Toggling the mode *)

Lemma alive_out_of_range ws w : (length (sockets w) ≤ ws)%nat → alive ws w = false.
Proof.
  intros Hge. unfold alive, readyStateOf. by rewrite lookup_ge_None_2.
Qed.

Lemma disconnectWebSocket_alive ws w :
  alive ws (exec disconnectWebSocket w) = true →
  alive ws w = true ∧ wsConnection (store w) ≠ Some ws.
Proof.
  destruct (disconnectWebSocket_spec w) as (_ & _ & _ & _ & Hdead & Hstay).
  intros Ha. split.
  - destruct (alive ws w) eqn:E; [done |]. by rewrite Hstay in Ha.
  - intros Hh. by rewrite (Hdead ws Hh) in Ha.
Qed.

Lemma connectWebSocket_alive ws w :
  handle_valid w →
  alive ws (exec connectWebSocket w) = true →
  wsConnection (store (exec connectWebSocket w)) = Some ws ∨
  (alive ws w = true ∧ wsConnection (store w) ≠ Some ws).
Proof.
  intros Hv Ha.
  destruct (connectWebSocket_spec w Hv) as (_ & _ & Hdead & Hstay & Hnew).
  assert (wsConnection (store w) ≠ Some ws) as Hnh.
  { intros Hh. by rewrite (Hdead ws Hh) in Ha. }
  destruct (decide (ws < length (sockets w))) as [Hlt | Hge].
  - right. split; [| done]. destruct (alive ws w) eqn:E; [done |].
    by rewrite Hstay in Ha.
  - destruct (currentSession (store w)) as [cs|].
    + destruct Hnew as (Hh & _ & _ & Hl).
      destruct (decide (ws = length (sockets w))) as [-> | Hne]; [by left |].
      rewrite alive_out_of_range in Ha; [done | lia].
    + destruct Hnew as (_ & Hl). rewrite alive_out_of_range in Ha; [done | lia].
Qed.

Lemma toggleConnectionMode_unfold w :
  exec toggleConnectionMode w =
    let newMode :=
      match connectionMode (store w) with
      | rest => websocket
      | websocket => rest
      end in
    exec (toast (toast_success
                   ("Switched to " +:+
                    match newMode with rest => "REST" | websocket => "WEBSOCKET" end +:+
                    " mode")))
      (with_store (set_connectionMode newMode) w).
Proof. reflexivity. Qed.

(** X12. Switching Stream Mode on and off again through the switch of
    the input form.  From Request Mode with a valid handle: after the
    first toggle and its render the mode is Stream Mode and, if a session
    is selected, a live channel bound to it is held; after the second
    toggle and its render the mode is Request Mode again, no handle is
    held, the selection is what it was, and no socket is alive that was
    not already alive, and unheld, at the start. *)
Theorem toggling_stream_mode_on_and_off w :
  handle_valid w →
  connectionMode (store w) = rest →
  let w1 := rendered_after w toggleConnectionMode in
  let w2 := rendered_after w1 toggleConnectionMode in
  connectionMode (store w1) = websocket ∧
  (∀ cs, currentSession (store w) = Some cs →
     ∃ ws, wsConnection (store w1) = Some ws ∧
       boundTo ws w1 = Some (Session.id cs) ∧ alive ws w1 = true) ∧
  connectionMode (store w2) = rest ∧
  wsConnection (store w2) = None ∧
  currentSession (store w2) = currentSession (store w) ∧
  (∀ ws, alive ws w2 = true → alive ws w = true ∧ wsConnection (store w) ≠ Some ws).
Proof.
  intros Hv Hm. simpl. unfold rendered_after, ChatInput_deps. cbn [fst snd].
  (* first toggle *)
  set (wa := exec toggleConnectionMode w).
  assert (connectionMode (store wa) = websocket) as Hma.
  { unfold wa. rewrite toggleConnectionMode_unfold, Hm. done. }
  assert (sockets wa = sockets w ∧ wsConnection (store wa) = wsConnection (store w) ∧
          currentSession (store wa) = currentSession (store w)) as (Hsa & Hha & Hca) by done.
  assert (handle_valid wa) as Hva.
  { intros ws Hw. rewrite Hsa. apply Hv. congruence. }
  assert (∀ ws, alive ws wa = alive ws w) as Haa.
  { intros ws. unfold alive, readyStateOf. by rewrite Hsa. }
  clearbody wa.
  rewrite (ChatInput_rerender_unfold (connectionMode (store w))), decide_False
    by (rewrite Hm, Hma; intros [? _]; discriminate).
  rewrite Hm, ChatInput_cleanup_unfold, ChatInput_effect_unfold, Hma.
  set (w1 := match currentSession (store wa) with
             | Some _ => exec connectWebSocket wa
             | None => exec disconnectWebSocket wa
             end).
  assert (connectionMode (store w1) = websocket ∧
          currentSession (store w1) = currentSession (store w) ∧
          handle_valid w1 ∧
          (∀ cs, currentSession (store w) = Some cs →
             ∃ ws, wsConnection (store w1) = Some ws ∧
               boundTo ws w1 = Some (Session.id cs) ∧ alive ws w1 = true) ∧
          (∀ ws, alive ws w1 = true →
             wsConnection (store w1) = Some ws ∨
             (alive ws w = true ∧ wsConnection (store w) ≠ Some ws)))
    as (Hm1 & Hc1 & Hv1 & Hheld1 & Hal1).
  { unfold w1. destruct (currentSession (store wa)) as [cs|] eqn:Ec.
    - destruct (connectWebSocket_spec wa Hva) as (Hc & Hmode & _ & _ & Hnew).
      rewrite Ec in Hnew. destruct Hnew as (Hh & Hb & Hr & Hl).
      split_and!.
      + congruence.
      + congruence.
      + intros ws Hw. rewrite Hh in Hw. injection Hw as <-. lia.
      + intros cs' Hcs'. rewrite <- Hca in Hcs'. injection Hcs' as <-.
        exists (length (sockets wa)). split_and!; [done | done |].
        unfold alive. by rewrite Hr.
      + intros ws Ha. destruct (connectWebSocket_alive ws wa Hva Ha) as [? | [? ?]];
          [by left | right]. rewrite <- Haa, <- Hha. done.
    - destruct (disconnectWebSocket_spec wa) as (Hn & Hc & Hmode & _).
      split_and!.
      + congruence.
      + congruence.
      + intros ws Hw. congruence.
      + intros cs' Hcs'. congruence.
      + intros ws Ha. right. rewrite <- Haa, <- Hha. by apply disconnectWebSocket_alive. }
  clearbody w1.
  (* second toggle *)
  set (wb := exec toggleConnectionMode w1).
  assert (connectionMode (store wb) = rest) as Hmb.
  { unfold wb. rewrite toggleConnectionMode_unfold, Hm1. done. }
  assert (sockets wb = sockets w1 ∧ wsConnection (store wb) = wsConnection (store w1) ∧
          currentSession (store wb) = currentSession (store w1)) as (Hsb & Hhb & Hcb) by done.
  assert (∀ ws, alive ws wb = alive ws w1) as Hab.
  { intros ws. unfold alive, readyStateOf. by rewrite Hsb. }
  clearbody wb.
  rewrite (ChatInput_rerender_unfold (connectionMode (store w1))), decide_False
    by (rewrite Hm1, Hmb; intros [? _]; discriminate).
  rewrite Hm1, ChatInput_cleanup_unfold, ChatInput_effect_unfold.
  destruct (disconnectWebSocket_spec wb) as (Hn & Hc & Hmode & _).
  set (wc := exec disconnectWebSocket wb) in *.
  assert (match connectionMode (store wc), currentSession (store wc) with
          | websocket, Some _ => exec connectWebSocket wc
          | _, _ => exec disconnectWebSocket wc
          end = wc) as ->.
  { rewrite Hmode, Hmb. rewrite disconnectWebSocket_unfold, Hn.
    by destruct (currentSession (store wc)). }
  split_and!; try done; try congruence.
  intros ws Ha. apply disconnectWebSocket_alive in Ha as [Ha Hnh].
  rewrite Hab in Ha. rewrite Hhb in Hnh.
  destruct (Hal1 ws Ha) as [? | ?]; done.
Qed.

Lemma toggling_stream_mode_on_and_off_witness :
  handle_valid w_session ∧
  connectionMode (store w_session) = rest ∧
  alive 0 (rendered_after w_session toggleConnectionMode) = true ∧
  wsConnection
    (store (rendered_after (rendered_after w_session toggleConnectionMode)
              toggleConnectionMode)) = None.
Proof.
  assert (handle_valid w_session) as Hv.
  { intros ws Hw. vm_compute in Hw. discriminate Hw. }
  split; [exact Hv |]. split; [vm_compute; reflexivity |].
  split; [vm_compute; reflexivity |].
  apply (toggling_stream_mode_on_and_off w_session Hv). vm_compute; reflexivity.
Defined.

(** ** The first message of a conversation *)

Lemma bind_run {A B} (m : M A) (k : A → M B) w :
  (m ≫= k) w = k (eval m w) (exec m w).
Proof. unfold eval, exec, mbind, M_bind. by destruct (m w). Qed.

Lemma exec_of_run {A} (m : M A) w a w' : m w = (a, w') → exec m w = w'.
Proof. intros H. unfold exec. by rewrite H. Qed.

Lemma eval_of_run {A} (m : M A) w a w' : m w = (a, w') → eval m w = a.
Proof. intros H. unfold eval. by rewrite H. Qed.

Lemma bind_get {A} (k : SessionState → M A) w : (get ≫= k) w = k (store w) w.
Proof. reflexivity. Qed.

Lemma handleSubmit_blank trim message reply w :
  trim message = "" → handleSubmit trim message reply w = (message, w).
Proof. intros E. unfold handleSubmit. rewrite bind_get. by rewrite decide_True. Qed.

Lemma handleSubmit_without_agent trim message reply w :
  trim message ≠ "" → currentSession (store w) = None → selectedAgent (store w) = "" →
  handleSubmit trim message reply w =
    (message, exec (toast (toast_error "Please select an agent first")) w).
Proof.
  intros Hne Hc Ha. unfold handleSubmit. rewrite bind_get.
  rewrite decide_False by done. rewrite Hc, decide_True by done. reflexivity.
Qed.

Lemma handleSubmit_creates_first trim message reply w :
  trim message ≠ "" → currentSession (store w) = None → selectedAgent (store w) ≠ "" →
  handleSubmit trim message reply w =
    (sendMessage_settled (trim message) reply ≫=
       λ d, match d with threw => mret message | _ => mret "" end)
      (exec (createSession (selectedAgent (store w))) w).
Proof.
  intros Hne Hc Ha. unfold handleSubmit. rewrite bind_get.
  rewrite decide_False by done. rewrite Hc, decide_False by done.
  unfold mbind, M_bind, exec.
  by destruct (createSession (selectedAgent (store w)) w) as [s w1].
Qed.

Lemma createSession_selects agent w :
  ∃ cs, currentSession (store (exec (createSession agent) w)) = Some cs ∧
    Session.agent cs = agent ∧
    Session.messages cs = [] ∧
    connectionMode (store (exec (createSession agent) w)) = connectionMode (store w) ∧
    selectedAgent (store (exec (createSession agent) w)) = selectedAgent (store w) ∧
    requests (exec (createSession agent) w) = requests w.
Proof.
  unfold exec. rewrite createSession_unfold. cbn [snd].
  eexists. split; [reflexivity |]. by split_and!.
Qed.

(** X13. Submitting the input form.  A message that is blank once
    trimmed does nothing.  With no session selected and no agent selected
    the handler shows an error and does nothing else.  With no session
    but an agent selected, in Request Mode with no channel held, it first
    creates a session for that agent and then sends the trimmed text to
    it: the new session is selected and persisted, starts with the
    user's message followed by the assistant's, the request carries the
    new session's id, and the input box is cleared. *)
Theorem handleSubmit_starts_a_conversation trim message reply w :
  (trim message = "" → handleSubmit trim message reply w = (message, w)) ∧
  (trim message ≠ "" → currentSession (store w) = None → selectedAgent (store w) = "" →
     handleSubmit trim message reply w =
       (message, exec (toast (toast_error "Please select an agent first")) w)) ∧
  (trim message ≠ "" → currentSession (store w) = None → selectedAgent (store w) ≠ "" →
     connectionMode (store w) = rest → wsConnection (store w) = None →
     let w' := exec (handleSubmit trim message reply) w in
     eval (handleSubmit trim message reply) w = "" ∧
     ∃ cs' u a,
       currentSession (store w') = Some cs' ∧
       Session.agent cs' = selectedAgent (store w) ∧
       Session.messages cs' = [u; a] ∧
       ChatMessage.role u = user ∧ ChatMessage.content u = trim message ∧
       ChatMessage.role a = assistant ∧
       requests w' =
         requests w ++ [{| ChatRequest.message := trim message;
                           ChatRequest.session_id := Some (Session.id cs');
                           ChatRequest.agent := Some (selectedAgent (store w)) |}] ∧
       db w' !! Session.id cs' = Some cs' ∧
       isSending (store w') = false).
Proof.
  split_and!.
  - apply handleSubmit_blank.
  - apply handleSubmit_without_agent.
  - intros Hne Hc Ha Hm Hw. cbv zeta.
    pose proof (handleSubmit_creates_first trim message reply w Hne Hc Ha) as Hunf.
    destruct (createSession_selects (selectedAgent (store w)) w)
      as (cs & Hc1 & Hag & Hmsg & Hm1 & Hsel & Hreq).
    remember (exec (createSession (selectedAgent (store w))) w) as w1 eqn:Ew1.
    rewrite Hm in Hm1.
    destruct (sendMessage_settled_in_request_mode w1 cs (trim message) reply Hc1 Hm1)
      as (Hret & cs' & u & a & Hc' & (Hid & _ & Hag' & _) & Hm' & Hru & Hcu & _ & Hra & _
          & Hf & Hr & _ & Hdb).
    assert (handleSubmit trim message reply w =
            ("", exec (sendMessage_settled (trim message) reply) w1)) as Hfinal.
    { rewrite Hunf, bind_run. by rewrite Hret. }
    rewrite (exec_of_run _ _ _ _ Hfinal), (eval_of_run _ _ _ _ Hfinal).
    split; [reflexivity |].
    exists cs', u, a. split_and!.
    + exact Hc'.
    + congruence.
    + by rewrite Hm', Hmsg.
    + exact Hru.
    + exact Hcu.
    + exact Hra.
    + by rewrite Hr, Hreq, Hsel, Hid.
    + by rewrite Hid.
    + exact Hf.
Qed.

Lemma handleSubmit_starts_a_conversation_witness :
  currentSession (store (run [LoadAgents (resolved [agentX; agentY])] (initialWorld env0)))
    = None ∧
  selectedAgent (store (run [LoadAgents (resolved [agentX; agentY])] (initialWorld env0)))
    = "agentX" ∧
  eval (handleSubmit (λ s, s) "hi" (resolved reply_hello))
    (run [LoadAgents (resolved [agentX; agentY])] (initialWorld env0)) = "".
Proof.
  split; [vm_compute; reflexivity |]. split; [vm_compute; reflexivity |].
  destruct (handleSubmit_starts_a_conversation (λ s, s) "hi" (resolved reply_hello)
              (run [LoadAgents (resolved [agentX; agentY])] (initialWorld env0)))
    as (_ & _ & H).
  destruct H as [He _];
    [discriminate | vm_compute; reflexivity | vm_compute; discriminate
    | vm_compute; reflexivity | vm_compute; reflexivity |].
  exact He.
Defined.

(** ** Time stamps *)

Lemma clock_monotone_le e n m : clock_monotone e → (n ≤ m)%nat → (clock e n ≤ clock e m)%nat.
Proof.
  intros He Hle. induction Hle as [|m Hle IH]; [done |].
  etrans; [exact IH | apply He].
Qed.

Lemma stamped_since_about_sessions e u0 c0 :
  clock_monotone e → about_sessions (stamped_since e u0 c0).
Proof.
  intros He w w' Henv Ht _ _ Hc (Hw & cs & Hcs & Hu & Hn & Hcr).
  split; [congruence |]. exists cs. rewrite Hc. split_and!; try done.
  etrans; [exact Hn |]. by apply clock_monotone_le.
Qed.

Lemma addMessage_clock w cs message :
  currentSession (store w) = Some cs →
  env (exec (addMessage message) w) = env w ∧
  ticks (exec (addMessage message) w) = S (ticks w).
Proof. intros H. unfold addMessage, now, saveSession. run_action. by rewrite H. Qed.

Lemma updateLastMessage_clock w cs content :
  currentSession (store w) = Some cs → Session.messages cs ≠ [] →
  env (exec (updateLastMessage content) w) = env w ∧
  ticks (exec (updateLastMessage content) w) = S (ticks w).
Proof.
  intros H Hne. unfold updateLastMessage, now, saveSession. run_action. rewrite H. simpl.
  rewrite decide_False by (by destruct (Session.messages cs)).
  destruct (Session.messages cs !! (length (Session.messages cs) - 1)) eqn:E; [done |].
  apply lookup_ge_None in E. destruct (Session.messages cs); [done | simpl in E; lia].
Qed.

Lemma touches_only_stamped e u0 c0 cs cs' w w' :
  clock_monotone e →
  currentSession (store w) = Some cs →
  touches_only cs cs' w w' →
  Session.updatedAt cs' = clock (env w) (ticks w) →
  env w' = env w → ticks w' = S (ticks w) →
  stamped_since e u0 c0 w → stamped_since e u0 c0 w'.
Proof.
  intros He Hcs (Hc & (_ & _ & _ & Hcr) & _) Hup Henv Ht (Hw & cs0 & Hcs0 & Hu & Hn & Hc0).
  rewrite Hcs in Hcs0. injection Hcs0 as <-.
  split; [congruence |]. exists cs'. rewrite Hup, Hw, Ht. split_and!.
  - done.
  - by etrans.
  - apply He.
  - congruence.
Qed.

Lemma addMessage_stamped e u0 c0 message :
  clock_monotone e → preserves (stamped_since e u0 c0) (addMessage message).
Proof.
  intros He w Hw. destruct Hw as (Hw & cs & Hcs & Hrest).
  destruct (addMessage_some w cs message Hcs) as (cs' & Ht & _ & Hup).
  destruct (addMessage_clock w cs message Hcs) as (Henv & Hticks).
  eapply touches_only_stamped; try done. split; [done |]. by exists cs.
Qed.

Lemma updateLastMessage_stamped e u0 c0 content :
  clock_monotone e → preserves (stamped_since e u0 c0) (updateLastMessage content).
Proof.
  intros He w Hw. pose proof Hw as (Hew & cs & Hcs & Hrest).
  destruct (decide (Session.messages cs = [])) as [Em | Hne].
  - unfold exec. by rewrite (updateLastMessage_empty w cs).
  - destruct (updateLastMessage_some w cs content Hcs Hne) as (cs' & Ht & _ & Hup).
    destruct (updateLastMessage_clock w cs content Hcs Hne) as (Henv & Hticks).
    by eapply touches_only_stamped.
Qed.

(** X14. Time stamps during a conversation.  If the clock never runs
    backwards and the selected session was not updated later than the
    clock's next reading, then over any sequence of sends, settlements
    and channel events [updatedAt] of the selected session never
    decreases, and [createdAt] never changes. *)
Theorem updatedAt_never_decreases es w cs :
  clock_monotone (env w) →
  currentSession (store w) = Some cs →
  (Session.updatedAt cs ≤ clock (env w) (ticks w))%nat →
  forallb conversational es = true →
  ∃ cs', currentSession (store (run es w)) = Some cs' ∧
    (Session.updatedAt cs ≤ Session.updatedAt cs')%nat ∧
    Session.createdAt cs' = Session.createdAt cs.
Proof.
  intros He Hcs Hu Hes.
  assert (stamped_since (env w) (Session.updatedAt cs) (Session.createdAt cs) (run es w))
    as (_ & cs' & ? & ? & _ & ?); [| by exists cs'].
  apply run_preserves; [| done |].
  - intros e Hc. apply preserves_conversational;
      [by apply stamped_since_about_sessions | intros m; by apply addMessage_stamped
      | intros c; by apply updateLastMessage_stamped | done].
  - split; [done |]. exists cs. by split_and!.
Qed.

Lemma updatedAt_never_decreases_witness :
  clock_monotone env0 ∧
  currentSession (store w_pending) = Some (selected w_pending) ∧
  ∃ cs', currentSession
           (store (run [ChatSettles (resolved reply_hello); SendMessage "again"] w_pending))
         = Some cs' ∧
    (Session.updatedAt (selected w_pending) ≤ Session.updatedAt cs')%nat.
Proof.
  assert (clock_monotone env0) as He.
  { intros n. simpl. lia. }
  split; [exact He |]. split; [vm_compute; reflexivity |].
  destruct (updatedAt_never_decreases
              [ChatSettles (resolved reply_hello); SendMessage "again"]
              w_pending (selected w_pending)) as (cs' & Hc & Hle & _).
  - exact He.
  - vm_compute; reflexivity.
  - vm_compute. lia.
  - reflexivity.
  - exists cs'. split; [exact Hc | exact Hle].
Defined.

(** * Properties of the authentication store *)

Section AuthProperties.
Import AuthStore.

Ltac run_auth :=
  unfold AuthStore.exec, AuthStore.eval, login, login_failed, logout, refreshToken,
    loadUser, clearError, AuthStore.set, getItem, setItem, removeItem, call,
    mbind, AuthStore.M_bind, mret, AuthStore.M_ret;
  simpl.

(** X16. [logout] signs out whatever [api.logout] answers: user, token
    and error are cleared, the stored token is removed and nothing else
    in [localStorage] is touched.  Doing it twice leaves the same state
    and storage as doing it once, and a [refreshToken] whose request is
    rejected leaves the same state and storage as a [logout] and returns
    false. *)
Theorem logout_always_signs_out r w :
  signed_out (AuthStore.exec (logout r) w) ∧
  isLoading (state (AuthStore.exec (logout r) w)) = isLoading (state w) ∧
  (∀ key, key ≠ "access_token" →
     localStorage (AuthStore.exec (logout r) w) !! key = localStorage w !! key) ∧
  (∀ r', state (AuthStore.exec (logout r') (AuthStore.exec (logout r) w))
           = state (AuthStore.exec (logout r) w) ∧
         localStorage (AuthStore.exec (logout r') (AuthStore.exec (logout r) w))
           = localStorage (AuthStore.exec (logout r) w)) ∧
  (∀ detail,
     AuthStore.eval (refreshToken (rejected detail) r) w = false ∧
     state (AuthStore.exec (refreshToken (rejected detail) r) w)
       = state (AuthStore.exec (logout r) w) ∧
     localStorage (AuthStore.exec (refreshToken (rejected detail) r) w)
       = localStorage (AuthStore.exec (logout r) w)).
Proof.
  unfold signed_out. run_auth. split_and!; try done.
  - apply lookup_delete_eq.
  - intros key Hne. by apply lookup_delete_ne.
  - intros r'. split; [done |]. apply delete_delete_eq.
Qed.

Lemma logout_always_signs_out_witness :
  signed_out
    (AuthStore.exec (logout (rejected None))
       (AuthStore.initialWorld {["access_token" := "t-1"]})) ∧
  AuthStore.eval (refreshToken (rejected (Some "expired")) (rejected None))
    (AuthStore.initialWorld {["access_token" := "t-1"]}) = false.
Proof.
  destruct (logout_always_signs_out (rejected None)
              (AuthStore.initialWorld {["access_token" := "t-1"]}))
    as (Hout & _ & _ & _ & Hrefresh).
  split; [exact Hout |]. by destruct (Hrefresh (Some "expired")).
Defined.

(** X17. The outcomes of [login].  It returns true exactly when both
    [api.login] and [api.getMe] resolve, and then the store is signed in
    with the returned user and token, the token being stored as well.
    When [api.login] is rejected nothing but the error and the loading
    flag changes and [api.getMe] is never called.  When [api.login]
    resolves but [api.getMe] is rejected, the new token has already been
    written to the store and to [localStorage], although the call returns
    false and the signed-in flag and the user are left as they were.  The
    error shown is the rejection's detail, or "Login failed" when the
    detail is missing or empty. *)
Theorem login_outcomes username password tenantId r_login r_getMe w :
  let w' := AuthStore.exec (login username password tenantId r_login r_getMe) w in
  (AuthStore.eval (login username password tenantId r_login r_getMe) w = true ↔
     ∃ response u, r_login = resolved response ∧ r_getMe = resolved u) ∧
  (∀ response u, r_login = resolved response → r_getMe = resolved u →
     state w' = {| user := Some u;
                   token := Some (TokenResponse.access_token response);
                   isAuthenticated := true; isLoading := false; error := None |} ∧
     localStorage w' !! "access_token" = Some (TokenResponse.access_token response) ∧
     calls w' = calls w ++ [api_login username password tenantId; api_getMe]) ∧
  (∀ detail, r_login = rejected detail →
     state w' = {| user := user (state w); token := token (state w);
                   isAuthenticated := isAuthenticated (state w); isLoading := false;
                   error := Some (js_or detail "Login failed") |} ∧
     localStorage w' = localStorage w ∧
     calls w' = calls w ++ [api_login username password tenantId]) ∧
  (∀ response detail, r_login = resolved response → r_getMe = rejected detail →
     state w' = {| user := user (state w);
                   token := Some (TokenResponse.access_token response);
                   isAuthenticated := isAuthenticated (state w); isLoading := false;
                   error := Some (js_or detail "Login failed") |} ∧
     localStorage w' !! "access_token" = Some (TokenResponse.access_token response)) ∧
  js_or None "Login failed" = "Login failed" ∧
  js_or (Some "") "Login failed" = "Login failed".
Proof.
  simpl. split_and!; try done.
  - destruct r_login as [resp|d], r_getMe as [u|d']; run_auth;
      (split; [try done | try (intros (? & ? & ? & ?); done)]).
    all: intros _; by eexists _, _.
  - intros resp u -> ->. run_auth. split_and!; try done.
    + apply lookup_insert_eq.
    + by rewrite <- app_assoc.
  - intros d ->. by run_auth.
  - intros resp d -> ->. run_auth. split; [done |]. apply lookup_insert_eq.
Qed.

Lemma login_outcomes_witness :
  AuthStore.eval
    (login "alice" "pw" None (resolved (token_of "t-1")) (resolved alice))
    (AuthStore.initialWorld ∅) = true ∧
  AuthStore.eval
    (login "alice" "pw" None (resolved (token_of "t-1")) (rejected None))
    (AuthStore.initialWorld ∅) = false ∧
  localStorage
    (AuthStore.exec
       (login "alice" "pw" None (resolved (token_of "t-1")) (rejected None))
       (AuthStore.initialWorld ∅)) !! "access_token" = Some "t-1".
Proof.
  destruct (login_outcomes "alice" "pw" None (resolved (token_of "t-1")) (resolved alice)
              (AuthStore.initialWorld ∅)) as (Hiff & _).
  destruct (login_outcomes "alice" "pw" None (resolved (token_of "t-1")) (rejected None)
              (AuthStore.initialWorld ∅)) as (_ & _ & _ & Hpart & _).
  split; [apply Hiff; by eexists _, _ |]. split; [reflexivity |].
  by apply (Hpart (token_of "t-1") None).
Defined.

(** X18. [loadUser] and the stored token.  A missing token and an empty
    one are treated alike: no backend call is made, the storage is left
    as it is and the store is marked signed out and loaded.  With a
    non-empty token, a resolved [api.getMe] signs the user in under the
    stored token; a rejected one removes the token and signs out, after
    which a further [loadUser] makes no backend call at all. *)
Theorem loadUser_and_the_stored_token r_getMe w :
  let w' := AuthStore.exec (loadUser r_getMe) w in
  (js_truthy (localStorage w !! "access_token") = false →
     calls w' = calls w ∧ localStorage w' = localStorage w ∧
     isAuthenticated (state w') = false ∧ isLoading (state w') = false ∧
     user (state w') = user (state w) ∧ token (state w') = token (state w)) ∧
  (js_truthy (localStorage w !! "access_token") = true →
     calls w' = calls w ++ [api_getMe] ∧
     match r_getMe with
     | resolved u =>
         user (state w') = Some u ∧ isAuthenticated (state w') = true ∧
         isLoading (state w') = false ∧
         token (state w') = localStorage w !! "access_token" ∧
         localStorage w' = localStorage w
     | rejected _ =>
         user (state w') = None ∧ token (state w') = None ∧
         isAuthenticated (state w') = false ∧ isLoading (state w') = false ∧
         localStorage w' !! "access_token" = None ∧
         ∀ r, calls (AuthStore.exec (loadUser r) w') = calls w'
     end) ∧
  js_truthy (Some "") = false ∧ js_truthy None = false.
Proof.
  simpl. split_and!; try done.
  - intros Hf. run_auth. rewrite Hf. done.
  - intros Ht. run_auth. rewrite Ht. destruct r_getMe as [u|d]; simpl; [done |].
    split_and!; try done; try apply lookup_delete_eq.
    intros r. by rewrite lookup_delete_eq.
Qed.

Lemma loadUser_and_the_stored_token_witness :
  js_truthy (localStorage (AuthStore.initialWorld {["access_token" := ""]}) !! "access_token")
    = false ∧
  calls (AuthStore.exec (loadUser (resolved alice))
           (AuthStore.initialWorld {["access_token" := ""]})) = [] ∧
  js_truthy (localStorage (AuthStore.initialWorld {["access_token" := "t-1"]}) !! "access_token")
    = true ∧
  isAuthenticated
    (state (AuthStore.exec (loadUser (resolved alice))
              (AuthStore.initialWorld {["access_token" := "t-1"]}))) = true.
Proof.
  destruct (loadUser_and_the_stored_token (resolved alice)
              (AuthStore.initialWorld {["access_token" := ""]})) as (Hempty & _).
  destruct (loadUser_and_the_stored_token (resolved alice)
              (AuthStore.initialWorld {["access_token" := "t-1"]})) as (_ & Hfull & _).
  split; [vm_compute; reflexivity |].
  split; [destruct Hempty as (Hc & _); [vm_compute; reflexivity | exact Hc] |].
  split; [vm_compute; reflexivity |].
  destruct Hfull as (_ & _ & Ha & _); [vm_compute; reflexivity | exact Ha].
Defined.

End AuthProperties.

(** * The session store under interleaving *)

Section AsyncProperties.
Import Async.

Ltac run_async :=
  unfold turn, called, resumed, attempt,
    loadSessions_called, loadSessions_resumed, createSession_called,
    createSession_saved, createSession_listed, selectSession_called,
    selectSession_resumed, deleteSessionById_called, deleteSessionById_deleted,
    deleteSessionById_listed, generateId, now, random36, getAllSessions, saveSession,
    deleteSession, getSession;
  run_action.

Lemma createSession_called_unfold agent w :
  createSession_called agent true w =
    (let session :=
       {| Session.id := pretty (clock (env w) (ticks w)) +:+ "-" +:+ entropy (env w) (draws w);
          Session.name := "Chat " +:+ toLocaleString (env w) (clock (env w) (S (ticks w)));
          Session.agent := agent;
          Session.messages := [];
          Session.createdAt := clock (env w) (S (S (ticks w)));
          Session.updatedAt := clock (env w) (S (S (S (ticks w)))) |} in
     (Some (createSession_awaits_saveSession session (Some ())),
      {| env := env w; ticks := S (S (S (S (ticks w)))); draws := S (draws w);
         store := store w;
         db := <[Session.id session := session]> (db w);
         sockets := sockets w; requests := requests w; settled := settled w;
         toasts := toasts w |})).
Proof. reflexivity. Qed.

(** An action called from an idle store and resumed before anything else
    happens is the action run in one piece. *)
Lemma alone_is_in_one_piece c w :
  turns (alone c) (idle w) = idle (exec (step (in_one_piece c)) w).
Proof.
  destruct c.
  - reflexivity.
  - unfold alone, in_one_piece, turns, turn, called, exec, eval.
    cbn [world suspended idle step].
    rewrite createSession_called_unfold. run_action. reflexivity.
  - simpl. unfold selectSession. run_async. by destruct (db w !! id).
  - reflexivity.
Qed.

Lemma quiet_preserves I e :
  about_sessions I → quiet e = true → preserves I (step e).
Proof.
  intros HI Hq. destruct e; try discriminate; simpl.
  - by apply loadAgents_about.
  - by apply preserves_set.
  - by apply preserves_set.
  - by apply connectWebSocket_about.
  - by apply disconnectWebSocket_about.
  - intros w Hw. unfold exec, ws_opened, onopen, skip.
    destruct (readyStateOf ws w) as [[]|]; try done.
    eapply (HI w); [reflexivity | simpl; lia | reflexivity | reflexivity | reflexivity | exact Hw].
  - intros w Hw. unfold exec, ws_message.
    destruct (readyStateOf ws w) as [[]|]; try done.
    simpl in Hq. apply bool_decide_eq_true in Hq. unfold onmessage. rewrite Hq.
    by apply (preserves_set I HI).
  - intros w Hw. unfold exec, ws_errored, onerror.
    destruct (readyStateOf ws w) as [[]|]; try done;
    (eapply (HI w); [reflexivity | simpl; lia | reflexivity | reflexivity | reflexivity | exact Hw]).
  - intros w Hw. unfold exec, ws_closed, onclose.
    destruct (readyStateOf ws w) as [[]|]; try done;
    (eapply (HI w); [reflexivity | simpl; lia | reflexivity | reflexivity | reflexivity | exact Hw]).
Qed.

Lemma midway_about_sessions k : about_sessions (midway k).
Proof.
  intros w w' _ _ Hdb Hs Hc.
  destruct k; unfold midway, deleting, store_consistent, db_keyed, selection_persisted,
    list_from_db; rewrite ?Hdb, ?Hs, ?Hc; done.
Qed.

Lemma values_from_db w s :
  db_keyed w → s ∈ (snd <$> map_to_list (db w)) → db w !! Session.id s = Some s.
Proof. intros Hk [k Hs]%elem_of_values. by rewrite (Hk k s Hs). Qed.

Lemma called_in_step c w :
  store_consistent w → in_step (turn (Calls c true) (idle w)).
Proof.
  intros (Hk & Hp & Hl). destruct c; unfold in_step.
  2: { unfold turn, called, exec, eval. rewrite createSession_called_unfold.
       cbn beta iota zeta delta [fst snd world suspended idle app option_list option_rect].
       unfold midway. cbn [db Session.id].
       split_and!; [| apply lookup_insert_eq | done].
       intros k s Hs. cbn [db] in Hs.
       apply lookup_insert_Some in Hs as [[<- <-] | [_ Hs]]; [done | by apply Hk]. }
  all: run_async.
  - by split_and!.
  - split; [by split_and! | by exists id].
  - split; [| done]. unfold deleting, db_keyed. cbn [db with_db store].
    split_and!.
    + intros k s [_ Hs]%lookup_delete_Some. by apply Hk.
    + apply lookup_delete_eq.
    + intros cs Hc Hne. rewrite lookup_delete_ne by done. by apply Hp.
Qed.

Lemma resumed_in_step k w :
  midway k w →
  in_step {| world := exec (resumed k true) w;
             suspended := option_list (eval (resumed k true) w) |}.
Proof.
  destruct k as [r | session r | session r | r | id r | id r]; unfold in_step, midway.
  - intros [(Hk & Hp & Hl) ->]. run_async. split_and!; [done | done |].
    intros s Hs. by apply values_from_db.
  - intros (Hk & Hs & ->). run_async. by split_and!.
  - intros (Hk & Hs & ->). run_async. split_and!; [done | |].
    + by intros cs [= <-].
    + intros s Hin. by apply values_from_db.
  - intros [(Hk & Hp & Hl) [id ->]]. run_async.
    destruct (db w !! id) as [session|] eqn:E; simpl; [| by split_and!].
    split_and!; [done | | done].
    intros cs [= <-]. cbn [db with_store]. by rewrite (Hk id session E).
  - intros [Hd ->]. run_async. by split.
  - intros [(Hk & Hn & Hp) ->]. run_async. split_and!; [done | |].
    + intros cs. destruct (currentSession (store w)) as [cs0|] eqn:E; [| done].
      case_decide as Hid; [done |]. intros [= <-]. by apply Hp.
    + intros s Hin. by apply values_from_db.
Qed.

Lemma in_step_db_keyed s : in_step s → db_keyed (world s).
Proof.
  unfold in_step. destruct (suspended s) as [|k [|]]; [by intros (? & _) | | done].
  destruct k; unfold midway, deleting; by intros [[] _] || by intros [].
Qed.

Lemma turn_in_step t s :
  suspended s = [] ∨ leaves_call_alone t = true →
  succeeds t = true →
  in_step s → in_step (turn t s).
Proof.
  intros Hu Hok Hs. destruct t as [c ok | i ok | e saved]; simpl in Hok; subst.
  - destruct Hu as [Hnil | ?]; [| done].
    destruct s as [w l]. simpl in Hnil. subst l. by apply called_in_step.
  - unfold turn. pose proof Hs as Hs'. unfold in_step in Hs'.
    destruct (suspended s) as [|k [|k' l]] eqn:El; [| | done].
    + simpl. unfold in_step. by rewrite El.
    + destruct i as [|i]; simpl; [| unfold in_step; by rewrite El].
      by apply resumed_in_step.
  - unfold turn. destruct (waits_for_db e) eqn:Hw; [done |].
    unfold in_step in *. cbn [suspended world].
    destruct (suspended s) as [|k [|k' l]] eqn:El; [| | done].
    + by apply step_consistent.
    + destruct Hu as [? | Hq]; [done |]. simpl in Hq.
      by apply (quiet_preserves _ e (midway_about_sessions k)).
Qed.

Lemma turns_in_step ts s :
  undisturbed ts s → forallb succeeds ts = true → in_step s → in_step (turns ts s).
Proof.
  revert s. induction ts as [|t ts IH]; intros s Hu Hok Hs; [done |].
  destruct Hu as [Ht Hu]. simpl in Hok. apply andb_prop in Hok as [Hok Hoks].
  simpl. apply IH; [done | done |]. by apply turn_in_step.
Qed.

(** X1. The session store with the [await]s on lib/db as points where
    anything else may run.  Suppose each command completes before the
    next one starts (while one of [loadSessions], [createSession],
    [selectSession], [deleteSessionById] is suspended, only its own
    continuations and events that touch no session run) and every
    operation of lib/db succeeds.  Then every durable record stays filed
    under its own id, and whenever no call is suspended the selected
    session and every listed session equal their durable records. *)
Theorem store_stays_consistent ts s :
  suspended s = [] →
  store_consistent (world s) →
  undisturbed ts s →
  forallb succeeds ts = true →
  db_keyed (world (turns ts s)) ∧
  (suspended (turns ts s) = [] → store_consistent (world (turns ts s))).
Proof.
  intros Hnil Hs Hu Hok.
  assert (in_step (turns ts s)) as Hin.
  { apply turns_in_step; [done | done |]. unfold in_step. by rewrite Hnil. }
  split; [by apply in_step_db_keyed |].
  intros Hnil'. unfold in_step in Hin. by rewrite Hnil' in Hin.
Qed.

Lemma store_stays_consistent_witness :
  store_consistent (world (idle (initialWorld env0))) ∧
  suspended (turns commands_in_turn (idle (initialWorld env0))) = [] ∧
  length (currentMessages (world (turns commands_in_turn (idle (initialWorld env0))))) = 2 ∧
  store_consistent (world (turns commands_in_turn (idle (initialWorld env0)))).
Proof.
  pose proof (initialWorld_consistent env0) as H0.
  split; [exact H0 |]. split; [vm_compute; reflexivity |].
  split; [vm_compute; reflexivity |].
  refine (proj2 (store_stays_consistent commands_in_turn (idle (initialWorld env0))
                   eq_refl H0 _ eq_refl) _).
  - unfold commands_in_turn. cbn [undisturbed].
    repeat split; first [left; vm_compute; reflexivity | right; reflexivity].
  - vm_compute. reflexivity.
Defined.

Lemma chunk_on_open_socket ws w fragment :
  readyStateOf ws w = Some OPEN →
  exec (step (WsMessage ws (frame_chunk fragment))) w
    = exec (updateLastMessage (Some fragment)) w.
Proof. intros Ho. unfold exec. simpl. unfold ws_message. by rewrite Ho. Qed.

Lemma selectSession_called_turn id s :
  turn (Calls (call_selectSession id) true) s =
    {| world := world s;
       suspended := suspended s
                      ++ [selectSession_awaits_getSession (Some (db (world s) !! id))] |}.
Proof. reflexivity. Qed.

Lemma happens_turn e s :
  waits_for_db e = false →
  turn (Happens e true) s =
    {| world := exec (step e) (world s); suspended := suspended s |}.
Proof. intros H. unfold turn. by rewrite H. Qed.

(** X19. A frame that arrives while [selectSession] is suspended is
    lost.  The selected session is selected again (a click on it in the
    sidebar), and while the call waits for lib/db a chunk arrives on the
    open channel.  The chunk is written to the store and to the durable
    record; then the call resumes and puts back the record it had read
    before, so the store no longer has the fragment that the durable
    record has.  The next chunk is concatenated onto the content without
    the first fragment and written over the durable record: the first
    fragment is then gone from both. *)
Theorem frame_during_selectSession_is_lost w cs ws init last fragment later :
  store_consistent w →
  currentSession (store w) = Some cs →
  Session.messages cs = init ++ [last] →
  readyStateOf ws w = Some OPEN →
  let s1 := turns [Calls (call_selectSession (Session.id cs)) true;
                   Happens (WsMessage ws (frame_chunk fragment)) true;
                   Resumes 0 true] (idle w) in
  let s2 := turn (Happens (WsMessage ws (frame_chunk later)) true) s1 in
  suspended s1 = [] ∧
  currentSession (store (world s1)) = Some cs ∧
  (∃ cs', db (world s1) !! Session.id cs = Some cs' ∧
     Session.messages cs' = init ++ [grown fragment last]) ∧
  currentMessages (world s2) = init ++ [grown later last] ∧
  (∃ cs', db (world s2) !! Session.id cs = Some cs' ∧
     Session.messages cs' = init ++ [grown later last]).
Proof.
  intros (Hk & Hp & Hl) Hc Hm Ho s1 s2.
  assert (Session.messages cs ≠ []) as Hne by (rewrite Hm; by destruct init).
  destruct (updateLastMessage_some w cs (Some fragment) Hc Hne)
    as (cs1 & (_ & _ & _ & _ & _ & _ & Hdb1 & _ & Hsock1 & _) & Hm1 & _).
  set (w1 := exec (updateLastMessage (Some fragment)) w) in *.
  set (w2 := with_store (λ st, set_selectedAgent (Session.agent cs)
                                 (set_currentSession (Some cs) st)) w1).
  assert (s1 = idle w2) as Hs1.
  { unfold s1, turns.
    rewrite (selectSession_called_turn (Session.id cs) (idle w)).
    cbn [world suspended idle app]. rewrite (Hp cs Hc).
    rewrite happens_turn by done. cbn [world suspended].
    rewrite chunk_on_open_socket by done. reflexivity. }
  assert (readyStateOf ws w2 = Some OPEN) as Ho2.
  { unfold readyStateOf, w2. cbn [sockets with_store]. by rewrite Hsock1. }
  assert (currentSession (store w2) = Some cs) as Hc2 by reflexivity.
  destruct (updateLastMessage_some w2 cs (Some later) Hc2 Hne)
    as (cs2 & (Hc3 & _ & _ & _ & _ & _ & Hdb2 & _) & Hm2 & _).
  assert (world s2 = exec (updateLastMessage (Some later)) w2) as Hs2.
  { unfold s2. rewrite Hs1, happens_turn by done. cbn [world idle].
    by rewrite chunk_on_open_socket. }
  rewrite Hs2, Hs1. cbn [suspended world idle].
  split_and!; try done.
  - exists cs1. split; [exact Hdb1 |]. rewrite Hm1, Hm. apply grow_last_snoc.
  - rewrite (currentMessages_some _ cs2 Hc3), Hm2, Hm. apply grow_last_snoc.
  - exists cs2. split; [exact Hdb2 |]. rewrite Hm2, Hm. apply grow_last_snoc.
Qed.

Lemma w_streamed_consistent : store_consistent w_streamed.
Proof.
  assert (w_streamed =
            run [LoadAgents (resolved [agentX; agentY]); CreateSession "agentX";
                 SetConnectionMode websocket; ConnectWebSocket; WsOpened 0;
                 SendMessage "hi"] (initialWorld env0)) as ->
    by (vm_compute; reflexivity).
  apply store_consistent_run, initialWorld_consistent.
Qed.

Lemma frame_during_selectSession_is_lost_witness :
  transcript
    (world
       (turn (Happens (WsMessage 0 (frame_chunk "llo")) true)
          (turns [Calls (call_selectSession (Session.id (selected w_streamed))) true;
                  Happens (WsMessage 0 (frame_chunk "He")) true;
                  Resumes 0 true] (idle w_streamed))))
    = [(user, "hillo")] ∧
  ∃ last,
    Session.messages (selected w_streamed) = [] ++ [last] ∧
    ChatMessage.content last = "hi" ∧
    currentMessages
      (world
         (turn (Happens (WsMessage 0 (frame_chunk "llo")) true)
            (turns [Calls (call_selectSession (Session.id (selected w_streamed))) true;
                    Happens (WsMessage 0 (frame_chunk "He")) true;
                    Resumes 0 true] (idle w_streamed))))
      = [] ++ [grown "llo" last].
Proof.
  split; [vm_compute; reflexivity |].
  eexists. split; [vm_compute; reflexivity |]. split; [reflexivity |].
  refine (proj1 (proj2 (proj2 (proj2
    (frame_during_selectSession_is_lost w_streamed (selected w_streamed) 0 [] _ "He" "llo"
       w_streamed_consistent _ _ _))))).
  - vm_compute. reflexivity.
  - vm_compute. reflexivity.
  - vm_compute. reflexivity.
Defined.

End AsyncProperties.

(** * The authentication store under interleaving *)

Section AuthAsyncProperties.
Import AuthStore AuthAsync.

Ltac run_async :=
  unfold AuthAsync.step, called, continuation, login_called, login_after_login,
    login_after_getMe, logout_called, logout_after_logout, refreshToken_called,
    refreshToken_after_refreshToken, loadUser_called, loadUser_after_getMe,
    AuthStore.exec, AuthStore.eval, login_failed, clearError, AuthStore.set,
    getItem, setItem, removeItem, call, mbind, AuthStore.M_bind, mret, AuthStore.M_ret;
  simpl.

(** A call made from an idle store and answered before anything else
    happens is the action run in one piece. *)
Lemma alone_is_atomic e w :
  AuthAsync.run (alone e) (idle w) = idle (AuthStore.exec (AuthStore.step e) w).
Proof.
  destruct e as [u p t [resp|d] [usr|d'] | r | [resp|d] r | [usr|d] |];
    try reflexivity.
  all: unfold alone, idle, AuthAsync.run, AuthStore.step, loadUser; run_async.
  all: destruct (js_truthy (localStorage w !! "access_token")); reflexivity.
Qed.

Lemma step_signed_in_has_user e s :
  signed_in_has_user (world s) → signed_in_has_user (world (AuthAsync.step e s)).
Proof.
  unfold signed_in_has_user. intros H.
  destruct e as [u p t | | | | | i a]; run_async; try done.
  - destruct (js_truthy (localStorage (world s) !! "access_token")); simpl; [done |].
    intros; discriminate.
  - destruct (suspended s !! i) as [k|]; [| done].
    destruct k as [| | | | stored], a as [[resp|d]|[usr|d]|[]]; simpl; try done; eauto;
      intros; discriminate.
Qed.

Lemma step_token_mirrors_storage e s :
  e ≠ Calls_loadUser →
  (∀ stored, loadUser_awaits_getMe stored ∉ suspended s) →
  token_mirrors_storage (world s) →
  token_mirrors_storage (world (AuthAsync.step e s)) ∧
  (∀ stored, loadUser_awaits_getMe stored ∉ suspended (AuthAsync.step e s)).
Proof.
  unfold token_mirrors_storage. intros He Hn H.
  destruct e as [u p t | | | | | i a]; try done; run_async.
  1-3: split; [done |]; intros stored [Hin | Hin]%elem_of_app;
       [by apply (Hn stored) | by apply list_elem_of_singleton in Hin].
  - split; [done |]. intros stored Hin. rewrite app_nil_r in Hin. by apply (Hn stored).
  - destruct (suspended s !! i) as [k|] eqn:Ek; [| done].
    assert (∀ stored, loadUser_awaits_getMe stored ∉ delete i (suspended s)) as Hd.
    { intros stored Hin. apply (Hn stored). by eapply list_elem_of_delete_inv. }
    destruct k as [| | | | stored].
    5: { exfalso. apply (Hn stored). by eapply list_elem_of_lookup_2. }
    all: destruct a as [[resp|d]|[usr|d]|[]]; simpl; try done.
    all: rewrite ?lookup_insert_eq, ?lookup_delete_eq.
    all: split; [done |].
    all: intros stored [Hin | Hin]%elem_of_app; [by apply (Hd stored) |].
    all: simpl in Hin; try (by apply elem_of_nil in Hin);
         by apply list_elem_of_singleton in Hin.
Qed.

Lemma js_truthy_is_Some (o : option string) : js_truthy o = true → is_Some o.
Proof. destruct o; [eauto | discriminate]. Qed.

Lemma step_settled_or_one e s :
  (waits e = true → suspended s = []) →
  settled_or_one s → settled_or_one (AuthAsync.step e s).
Proof.
  intros Hw [[Ht Ha] Hs]. unfold settled_or_one, coherent in *.
  destruct e as [u p t | | | | | i a].
  1-4: run_async; rewrite (Hw eq_refl) in *; simpl; try done.
  - destruct (js_truthy (localStorage (world s) !! "access_token")) eqn:E; simpl; [done |].
    split; [| done]. split; [done | intros; discriminate].
  - run_async. rewrite app_nil_r. split; [done |]. exact Hs.
  - unfold AuthAsync.step.
    destruct (suspended s) as [|k [|k' l]] eqn:El; [simpl; by rewrite El | | by destruct k].
    destruct i as [|i]; [| simpl; by rewrite El]. simpl.
    destruct k as [| | | | stored], a as [[resp|d]|[usr|d]|[]]; simpl; rewrite ?El;
      try done; run_async; rewrite ?lookup_insert_eq, ?lookup_delete_eq;
      try (split; [| done]); try (split; [done |]); try done.
    + intros Hx. destruct (Ha Hx). eauto.
    + intros Hx. destruct (Ha Hx). eauto.
    + destruct Hs as [-> Hj]. split; [done |]. intros _. split; [eauto |].
      by apply js_truthy_is_Some.
Qed.

Lemma run_settled_or_one es s :
  one_at_a_time es s → settled_or_one s → settled_or_one (AuthAsync.run es s).
Proof.
  revert s. induction es as [|e es IH]; intros s Hone Hs; [done |].
  destruct Hone as [He Hone]. simpl. apply IH; [done |]. by apply step_settled_or_one.
Qed.

(** X15. The authentication store with every [await] a point where
    other calls and answers may run.  Under any interleaving at all, a
    store that says it is signed in has a user.  Under any interleaving
    in which no [loadUser] takes part, the token the store holds, when it
    holds one, is the one kept in [localStorage].  And when no call is
    made while another one is suspended, both hold together with: a
    signed-in store has a token. *)
Theorem auth_store_stays_coherent es s :
  (signed_in_has_user (world s) → signed_in_has_user (world (AuthAsync.run es s))) ∧
  (token_mirrors_storage (world s) → no_loadUser es s →
     token_mirrors_storage (world (AuthAsync.run es s))) ∧
  (coherent (world s) → suspended s = [] → one_at_a_time es s →
     coherent (world (AuthAsync.run es s))).
Proof.
  split_and!.
  - revert s. induction es as [|e es IH]; intros s Hs; [done |].
    simpl. apply IH. by apply step_signed_in_has_user.
  - revert s. induction es as [|e es IH]; intros s Hs [Hes Hn]; [done |].
    apply not_elem_of_cons in Hes as [He Hes].
    destruct (step_token_mirrors_storage e s) as [Hs' Hn']; [done | done | done |].
    simpl. apply IH; [done | by split].
  - intros Hc Hnil Hone. apply (run_settled_or_one es s Hone).
    split; [done |]. by rewrite Hnil.
Qed.

Lemma auth_store_stays_coherent_witness :
  signed_in_has_user (world (AuthAsync.run overlapping_calls idle_with_token)) ∧
  token_mirrors_storage (world (AuthAsync.run overlapping_calls idle_with_token)) ∧
  coherent (world (AuthAsync.run calls_in_turn idle_with_token)) ∧
  isAuthenticated (state (world (AuthAsync.run calls_in_turn idle_with_token))) = true.
Proof.
  destruct (auth_store_stays_coherent overlapping_calls idle_with_token)
    as (Huser & Htoken & _).
  destruct (auth_store_stays_coherent calls_in_turn idle_with_token) as (_ & _ & Hturn).
  split_and!.
  - apply Huser. intros H. vm_compute in H. discriminate H.
  - apply Htoken.
    + intros _. vm_compute. reflexivity.
    + split; [| intros stored; apply not_elem_of_nil].
      unfold overlapping_calls. rewrite !not_elem_of_cons. split_and!; try done.
      apply not_elem_of_nil.
  - apply Hturn.
    + split; [intros _; vm_compute; reflexivity | intros H; vm_compute in H; discriminate H].
    + reflexivity.
    + unfold calls_in_turn. cbn [one_at_a_time].
      repeat split; intros H;
        first [discriminate H | clear H; vm_compute; reflexivity].
  - vm_compute. reflexivity.
Defined.

(** X20. A [logout] that completes while another call is suspended at
    [api.getMe] is undone when that call resumes.  With a non-empty token
    stored, [loadUser] is called, then [logout] is called and completes,
    then [api.getMe] resolves: the store ends signed in, holding the
    token that [loadUser] read, although [localStorage] no longer has
    one.  And when [logout] completes between the two requests of a
    [login], the store ends signed in with a user but with no token
    anywhere.  Neither end state is coherent, and no call is left
    suspended. *)
Theorem logout_during_getMe_is_undone w u r :
  (js_truthy (localStorage w !! "access_token") = true →
   let s' := AuthAsync.run
               [Calls_loadUser; Calls_logout; Answers 1 (unit_answer r);
                Answers 0 (user_answer (resolved u))] (idle w) in
   suspended s' = [] ∧
   isAuthenticated (state (world s')) = true ∧
   user (state (world s')) = Some u ∧
   token (state (world s')) = localStorage w !! "access_token" ∧
   localStorage (world s') !! "access_token" = None ∧
   ¬ coherent (world s')) ∧
  (∀ username password tenantId response,
   let s' := AuthAsync.run
               [Calls_login username password tenantId;
                Answers 0 (token_answer (resolved response));
                Calls_logout; Answers 1 (unit_answer r);
                Answers 0 (user_answer (resolved u))] (idle w) in
   suspended s' = [] ∧
   isAuthenticated (state (world s')) = true ∧
   user (state (world s')) = Some u ∧
   token (state (world s')) = None ∧
   localStorage (world s') !! "access_token" = None ∧
   ¬ coherent (world s')).
Proof.
  split.
  - intros Hj. unfold idle, AuthAsync.run. run_async. rewrite Hj. simpl.
    rewrite lookup_delete_eq. split_and!; try done.
    intros [Ht _]. simpl in Ht. rewrite lookup_delete_eq in Ht.
    apply js_truthy_is_Some in Hj as [t Hj]. rewrite Hj in Ht.
    by discriminate Ht.
  - intros username password tenantId response. unfold idle, AuthAsync.run. run_async.
    rewrite lookup_delete_eq. split_and!; try done.
    intros [_ Ha]. simpl in Ha. destruct (Ha eq_refl) as [_ [? Hn]]. discriminate Hn.
Qed.

Lemma logout_during_getMe_is_undone_witness :
  let w := AuthStore.exec (AuthStore.login "alice" "pw" None (resolved (token_of "t-1"))
                             (resolved alice)) (AuthStore.initialWorld ∅) in
  let s' := AuthAsync.run
              [Calls_loadUser; Calls_logout; Answers 1 (unit_answer (resolved ()));
               Answers 0 (user_answer (resolved alice))] (idle w) in
  coherent w ∧
  isAuthenticated (state (world s')) = true ∧
  token (state (world s')) = Some "t-1" ∧
  localStorage (world s') !! "access_token" = None.
Proof.
  intros w s'.
  destruct (logout_during_getMe_is_undone w alice (resolved ())) as [Hload _].
  destruct Hload as (_ & Ha & _ & Ht & Hl & _); [reflexivity |].
  split_and!; [| exact Ha | exact Ht | exact Hl].
  split; [intros _; reflexivity | intros _; split; eauto].
Defined.

End AuthAsyncProperties.
